(** * Career-Portal scraping engine (src/scraper/scraper.py)

    A shallow embedding of the scraping engine: the proxy pool
    ([ProxyManager]), the per-domain rate limiter ([RateLimiter]), the
    retrying page fetcher ([JobScraper.fetch_page]), the selector driven
    extractor with its salary parser, the SQLite upsert and the batch
    orchestrator ([scrape_all_companies]).

    Conventions.
    - Python [int] is [Z].  Python [str] is [string], one [ascii] per code
      point: a code below 256 stands for itself, except 128, which stands
      for the euro sign U+20AC (the one character beyond Latin-1 that the
      salary patterns name; the control character U+0080 is given up for
      it).  Text with other code points above 255 is outside the model.
      The interpreter is CPython 3.11.
    - [time.time()] is a clock reading in milliseconds ([Z]); [2.0] seconds
      is [2000].  [datetime.now().isoformat()] is a string: the rendering
      [isoformat] of a clock reading in the local time zone, about which
      nothing is assumed (it need not be monotone).
    - What the program cannot decide itself (how much time passes, what
      [random.choice] draws, what the network answers, whether SQLite
      fails, the interpreter's hash secret, what BeautifulSoup finds) is
      read from an environment record [Env], indexed by running counters
      kept in the [World].
    - A coroutine is modelled twice.  The definitions that carry the
      source's names in [Section Engine] are the coroutine run on its own,
      every [await] returning at once; the lemmas about them quantify over
      an arbitrary starting [World].  [Module Task] has the same code as a
      tree of atomic steps and suspension points ([Co]), which a schedule
      interleaves with the other tasks; run alone, a task is the
      definition of [Section Engine]. *)

From Stdlib Require Import ZArith Ascii String List Lia Bool.
From stdpp Require Import base option list gmap strings fin_maps fin_sets.

Local Open Scope Z_scope.

(* ===================================================================== *)
(** ** Python strings *)
(* ===================================================================== *)

Module PyStr.

Definition code (c : ascii) : Z := Z.of_N (N_of_ascii c).
Definition chr (n : Z) : ascii := ascii_of_N (Z.to_N n).

(** The character that stands for the euro sign, and [ord(c)]. *)
Definition euro : ascii := chr 128.
Definition ord (c : ascii) : Z := if code c =? 128 then 8364 else code c.

(** [str(n)] for an [int]. *)
Definition digit_char (d : Z) : ascii := chr (48 + d).

Fixpoint digits_fuel (fuel : nat) (n : Z) (acc : string) : string :=
  match fuel with
  | O => acc
  | S fuel' =>
      let acc' := String (digit_char (n mod 10)) acc in
      if n / 10 =? 0 then acc' else digits_fuel fuel' (n / 10) acc'
  end.

Definition str_of_Z (n : Z) : string :=
  if n <? 0 then String "-" (digits_fuel (S (Z.to_nat (Z.log2 (- n)))) (- n) EmptyString)
  else digits_fuel (S (Z.to_nat (Z.log2 n))) n EmptyString.

(** [int(s)] for a [str] of ASCII decimal digits; [None] is ValueError,
    which a string of more than 4300 digits raises as well
    ([sys.get_int_max_str_digits()]). *)
Definition is_digit (c : ascii) : bool := (48 <=? code c) && (code c <=? 57).

Fixpoint int_digits (s : string) (acc : Z) : option Z :=
  match s with
  | EmptyString => Some acc
  | String c s' =>
      if is_digit c then int_digits s' (10 * acc + (code c - 48)) else None
  end.

Definition max_str_digits : Z := 4300.

Definition int_of_str (s : string) : option Z :=
  match s with
  | EmptyString => None
  | _ =>
      if max_str_digits <? Z.of_nat (String.length s) then None
      else int_digits s 0
  end.

(** [str.lower()] on code points below 256: A-Z and the Latin-1 capitals
    U+00C0..U+00DE (U+00D7 excepted) move up by 32. *)
Definition lower_char (c : ascii) : ascii :=
  let n := code c in
  if ((65 <=? n) && (n <=? 90))
     || ((192 <=? n) && (n <=? 222) && negb (n =? 215))
  then chr (n + 32) else c.

Fixpoint lower (s : string) : string :=
  match s with
  | EmptyString => EmptyString
  | String c s' => String (lower_char c) (lower s')
  end.

(** [s.replace(a, b)] for single characters [a], [b]. *)
Fixpoint replace_char (a b : ascii) (s : string) : string :=
  match s with
  | EmptyString => EmptyString
  | String c s' =>
      String (if Ascii.eqb c a then b else c) (replace_char a b s')
  end.

(** [c in s] for a single character [c]. *)
Fixpoint contains_char (c : ascii) (s : string) : bool :=
  match s with
  | EmptyString => false
  | String d s' => Ascii.eqb d c || contains_char c s'
  end.

(** Truthiness of an optional string: [None] and [""] are falsy. *)
Definition truthy (o : option string) : bool :=
  match o with
  | Some (String _ _) => true
  | _ => false
  end.

(** [s[:n]]. *)
Fixpoint take (n : nat) (s : string) : string :=
  match n, s with
  | S n', String c s' => String c (take n' s')
  | _, _ => EmptyString
  end.

End PyStr.

(* ===================================================================== *)
(** ** The built-in [hash] of a [str]

    CPython 3.11+ hashes the code-point bytes of a string with SipHash-1-3
    under a 128-bit key taken from the interpreter's hash secret.  The
    secret is drawn afresh for every process unless PYTHONHASHSEED fixes
    it: seed 0 gives the all-zero key, any other seed expands through a
    linear congruential generator. *)
(* ===================================================================== *)

Module PyHash.

Definition w64 (x : Z) : Z := x mod 2 ^ 64.

Definition rotl (x b : Z) : Z :=
  w64 (Z.lor (Z.shiftl x b) (Z.shiftr x (64 - b))).

Record sip := { v0 : Z; v1 : Z; v2 : Z; v3 : Z }.

(** HALF_ROUND(a,b,c,d,s,t) *)
Definition half_round (a b c d s t : Z) : Z * Z * Z * Z :=
  let a := w64 (a + b) in
  let c := w64 (c + d) in
  let b := Z.lxor (rotl b s) a in
  let d := Z.lxor (rotl d t) c in
  let a := rotl a 32 in
  (a, b, c, d).

(** SINGLE_ROUND(v0,v1,v2,v3) *)
Definition single_round (v : sip) : sip :=
  let '(a, b, c, d) := half_round (v0 v) (v1 v) (v2 v) (v3 v) 13 16 in
  let '(c, b, a, d) := half_round c b a d 17 21 in
  {| v0 := a; v1 := b; v2 := c; v3 := d |}.

Definition absorb (v : sip) (m : Z) : sip :=
  let v := {| v0 := v0 v; v1 := v1 v; v2 := v2 v; v3 := Z.lxor (v3 v) m |} in
  let v := single_round v in
  {| v0 := Z.lxor (v0 v) m; v1 := v1 v; v2 := v2 v; v3 := v3 v |}.

(** Little-endian value of a run of bytes. *)
Fixpoint le_bytes (bs : list Z) : Z :=
  match bs with
  | [] => 0
  | b :: bs' => b + 256 * le_bytes bs'
  end.

Fixpoint blocks (fuel : nat) (bs : list Z) (v : sip) : sip * list Z :=
  match fuel with
  | O => (v, bs)
  | S fuel' =>
      if (8 <=? length bs)%nat
      then blocks fuel' (drop 8 bs) (absorb v (le_bytes (take 8 bs)))
      else (v, bs)
  end.

Definition siphash13 (k0 k1 : Z) (bs : list Z) : Z :=
  let init :=
    {| v0 := Z.lxor k0 0x736f6d6570736575;
       v1 := Z.lxor k1 0x646f72616e646f6d;
       v2 := Z.lxor k0 0x6c7967656e657261;
       v3 := Z.lxor k1 0x7465646279746573 |} in
  let '(v, tail) := blocks (length bs) bs init in
  let b := Z.lor (w64 (Z.shiftl (Z.of_nat (length bs)) 56)) (le_bytes tail) in
  let v := absorb v b in
  let v := {| v0 := v0 v; v1 := v1 v; v2 := Z.lxor (v2 v) 0xff; v3 := v3 v |} in
  let v := single_round (single_round (single_round v)) in
  Z.lxor (Z.lxor (v0 v) (v1 v)) (Z.lxor (v2 v) (v3 v)).

(** The per-process secret: the two key words of SipHash. *)
Record secret := { k0 : Z; k1 : Z }.

(** The buffer of a [str] object: one byte per code point when all are
    below 256, two (little-endian) otherwise. *)
Fixpoint bytes1_of (s : string) : list Z :=
  match s with
  | EmptyString => []
  | String c s' => PyStr.ord c :: bytes1_of s'
  end.

Fixpoint bytes2_of (s : string) : list Z :=
  match s with
  | EmptyString => []
  | String c s' => PyStr.ord c mod 256 :: PyStr.ord c / 256 :: bytes2_of s'
  end.

Definition bytes_of (s : string) : list Z :=
  if PyStr.contains_char PyStr.euro s then bytes2_of s else bytes1_of s.

(** [hash(s)]: the unsigned digest read as a signed 64-bit [Py_hash_t];
    the empty string hashes to 0 and -1 is reserved. *)
Definition hash (sec : secret) (s : string) : Z :=
  match s with
  | EmptyString => 0
  | _ =>
      let u := siphash13 (k0 sec) (k1 sec) (bytes_of s) in
      let x := if u <? 2 ^ 63 then u else u - 2 ^ 64 in
      if x =? -1 then -2 else x
  end.

(** The key the interpreter derives from PYTHONHASHSEED. *)
Fixpoint lcg_urandom (n : nat) (x : Z) : list Z :=
  match n with
  | O => []
  | S n' =>
      let x' := (x * 214013 + 2531011) mod 2 ^ 32 in
      Z.land (Z.shiftr x' 16) 255 :: lcg_urandom n' x'
  end.

Definition secret_of_seed (seed : Z) : secret :=
  if seed =? 0 then {| k0 := 0; k1 := 0 |}
  else
    let bs := lcg_urandom 16 seed in
    {| k0 := le_bytes (take 8 bs); k1 := le_bytes (drop 8 bs) |}.

End PyHash.


(* ===================================================================== *)
(** ** Exceptions *)
(* ===================================================================== *)

(** The exception classes the engine distinguishes.  All of them are
    subclasses of [Exception]; [TimeoutError] is [asyncio.TimeoutError]. *)
Inductive exn : Type :=
| TimeoutError
| ValueError
| TypeError
| IndexError
| OtherError (msg : string).

#[global] Instance exn_eq_dec : EqDecision exn.
Proof. solve_decision. Defined.

Inductive result (A : Type) : Type :=
| Ok (a : A)
| Raise (e : exn).

Arguments Ok {A} a.
Arguments Raise {A} e.

(* ===================================================================== *)
(** ** Regular expressions as [re.search] runs them

    A backtracking matcher with capture groups: alternatives are tried in
    priority order (greedy first), and the first complete match wins.
    Repetition is over one-character classes, which is all the salary
    patterns use. *)
(* ===================================================================== *)

Module Re.

Inductive regex : Type :=
| Eps
| Cls (p : ascii -> bool)
| Seq (r s : regex)
| Opt (r : regex)
| Star (p : ascii -> bool)
| Grp (i : nat) (r : regex).

Definition plus (p : ascii -> bool) : regex := Seq (Cls p) (Star p).
Definition cat (rs : list regex) : regex := foldr Seq Eps rs.

(** The value of [match.groups()]: one slot per group, [None] for a
    group that did not take part in the match. *)
Definition groups := list (option string).

Definition consumed (s rest : string) : string :=
  PyStr.take (String.length s - String.length rest) s.

Fixpoint star (p : ascii -> bool) (s : string)
         (k : string -> option groups) : option groups :=
  match s with
  | String c s' =>
      if p c then
        match star p s' k with
        | Some g => Some g
        | None => k s
        end
      else k s
  | EmptyString => k s
  end.

Fixpoint run (r : regex) (s : string) (g : groups)
         (k : string -> groups -> option groups) : option groups :=
  match r with
  | Eps => k s g
  | Cls p =>
      match s with
      | String c s' => if p c then k s' g else None
      | EmptyString => None
      end
  | Seq r1 r2 => run r1 s g (fun s' g' => run r2 s' g' k)
  | Opt r1 =>
      match run r1 s g k with
      | Some g' => Some g'
      | None => k s g
      end
  | Star p => star p s (fun s' => k s' g)
  | Grp i r1 =>
      run r1 s g (fun s' g' => k s' (<[i := Some (consumed s s')]> g'))
  end.

(** A compiled pattern: the expression and its number of groups. *)
Record pattern := { expr : regex; ngroups : nat }.

Definition match_at (p : pattern) (s : string) : option groups :=
  run (expr p) s (replicate (ngroups p) None) (fun _ g => Some g).

(** [re.search(p, s)]: the leftmost position where the pattern matches. *)
Fixpoint search (p : pattern) (s : string) : option groups :=
  match match_at p s with
  | Some g => Some g
  | None =>
      match s with
      | String _ s' => search p s'
      | EmptyString => None
      end
  end.

(** Character classes, with [re.IGNORECASE] already applied. *)
Definition digit : ascii -> bool := PyStr.is_digit.
Definition space (c : ascii) : bool :=
  let n := PyStr.code c in
  ((9 <=? n) && (n <=? 13)) || ((28 <=? n) && (n <=? 32))
  || (n =? 133) || (n =? 160).
Definition currency (c : ascii) : bool :=
  let n := PyStr.ord c in (n =? 36) || (n =? 163) || (n =? 8364).
Definition comma (c : ascii) : bool := PyStr.code c =? 44.
Definition dash (c : ascii) : bool := PyStr.code c =? 45.
Definition letter_k (c : ascii) : bool :=
  let n := PyStr.code c in (n =? 107) || (n =? 75).

End Re.

(* ===================================================================== *)
(** ** JobScraper.extract_salary *)
(* ===================================================================== *)

Module Salary.
Import Re.

(** [[\$£€](\d+),?(\d+)?k?\s*-\s*[\$£€]?(\d+),?(\d+)?k?] *)
Definition range_with_symbol : pattern :=
  {| expr := cat [ Cls currency; Grp 0 (plus digit); Opt (Cls comma);
                   Opt (Grp 1 (plus digit)); Opt (Cls letter_k);
                   Star space; Cls dash; Star space; Opt (Cls currency);
                   Grp 2 (plus digit); Opt (Cls comma);
                   Opt (Grp 3 (plus digit)); Opt (Cls letter_k) ];
     ngroups := 4 |}.

(** [(\d+),?(\d+)?\s*-\s*(\d+),?(\d+)?\s*k] *)
Definition bare_range_k : pattern :=
  {| expr := cat [ Grp 0 (plus digit); Opt (Cls comma);
                   Opt (Grp 1 (plus digit)); Star space; Cls dash;
                   Star space; Grp 2 (plus digit); Opt (Cls comma);
                   Opt (Grp 3 (plus digit)); Star space; Cls letter_k ];
     ngroups := 4 |}.

(** [[\$£€](\d+),?(\d+)] *)
Definition single_amount : pattern :=
  {| expr := cat [ Cls currency; Grp 0 (plus digit); Opt (Cls comma);
                   Grp 1 (plus digit) ];
     ngroups := 2 |}.

Definition patterns : list pattern :=
  [ range_with_symbol; bare_range_k; single_amount ].

(** [int(groups[i] + (groups[j] or ''))] *)
Definition int_of_groups (g : groups) (i j : nat) : result Z :=
  match g !! i, g !! j with
  | Some (Some a), Some b =>
      match PyStr.int_of_str (a +:+ default EmptyString b) with
      | Some n => Ok n
      | None => Raise ValueError
      end
  | Some None, Some _ => Raise TypeError
  | _, _ => Raise IndexError
  end.

(** ['k' in salary_text.lower()] *)
Definition has_k (salary_text : string) : bool :=
  PyStr.contains_char "k" (PyStr.lower salary_text).

(** The body of the [try] block for one successful match. *)
Definition salary_of_groups (g : groups) (salary_text : string)
  : result (option Z * option Z) :=
  if (3 <=? length g)%nat then
    match int_of_groups g 0 1 with
    | Raise e => Raise e
    | Ok min_sal =>
        match int_of_groups g 2 3 with
        | Raise e => Raise e
        | Ok max_sal =>
            if has_k salary_text
            then Ok (Some (min_sal * 1000), Some (max_sal * 1000))
            else Ok (Some min_sal, Some max_sal)
        end
    end
  else
    match int_of_groups g 0 1 with
    | Raise e => Raise e
    | Ok salary =>
        let salary := if has_k salary_text then salary * 1000 else salary in
        Ok (Some salary, Some salary)
    end.

(** The [for pattern in patterns] loop. *)
Fixpoint try_patterns (ps : list pattern) (salary_text : string)
  : result (option Z * option Z) :=
  match ps with
  | [] => Ok (None, None)
  | p :: ps' =>
      match search p salary_text with
      | None => try_patterns ps' salary_text
      | Some g =>
          match salary_of_groups g salary_text with
          | Raise ValueError => try_patterns ps' salary_text
          | r => r
          end
      end
  end.

Definition extract_salary (salary_text : string)
  : result (option Z * option Z) :=
  match salary_text with
  | EmptyString => Ok (None, None)
  | _ => try_patterns patterns salary_text
  end.

End Salary.


(* ===================================================================== *)
(** ** Data classes *)
(* ===================================================================== *)

Record Job := mkJob {
  id_ : string;
  title : string;
  company : string;
  location : string;
  description : string;
  url : string;
  posted_date : string;
  salary_min : option Z;
  salary_max : option Z;
  employment_type : option string;
  requirements : option (list string);
  benefits : option (list string);
  scraped_at : string
}.

Record Company := mkCompany {
  name : string;
  career_url : string;
  base_url : string;
  selectors : gmap string string;
  rate_limit : Z;
  last_scraped : option string
}.

Record ProxyConfig := mkProxy {
  host : string;
  port : Z;
  username : option string;
  password : option string;
  protocol : string
}.

(** [ProxyConfig.url] *)
Definition proxy_url (p : ProxyConfig) : string :=
  if PyStr.truthy (username p) && PyStr.truthy (password p) then
    protocol p +:+ "://" +:+ default EmptyString (username p) +:+ ":"
      +:+ default EmptyString (password p) +:+ "@" +:+ host p +:+ ":"
      +:+ PyStr.str_of_Z (port p)
  else
    protocol p +:+ "://" +:+ host p +:+ ":" +:+ PyStr.str_of_Z (port p).

(** The fields of a [ProxyManager] object. *)
Record ProxyManager := mkPool {
  proxies : list ProxyConfig;
  active_proxies : gset Z;
  failed_proxies : gset Z;
  current_proxy : Z;
  last_rotation : Z;
  rotation_interval : Z
}.

(** One row of the table [scrape_logs]. *)
Record ScrapeLog := mkLog {
  log_company : string;
  log_url : string;
  log_status : string;
  log_jobs_found : Z;
  log_error_message : option string;
  log_started_at : string;
  log_completed_at : string;
  log_duration : Z
}.

Record HttpResponse := mkResponse {
  status : Z;
  text : string
}.

(* ===================================================================== *)
(** ** The environment and the world *)
(* ===================================================================== *)

(** A parsed document or tag is represented by its markup. *)
Definition element := string.

Record Env := mkEnv {
  (** milliseconds that pass, beyond what was asked for, at the n-th
      clock event (a clock read, a sleep, a network round trip) *)
  lag : nat -> N;
  (** the n-th draw of the random generator *)
  draw : nat -> nat;
  (** what the n-th [session.get] block does: a response, or an exception
      raised anywhere inside the [async with] *)
  http : nat -> result HttpResponse;
  (** whether the n-th SQLite transaction raises for a reason of its own
      (a locked or unwritable database file, a full disk) *)
  db_fault : nat -> bool;
  (** the interpreter's hash secret for this process *)
  hash_secret : PyHash.secret;
  (** [urlparse(url).netloc], which raises [ValueError] on a malformed
      url, and [urljoin(base, href)] *)
  netloc : string -> result string;
  urljoin : string -> string -> string;
  (** [datetime.fromtimestamp(t).isoformat()] in the local time zone *)
  isoformat : Z -> string;
  (** the order in which the event loop resumes the tasks of
      [asyncio.gather]: the index of the task that runs its next step *)
  schedule : list nat;
  (** [BeautifulSoup(html, 'html.parser')], [select], [select_one],
      [get_text(strip=True)] and [tag['href']] *)
  bs_parse : string -> result element;
  bs_select : element -> string -> result (list element);
  bs_select_one : element -> string -> result (option element);
  bs_get_text : element -> string;
  bs_href : element -> string
}.

(** Call sites of [asyncio.sleep]. *)
Inductive sleeper : Type :=
| RateLimit      (* RateLimiter.wait_if_needed *)
| Status429      (* the 429 branch of fetch_page *)
| Backoff.       (* the backoff at the end of an attempt *)

(** What the engine does to the outside, in order. *)
Inductive Event : Type :=
| EvSleep (who : sleeper) (ms : Z)
| EvGet (at_ms : Z) (target : string) (proxy : option string).

Record World := mkWorld {
  clock : Z;
  n_clock : nat;
  n_draw : nat;
  n_http : nat;
  n_db : nat;
  trace : list Event;
  proxy_manager : option ProxyManager;
  request_times : gmap string Z;
  jobs_table : list Job;
  scrape_logs : list ScrapeLog
}.

Definition set_time (t : Z) (k : nat) (w : World) : World :=
  mkWorld t k (n_draw w) (n_http w) (n_db w) (trace w) (proxy_manager w)
          (request_times w) (jobs_table w) (scrape_logs w).
Definition set_n_draw (k : nat) (w : World) : World :=
  mkWorld (clock w) (n_clock w) k (n_http w) (n_db w) (trace w)
          (proxy_manager w) (request_times w) (jobs_table w) (scrape_logs w).
Definition set_n_http (k : nat) (w : World) : World :=
  mkWorld (clock w) (n_clock w) (n_draw w) k (n_db w) (trace w)
          (proxy_manager w) (request_times w) (jobs_table w) (scrape_logs w).
Definition set_n_db (k : nat) (w : World) : World :=
  mkWorld (clock w) (n_clock w) (n_draw w) (n_http w) k (trace w)
          (proxy_manager w) (request_times w) (jobs_table w) (scrape_logs w).
Definition emit (e : Event) (w : World) : World :=
  mkWorld (clock w) (n_clock w) (n_draw w) (n_http w) (n_db w)
          (trace w ++ [e]) (proxy_manager w) (request_times w)
          (jobs_table w) (scrape_logs w).
Definition set_proxy_manager (pm : option ProxyManager) (w : World) : World :=
  mkWorld (clock w) (n_clock w) (n_draw w) (n_http w) (n_db w) (trace w)
          pm (request_times w) (jobs_table w) (scrape_logs w).
Definition set_request_times (m : gmap string Z) (w : World) : World :=
  mkWorld (clock w) (n_clock w) (n_draw w) (n_http w) (n_db w) (trace w)
          (proxy_manager w) m (jobs_table w) (scrape_logs w).
Definition set_jobs_table (t : list Job) (w : World) : World :=
  mkWorld (clock w) (n_clock w) (n_draw w) (n_http w) (n_db w) (trace w)
          (proxy_manager w) (request_times w) t (scrape_logs w).
Definition set_scrape_logs (l : list ScrapeLog) (w : World) : World :=
  mkWorld (clock w) (n_clock w) (n_draw w) (n_http w) (n_db w) (trace w)
          (proxy_manager w) (request_times w) (jobs_table w) l.

(* ===================================================================== *)
(** ** The monad of engine code: state and exceptions *)
(* ===================================================================== *)

Definition M (A : Type) : Type := World -> result A * World.

Definition ret {A} (a : A) : M A := fun w => (Ok a, w).

Definition bind {A B} (c : M A) (k : A -> M B) : M B :=
  fun w =>
    match c w with
    | (Ok a, w') => k a w'
    | (Raise e, w') => (Raise e, w')
    end.

Definition raise {A} (e : exn) : M A := fun w => (Raise e, w).

(** [try: c except Exception as e: ...], with the outcome as a value. *)
Definition try_ {A} (c : M A) : M (result A) :=
  fun w => let '(r, w') := c w in (Ok r, w').

Definition get_world : M World := fun w => (Ok w, w).
Definition modify (f : World -> World) : M unit := fun w => (Ok tt, f w).

Declare Scope engine_scope.
Delimit Scope engine_scope with M.
Notation "x <~ c ; k" := (bind c (fun x => k))
  (at level 20, c at level 100, k at level 200, only parsing) : engine_scope.
Notation "c ;; k" := (bind c (fun _ => k))
  (at level 100, k at level 200, only parsing, right associativity)
  : engine_scope.

(** [for x in xs: acc = body(acc, x)] *)
Fixpoint for_each {A B} (xs : list A) (acc : B) (body : B -> A -> M B) : M B :=
  match xs with
  | [] => ret acc
  | x :: xs' => bind (body acc x) (fun acc' => for_each xs' acc' body)
  end.

(** [xs[i]] on a Python list: negative indices count from the end. *)
Definition getitem {A} (xs : list A) (i : Z) : M A :=
  let n := Z.of_nat (length xs) in
  let j := if i <? 0 then i + n else i in
  if (0 <=? j) && (j <? n) then
    match xs !! Z.to_nat j with
    | Some x => ret x
    | None => raise IndexError
    end
  else raise IndexError.

(* ===================================================================== *)
(** ** The engine *)
(* ===================================================================== *)

Section Engine.

Variable E : Env.
Local Open Scope engine_scope.

(** *** Clock, sleep and random draws *)

Definition advance (d : Z) : M unit :=
  modify (fun w =>
    set_time (clock w + d + Z.of_N (lag E (n_clock w))) (S (n_clock w)) w).

(** [time.time()] *)
Definition time_time : M Z :=
  advance 0 ;; w <~ get_world ; ret (clock w).

(** [datetime.now().isoformat()]: the clock is read the same way and the
    reading is rendered in local time. *)
Definition datetime_now : M string :=
  t <~ time_time ; ret (isoformat E t).

(** [await asyncio.sleep(d)]: at least [d], never less than nothing *)
Definition sleep (who : sleeper) (d : Z) : M unit :=
  modify (emit (EvSleep who d)) ;; advance (Z.max 0 d).

(** [random.choice(xs)] *)
Definition random_choice {A} (xs : list A) : M A :=
  w <~ get_world ;
  modify (set_n_draw (S (n_draw w))) ;;
  match xs !! (draw E (n_draw w) mod length xs)%nat with
  | Some x => ret x
  | None => raise IndexError
  end.

Definition lift_result {A} (r : result A) : M A :=
  match r with
  | Ok a => ret a
  | Raise e => raise e
  end.

(** *** ProxyManager *)

(** [ProxyManager.__init__] *)
Definition ProxyManager_init (ps : list ProxyConfig) : M ProxyManager :=
  now <~ time_time ;
  ret {| proxies := ps;
         active_proxies := list_to_set (seqZ 0 (Z.of_nat (length ps)));
         failed_proxies := ∅;
         current_proxy := 0;
         last_rotation := now;
         rotation_interval := 300000 |}.

(** The pool object of the world; calling a method on [None] raises. *)
Definition the_pool : M ProxyManager :=
  w <~ get_world ;
  match proxy_manager w with
  | Some pm => ret pm
  | None => raise (OtherError "'NoneType' object has no attribute")
  end.

Definition put_pool (pm : ProxyManager) : M unit :=
  modify (set_proxy_manager (Some pm)).

Definition set_current_proxy (c : Z) (pm : ProxyManager) : ProxyManager :=
  mkPool (proxies pm) (active_proxies pm) (failed_proxies pm) c
         (last_rotation pm) (rotation_interval pm).
Definition set_last_rotation (t : Z) (pm : ProxyManager) : ProxyManager :=
  mkPool (proxies pm) (active_proxies pm) (failed_proxies pm)
         (current_proxy pm) t (rotation_interval pm).
Definition set_sets (a f : gset Z) (pm : ProxyManager) : ProxyManager :=
  mkPool (proxies pm) a f (current_proxy pm) (last_rotation pm)
         (rotation_interval pm).

Definition get_next_proxy : M (option ProxyConfig) :=
  self <~ the_pool ;
  if bool_decide (active_proxies self = ∅) then ret None
  else
    now <~ time_time ;
    (if (now - last_rotation self >? rotation_interval self)
        || negb (bool_decide (current_proxy self ∈ active_proxies self))
     then
       c <~ random_choice (elements (active_proxies self)) ;
       put_pool (set_current_proxy c self) ;;
       t <~ time_time ;
       put_pool (set_last_rotation t (set_current_proxy c self))
     else ret tt) ;;
    self <~ the_pool ;
    p <~ getitem (proxies self) (current_proxy self) ;
    ret (Some p).

Definition mark_proxy_failed (proxy_index : Z) : M unit :=
  self <~ the_pool ;
  if bool_decide (proxy_index ∈ active_proxies self) then
    put_pool (set_sets (active_proxies self ∖ {[proxy_index]})
                       (failed_proxies self ∪ {[proxy_index]}) self)
  else ret tt.

Definition reset_failed_proxies : M unit :=
  self <~ the_pool ;
  put_pool (set_sets (active_proxies self ∪ failed_proxies self) ∅ self).

(** *** RateLimiter *)

Definition wait_if_needed (domain : string) (min_delay : Z) : M unit :=
  current_time <~ time_time ;
  w <~ get_world ;
  match request_times w !! domain with
  | Some last =>
      let time_since_last := current_time - last in
      if time_since_last <? min_delay then
        let wait_time := min_delay - time_since_last in
        sleep RateLimit wait_time
      else ret tt
  | None => ret tt
  end ;;
  t <~ time_time ;
  modify (fun w => set_request_times (<[domain := t]> (request_times w)) w).

(** *** DatabaseManager *)

(** A Python [int] that SQLite can store: a signed 64-bit integer.
    [cursor.execute] raises [OverflowError] on any other. *)
Definition int64 (x : option Z) : bool :=
  match x with
  | Some n => (- 2 ^ 63 <=? n) && (n <? 2 ^ 63)
  | None => true
  end.

(** One SQLite transaction: connect, execute, commit, close.  It raises
    when the database fails, and when a parameter cannot be bound. *)
Definition sqlite_exec (bindable : bool) (f : World -> World) : M unit :=
  w <~ get_world ;
  modify (set_n_db (S (n_db w))) ;;
  if db_fault E (n_db w) then raise (OtherError "sqlite3.OperationalError")
  else if bindable then modify f
  else raise (OtherError "Python int too large to convert to SQLite INTEGER").

(** [json.dumps(x) if x else None]: a falsy list is stored as NULL. *)
Definition json_column (x : option (list string)) : option (list string) :=
  match x with
  | Some (_ :: _) => x
  | _ => None
  end.

Definition stored (job : Job) : Job :=
  mkJob (id_ job) (title job) (company job) (location job)
        (description job) (url job) (posted_date job) (salary_min job)
        (salary_max job) (employment_type job)
        (json_column (requirements job)) (json_column (benefits job))
        (scraped_at job).

(** [INSERT OR REPLACE INTO jobs]: rows that clash on the primary key
    [id] or on the unique [url] are deleted, then the row is inserted. *)
Definition insert_or_replace (job : Job) (rows : list Job) : list Job :=
  filter (fun r => id_ r ≠ id_ job ∧ url r ≠ url job) rows ++ [stored job].

(** The two integer columns of a job bind. *)
Definition storable (job : Job) : bool :=
  int64 (salary_min job) && int64 (salary_max job).

Definition save_job (job : Job) : M bool :=
  r <~ try_ (sqlite_exec (storable job) (fun w =>
               set_jobs_table (insert_or_replace job (jobs_table w)) w)) ;
  match r with
  | Ok _ => ret true
  | Raise _ => ret false
  end.

Definition log_scrape_session (company url status : string)
           (jobs_found : Z) (error_message : option string)
           (started_at completed_at : string) (duration : Z) : M unit :=
  r <~ try_ (sqlite_exec true (fun w =>
               set_scrape_logs
                 (scrape_logs w ++
                    [mkLog company url status jobs_found error_message
                           started_at completed_at duration]) w)) ;
  ret tt.

(** *** JobScraper *)

(** [JobScraper.__init__]: [ProxyManager(proxies) if proxies else None] *)
Definition JobScraper_init (ps : option (list ProxyConfig)) : M unit :=
  match ps with
  | Some (p :: ps') =>
      pm <~ ProxyManager_init (p :: ps') ; put_pool pm
  | _ => modify (set_proxy_manager None)
  end ;;
  modify (set_request_times ∅).

Definition user_agents : list string :=
  [ "Mozilla/5.0 (Windows NT 10.0; Win64; x64) AppleWebKit/537.36 (KHTML, like Gecko) Chrome/91.0.4472.124 Safari/537.36";
    "Mozilla/5.0 (Macintosh; Intel Mac OS X 10_15_7) AppleWebKit/537.36 (KHTML, like Gecko) Chrome/91.0.4472.124 Safari/537.36";
    "Mozilla/5.0 (X11; Linux x86_64) AppleWebKit/537.36 (KHTML, like Gecko) Chrome/91.0.4472.124 Safari/537.36";
    "Mozilla/5.0 (Windows NT 10.0; Win64; x64; rv:89.0) Gecko/20100101 Firefox/89.0";
    "Mozilla/5.0 (Macintosh; Intel Mac OS X 10.15; rv:89.0) Gecko/20100101 Firefox/89.0" ]%string.

Definition get_headers : M (list (string * string)) :=
  ua <~ random_choice user_agents ;
  ret [ ("User-Agent", ua);
        ("Accept", "text/html,application/xhtml+xml,application/xml;q=0.9,*/*;q=0.8");
        ("Accept-Language", "en-US,en;q=0.5");
        ("Accept-Encoding", "gzip, deflate");
        ("DNT", "1");
        ("Connection", "keep-alive");
        ("Upgrade-Insecure-Requests", "1") ]%string.

(** [async with self.session.get(url, headers=headers, proxy=proxy)] *)
Definition session_get (url : string) (headers : list (string * string))
           (proxy : option string) : M HttpResponse :=
  w <~ get_world ;
  modify (emit (EvGet (clock w) url proxy)) ;;
  modify (set_n_http (S (n_http w))) ;;
  advance 0 ;;
  lift_result (http E (n_http w)).

Definition max_retries : Z := 3.

(** [2 ** attempt] seconds *)
Definition backoff_ms (attempt : Z) : Z := 2 ^ attempt * 1000.

(** Lines 300-304: the proxy URL for this attempt, if any. *)
Definition resolve_proxy : M (option string) :=
  w <~ get_world ;
  match proxy_manager w with
  | Some _ =>
      proxy_config <~ get_next_proxy ;
      match proxy_config with
      | Some cfg => ret (Some (proxy_url cfg))
      | None => ret None
      end
  | None => ret None
  end.

(** Lines 308-318: the request and the classification of its status.
    [Some content] is [return content]; [None] falls through to the
    backoff. *)
Definition request (url : string) (proxy : option string) (attempt : Z)
  : M (option string) :=
  headers <~ get_headers ;
  response <~ session_get url headers proxy ;
  if status response =? 200 then ret (Some (text response))
  else if status response =? 429 then
    let wait_time := backoff_ms attempt in
    sleep Status429 wait_time ;; ret None
  else ret None.

(** The local variable [proxy] of [fetch_page]: [None] while no assignment
    to it has run, [Some v] when it holds [v]. *)
Definition local_proxy := option (option string).

(** [UnboundLocalError], with the text CPython 3.11 gives it. *)
Definition unbound_local_proxy : exn :=
  OtherError
    "cannot access local variable 'proxy' where it is not associated with a value".

(** Lines 320-328: the two [except] clauses; [proxy] is the state of the
    local variable when the exception arrives.  [self.proxy_manager and
    proxy] reads the variable only when there is a pool. *)
Definition on_exception (proxy : local_proxy) (e : exn) : M unit :=
  match e with
  | TimeoutError => ret tt
  | _ =>
      w <~ get_world ;
      match proxy_manager w with
      | Some pm =>
          match proxy with
          | None => raise unbound_local_proxy
          | Some proxy =>
              if PyStr.truthy proxy then
                let proxy_index := current_proxy pm in
                mark_proxy_failed proxy_index
              else ret tt
          end
      | None => ret tt
      end
  end.

(** The [try] statement of one loop iteration, when it runs on its own.
    Three places in it can raise: lines 296-297, where [proxy] is what the
    iteration before left; the proxy lookup, where line 300 has set it to
    [None]; and the request, where it has its value for this attempt.  The
    attempt returns the page, if any, and the state of [proxy]. *)
Definition fetch_attempt (url : string) (attempt : Z) (proxy : local_proxy)
  : M (option string * local_proxy) :=
  r <~ try_ (domain <~ lift_result (netloc E url) ;
             wait_if_needed domain 2000) ;
  match r with
  | Raise e => on_exception proxy e ;; ret (None, proxy)
  | Ok _ =>
      r <~ try_ resolve_proxy ;
      match r with
      | Raise e => on_exception (Some None) e ;; ret (None, Some None)
      | Ok proxy =>
          r <~ try_ (request url proxy attempt) ;
          match r with
          | Raise e => on_exception (Some proxy) e ;; ret (None, Some proxy)
          | Ok content => ret (content, Some proxy)
          end
      end
  end.

Fixpoint fetch_loop (url : string) (attempts : list Z) (proxy : local_proxy)
  : M (option string) :=
  match attempts with
  | [] => ret None
  | attempt :: rest =>
      r <~ fetch_attempt url attempt proxy ;
      match fst r with
      | Some content => ret (Some content)
      | None =>
          (if attempt <? max_retries - 1
           then sleep Backoff (backoff_ms attempt) else ret tt) ;;
          fetch_loop url rest (snd r)
      end
  end.

Definition fetch_page (url company : string) : M (option string) :=
  fetch_loop url (seqZ 0 max_retries) None.

(** *** Extraction *)

(** [company.selectors.get(key, fallback)] *)
Definition selector (c : Company) (key fallback : string) : string :=
  default fallback (selectors c !! key).

(** Line 362:
    [f"{company.name.lower().replace(' ', '_')}_{hash(title + location) % 10000}"] *)
Definition job_id (sec : PyHash.secret) (company_name title location : string)
  : string :=
  PyStr.replace_char " " "_" (PyStr.lower company_name) +:+ "_"
    +:+ PyStr.str_of_Z (PyHash.hash sec (title +:+ location) mod 10000).

(** [elem.get_text(strip=True) if elem else fallback] *)
Definition text_or (container : element) (sel fallback : string) : M string :=
  elem <~ lift_result (bs_select_one E container sel) ;
  ret (match elem with
       | Some e => bs_get_text E e
       | None => fallback
       end).

(** The body of the inner [try], for one container. *)
Definition extract_one (container : element) (c : Company) : M Job :=
  title <~ text_or container
             (selector c "title" "h1, h2, h3, .title, .job-title") "Unknown" ;
  location <~ text_or container
             (selector c "location" ".location, .job-location") "Unknown" ;
  description <~ text_or container
             (selector c "description" ".description, .job-description") "" ;
  link_elem <~ lift_result (bs_select_one E container "a[href]") ;
  let job_url :=
    match link_elem with
    | Some l => urljoin E (base_url c) (bs_href E l)
    | None => career_url c
    end in
  let job_id := job_id (hash_secret E) (name c) title location in
  salary_text <~ text_or container
             (selector c "salary" ".salary, .compensation") "" ;
  salary <~ lift_result (Salary.extract_salary salary_text) ;
  posted <~ datetime_now ;
  scraped <~ datetime_now ;
  ret (mkJob job_id title (name c) location (PyStr.take 1000 description)
             job_url posted (fst salary) (snd salary) None None None
             scraped).

(** The parse is outside every [try]; a failing [select] of the
    containers is caught by the outer one, before any job was appended;
    a failing container is skipped by the inner one. *)
Definition extract_jobs_generic (html : string) (c : Company) : M (list Job) :=
  soup <~ lift_result (bs_parse E html) ;
  r <~ try_ (
    job_containers <~ lift_result
      (bs_select E soup
         (selector c "job_container" ".job, .position, .opening")) ;
    for_each job_containers []
      (fun jobs container =>
         r <~ try_ (extract_one container c) ;
         ret (match r with
              | Ok job => jobs ++ [job]
              | Raise _ => jobs
              end))) ;
  match r with
  | Ok jobs => ret jobs
  | Raise _ => ret []
  end.

(** *** Orchestration *)

(** [str(e)] *)
Definition exn_str (e : exn) : string :=
  match e with
  | OtherError msg => msg
  | _ => EmptyString
  end.

(** The [except] clause of [scrape_company]; [jobs] is the value the
    local variable holds when the exception arrives. *)
Definition scrape_failed (c : Company) (start_time : Z) (jobs : list Job)
           (e : exn) : M (list Job) :=
  t <~ time_time ;
  let duration := t - start_time in
  let error_msg := exn_str e in
  completed <~ datetime_now ;
  log_scrape_session (name c) (career_url c) "failed" 0 (Some error_msg)
                     (isoformat E start_time) completed duration ;;
  ret jobs.

(** The [try] block is split where [jobs] is assigned. *)
Definition scrape_company (c : Company) : M (list Job) :=
  start_time <~ time_time ;
  r <~ try_ (
    html <~ fetch_page (career_url c) (name c) ;
    if PyStr.truthy html then
      extract_jobs_generic (default EmptyString html) c
    else raise (OtherError "Failed to fetch career page")) ;
  match r with
  | Raise e => scrape_failed c start_time [] e
  | Ok jobs =>
      r <~ try_ (
        saved_count <~ for_each jobs 0 (fun saved_count job =>
          saved <~ save_job job ;
          ret (if saved : bool then saved_count + 1 else saved_count)) ;
        t <~ time_time ;
        let duration := t - start_time in
        completed <~ datetime_now ;
        log_scrape_session (name c) (career_url c) "success"
                           (Z.of_nat (length jobs)) None
                           (isoformat E start_time) completed duration) ;
      match r with
      | Raise e => scrape_failed c start_time jobs e
      | Ok _ => ret jobs
      end
  end.

(** [asyncio.gather] over the tasks with [return_exceptions=True], when
    each task has finished before the next one starts; [Task.gather] is
    the same under any schedule. *)
Fixpoint gather {A} (tasks : list (M A)) : M (list (result A)) :=
  match tasks with
  | [] => ret []
  | t :: ts =>
      r <~ try_ t ;
      rs <~ gather ts ;
      ret (r :: rs)
  end.

(** The body of the loop over [zip(self.companies, company_results)]. *)
Definition record_result (results : gmap string (list Job))
           (cr : Company * result (list Job)) : gmap string (list Job) :=
  match snd cr with
  | Raise _ => <[name (fst cr) := []]> results
  | Ok jobs => <[name (fst cr) := jobs]> results
  end.

Definition scrape_all_companies (companies : list Company)
  : M (gmap string (list Job)) :=
  company_results <~ gather (map scrape_company companies) ;
  ret (foldl record_result ∅ (zip companies company_results)).

(** *** Sequences of calls on the pool *)

Inductive pool_op : Type :=
| OpNext
| OpMarkFailed (i : Z)
| OpReset.

Definition run_op (op : pool_op) : M unit :=
  match op with
  | OpNext => get_next_proxy ;; ret tt
  | OpMarkFailed i => mark_proxy_failed i
  | OpReset => reset_failed_proxies
  end.

(** A caller that carries on after an exception. *)
Fixpoint run_ops (ops : list pool_op) : M unit :=
  match ops with
  | [] => ret tt
  | op :: ops' => try_ (run_op op) ;; run_ops ops'
  end.

(** Construction of the pool, placed in the world. *)
Definition new_pool (ps : list ProxyConfig) : M unit :=
  pm <~ ProxyManager_init ps ; put_pool pm.

End Engine.

Arguments pool_op : clear implicits.

(* ===================================================================== *)
(** ** Coroutines and the event loop

    A coroutine is a tree of atomic steps on the world and of suspension
    points.  The event loop resumes one task at a time; a resumed task runs
    up to its next suspension point, and only there can another task run.
    The suspension points of the engine are [asyncio.sleep] and the
    request of [session.get]; awaiting a coroutine that does not suspend
    does not suspend. *)
(* ===================================================================== *)

(** What a suspended task waits for. *)
Inductive wait : Type :=
| Sleeping (who : sleeper)
| Receiving.

Inductive Co (A : Type) : Type :=
| Fin (r : result A)
| Act (step : World -> World) (k : World -> Co A)
| Yield (why : wait) (k : Co A).

Arguments Fin {A} r.
Arguments Act {A} step k.
Arguments Yield {A} why k.

(** A piece of engine code with no [await] in it: the step it makes on the
    world, and what it returned or raised from the world it started in. *)
Definition atomic {A} (c : M A) : Co A :=
  Act (fun w => snd (c w)) (fun w => Fin (fst (c w))).

Definition suspend (why : wait) : Co unit := Yield why (Fin (Ok tt)).

Fixpoint co_bind {A B} (c : Co A) (f : A -> Co B) : Co B :=
  match c with
  | Fin (Ok a) => f a
  | Fin (Raise e) => Fin (Raise e)
  | Act step k => Act step (fun w => co_bind (k w) f)
  | Yield why k => Yield why (co_bind k f)
  end.

Fixpoint co_try {A} (c : Co A) : Co (result A) :=
  match c with
  | Fin r => Fin (Ok r)
  | Act step k => Act step (fun w => co_try (k w))
  | Yield why k => Yield why (co_try k)
  end.

Declare Scope task_scope.
Delimit Scope task_scope with T.
Notation "x <~ c ; k" := (co_bind c (fun x => k))
  (at level 20, c at level 100, k at level 200, only parsing) : task_scope.
Notation "c ;; k" := (co_bind c (fun _ => k))
  (at level 100, k at level 200, only parsing, right associativity)
  : task_scope.

(** The event loop resumes a task: it runs to its next suspension point,
    or to its end. *)
Fixpoint resume {A} (c : Co A) (w : World) {struct c} : Co A * World :=
  match c with
  | Fin r => (Fin r, w)
  | Act step k => resume (k w) (step w)
  | Yield _ k => (k, w)
  end.

(** One task seen from inside: [others why] is what the other tasks do to
    the world while this one is suspended for [why]. *)
Fixpoint run_among {A} (c : Co A) (others : wait -> World -> World)
         (w : World) {struct c} : result A * World :=
  match c with
  | Fin r => (r, w)
  | Act step k => run_among (k w) others (step w)
  | Yield why k => run_among k others (others why w)
  end.

(** The task on its own: nothing happens while it is suspended. *)
Definition run_alone {A} (c : Co A) : M A := run_among c (fun _ w => w).

(** The event loop over the tasks of a [gather]: each entry of the
    schedule resumes one task (an entry for a task that has finished, or
    that does not exist, does nothing). *)
Fixpoint interleave {A} (sched : list nat) (tasks : list (Co A)) (w : World)
  : list (Co A) * World :=
  match sched with
  | [] => (tasks, w)
  | i :: sched' =>
      match tasks !! i with
      | Some c =>
          let cw := resume c w in
          interleave sched' (<[i := fst cw]> tasks) (snd cw)
      | None => interleave sched' tasks w
      end
  end.

(** When the schedule is used up, the tasks that are left run to their end
    one after the other. *)
Fixpoint finish_all {A} (tasks : list (Co A)) : M (list (result A)) :=
  match tasks with
  | [] => ret []
  | c :: cs =>
      bind (try_ (run_alone c)) (fun r =>
      bind (finish_all cs) (fun rs => ret (r :: rs)))
  end.

Module Task.
Section Tasks.

Variable E : Env.
Local Open Scope task_scope.

(** [await asyncio.sleep(d)]: the task is resumed no earlier than [d]
    after it went to sleep. *)
Definition sleep (who : sleeper) (d : Z) : Co unit :=
  start <~ atomic (bind get_world (fun w =>
                   bind (modify (emit (EvSleep who d))) (fun _ =>
                   ret (clock w)))) ;
  suspend (Sleeping who) ;;
  atomic (modify (fun w =>
    set_time (Z.max (clock w) (start + Z.max 0 d) + Z.of_N (lag E (n_clock w)))
             (S (n_clock w)) w)).

(** [RateLimiter.wait_if_needed]: the entry is read before the sleep and
    written after it. *)
Definition wait_if_needed (domain : string) (min_delay : Z) : Co unit :=
  wait <~ atomic (bind (time_time E) (fun current_time =>
                  bind get_world (fun w =>
                  ret (match request_times w !! domain with
                       | Some last =>
                           let time_since_last := current_time - last in
                           if time_since_last <? min_delay
                           then Some (min_delay - time_since_last)
                           else None
                       | None => None
                       end)))) ;
  match wait with
  | Some wait_time => sleep RateLimit wait_time
  | None => Fin (Ok tt)
  end ;;
  atomic (bind (time_time E) (fun t =>
          modify (fun w => set_request_times (<[domain := t]> (request_times w)) w))).

(** [async with self.session.get(url, headers=headers, proxy=proxy)]: the
    request goes out, the task is suspended until the answer is there. *)
Definition session_get (url : string) (headers : list (string * string))
           (proxy : option string) : Co HttpResponse :=
  n <~ atomic (bind get_world (fun w =>
               bind (modify (emit (EvGet (clock w) url proxy))) (fun _ =>
               bind (modify (set_n_http (S (n_http w)))) (fun _ =>
               ret (n_http w))))) ;
  suspend Receiving ;;
  atomic (bind (advance E 0) (fun _ => lift_result (http E n))).

Definition request (url : string) (proxy : option string) (attempt : Z)
  : Co (option string) :=
  headers <~ atomic (get_headers E) ;
  response <~ session_get url headers proxy ;
  if status response =? 200 then Fin (Ok (Some (text response)))
  else if status response =? 429 then
    let wait_time := backoff_ms attempt in
    sleep Status429 wait_time ;; Fin (Ok None)
  else Fin (Ok None).

Definition fetch_attempt (url : string) (attempt : Z) (proxy : local_proxy)
  : Co (option string * local_proxy) :=
  r <~ co_try (domain <~ atomic (lift_result (netloc E url)) ;
               wait_if_needed domain 2000) ;
  match r with
  | Raise e => atomic (on_exception proxy e) ;; Fin (Ok (None, proxy))
  | Ok _ =>
      r <~ co_try (atomic (resolve_proxy E)) ;
      match r with
      | Raise e =>
          atomic (on_exception (Some None) e) ;; Fin (Ok (None, Some None))
      | Ok proxy =>
          r <~ co_try (request url proxy attempt) ;
          match r with
          | Raise e =>
              atomic (on_exception (Some proxy) e) ;;
              Fin (Ok (None, Some proxy))
          | Ok content => Fin (Ok (content, Some proxy))
          end
      end
  end.

Fixpoint fetch_loop (url : string) (attempts : list Z) (proxy : local_proxy)
  : Co (option string) :=
  match attempts with
  | [] => Fin (Ok None)
  | attempt :: rest =>
      r <~ fetch_attempt url attempt proxy ;
      match fst r with
      | Some content => Fin (Ok (Some content))
      | None =>
          (if attempt <? max_retries - 1
           then sleep Backoff (backoff_ms attempt) else Fin (Ok tt)) ;;
          fetch_loop url rest (snd r)
      end
  end.

Definition fetch_page (url company : string) : Co (option string) :=
  fetch_loop url (seqZ 0 max_retries) None.

(** [scrape_company] from the point where [fetch_page] has returned or
    raised: nothing awaits any more, so extraction, the saves and the
    session row are one step. *)
Definition after_fetch (c : Company) (start_time : Z)
           (html : result (option string)) : M (list Job) :=
  bind (try_ (
    bind (lift_result html) (fun html =>
    if PyStr.truthy html then
      extract_jobs_generic E (default EmptyString html) c
    else raise (OtherError "Failed to fetch career page")))) (fun r =>
  match r with
  | Raise e => scrape_failed E c start_time [] e
  | Ok jobs =>
      bind (try_ (
        bind (for_each jobs 0 (fun saved_count job =>
          bind (save_job E job) (fun saved =>
          ret (if saved : bool then saved_count + 1 else saved_count))))
          (fun saved_count =>
        bind (time_time E) (fun t =>
        let duration := t - start_time in
        bind (datetime_now E) (fun completed =>
        log_scrape_session E (name c) (career_url c) "success"
                           (Z.of_nat (length jobs)) None
                           (isoformat E start_time) completed duration)))))
        (fun r =>
      match r with
      | Raise e => scrape_failed E c start_time jobs e
      | Ok _ => ret jobs
      end)
  end).

Definition scrape_company (c : Company) : Co (list Job) :=
  start_time <~ atomic (time_time E) ;
  html <~ co_try (fetch_page (career_url c) (name c)) ;
  atomic (after_fetch c start_time html).

(** [asyncio.gather] with [return_exceptions=True] under the schedule of
    the environment.  The semaphore of [scrape_all_companies] only keeps
    tasks from starting, so it removes schedules and adds none. *)
Definition gather {A} (tasks : list (Co A)) : M (list (result A)) :=
  fun w =>
    let tw := interleave (schedule E) tasks w in
    finish_all (fst tw) (snd tw).

Definition scrape_all_companies (companies : list Company)
  : M (gmap string (list Job)) :=
  bind (gather (map scrape_company companies)) (fun company_results =>
  ret (foldl record_result ∅ (zip companies company_results))).

End Tasks.
End Task.



(* ===================================================================== *)
(** ** Invariants, observations and sample data *)
(* ===================================================================== *)

Definition pool_inv (pm : ProxyManager) : Prop :=
  active_proxies pm ## failed_proxies pm ∧
  ∀ i : Z, 0 <= i < Z.of_nat (length (proxies pm))
           ↔ i ∈ active_proxies pm ∨ i ∈ failed_proxies pm.

Ltac unfold_m :=
  unfold time_time, datetime_now, sleep, advance, random_choice, the_pool,
    put_pool, lift_result, get_world, modify, bind, ret, raise, try_ in *.

Definition world_pool (ps : list ProxyConfig) (w : World) (pm : ProxyManager) : Prop :=
  proxy_manager w = Some pm ∧ proxies pm = ps ∧ pool_inv pm.

Definition pool_ok (w : World) : Prop :=
  match proxy_manager w with
  | Some pm => pool_inv pm
  | None => True
  end.

Definition is_rate_limit_sleep (e : Event) : Prop :=
  match e with
  | EvSleep RateLimit _ => True
  | _ => False
  end.

(** What one attempt returns and how long its 429 branch sleeps, as decided by
    the outcome of its request. *)
Definition attempt_result (o : result HttpResponse) : option string :=
  match o with
  | Ok r => if status r =? 200 then Some (text r) else None
  | Raise _ => None
  end.

Definition attempt_sleep (o : result HttpResponse) (attempt : Z) : list Event :=
  match o with
  | Ok r =>
      if status r =? 200 then []
      else if status r =? 429 then [EvSleep Status429 (backoff_ms attempt)]
      else []
  | Raise _ => []
  end.







Definition empty_world : World := mkWorld 0 0 0 0 0 [] None ∅ [] [].

Definition one_proxy : ProxyConfig := mkProxy "10.0.0.1" 8080 None None "http".


Definition matched_amounts (g : Re.groups) : option (Z * Z) :=
  if (3 <=? length g)%nat then
    match Salary.int_of_groups g 0 1, Salary.int_of_groups g 2 3 with
    | Ok a, Ok b => Some (a, b)
    | _, _ => None
    end
  else
    match Salary.int_of_groups g 0 1 with
    | Ok a => Some (a, a)
    | Raise _ => None
    end.

Fixpoint unary (k : nat) : string :=
  match k with
  | O => EmptyString
  | S k' => String "a" (unary k')
  end.

Definition google : Company :=
  mkCompany "Google" "https://careers.google.com/jobs/results/"
            "https://careers.google.com" ∅ 2000 None.

Definition ids_of (r : result (list Job)) : result (list string) :=
  match r with
  | Ok jobs => Ok (map id_ jobs)
  | Raise e => Raise e
  end.

Definition test_env (responses : nat → result HttpResponse) (faults : nat → bool)
           (parse : string → result element) (seed : Z) : Env :=
  {| lag := fun _ => 0%N;
     draw := fun _ => 0%nat;
     http := responses;
     db_fault := faults;
     hash_secret := PyHash.secret_of_seed seed;
     netloc := fun u => Ok u;
     urljoin := fun base href => base +:+ href;
     isoformat := PyStr.str_of_Z;
     schedule := [];
     bs_parse := parse;
     bs_select := fun _ _ => Ok ["<div class=job>"%string];
     bs_select_one := fun _ _ => Ok None;
     bs_get_text := fun e => e;
     bs_href := fun _ => "/jobs/1"%string |}.

Definition acme : Company :=
  mkCompany "Acme Corp" "http://acme/careers" "http://acme" ∅ 5000 None.

Definition page_ok : nat → result HttpResponse :=
  fun _ => Ok (mkResponse 200 "<html>").


Definition always_timeout : nat → result HttpResponse :=
  fun _ => Raise TimeoutError.

Definition refused : nat → result HttpResponse :=
  fun _ => Raise (OtherError "Cannot connect to host").


Definition second_time_lucky : nat → result HttpResponse :=
  fun n => match n with
           | 0%nat => Ok (mkResponse 500 "")
           | _ => Ok (mkResponse 200 "<html>")
           end.

Definition no_fault : nat → bool := fun _ => false.

Definition disk_full : nat → bool := fun _ => true.

Definition parses : string → result element := fun html => Ok html.

Definition parse_error : string → result element :=
  fun _ => Raise (OtherError "parser error").

Definition pool0 : ProxyManager := mkPool [one_proxy] {[0]} ∅ 0 0 300000.







Definition with_schedule (sched : list nat) (E : Env) : Env :=
  {| lag := lag E;
     draw := draw E;
     http := http E;
     db_fault := db_fault E;
     hash_secret := hash_secret E;
     netloc := netloc E;
     urljoin := urljoin E;
     isoformat := isoformat E;
     schedule := sched;
     bs_parse := bs_parse E;
     bs_select := bs_select E;
     bs_select_one := bs_select_one E;
     bs_get_text := bs_get_text E;
     bs_href := bs_href E |}.

Definition world_with_pool : World := set_proxy_manager (Some pool0) empty_world.

Definition with_rate_limit (d : Z) (c : Company) : Company :=
  mkCompany (name c) (career_url c) (base_url c) (selectors c) d (last_scraped c).

(** Half a second after a request to acme.example. *)
Definition limiter_at_500 : World :=
  set_request_times {[ "acme.example"%string := 0 ]} (set_time 500 0 empty_world).

(* ===================================================================== *)
(** ** Further predicates and sample data *)
(* ===================================================================== *)

(** Every character of [s] is in the class [p]. *)
Fixpoint all_chars (p : ascii → bool) (s : string) : Prop :=
  match s with
  | EmptyString => True
  | String c s' => p c = true ∧ all_chars p s'
  end.

(** What a successful run of [r] from [s] with groups [g] did: it stopped
    at [s'] with groups [g']. *)
Fixpoint run_post (r : Re.regex) (s : string) (g : list (option string))
         (s' : string) (g' : list (option string)) : Prop :=
  match r with
  | Re.Eps => s' = s ∧ g' = g
  | Re.Cls p => ∃ c, s = String c s' ∧ p c = true ∧ g' = g
  | Re.Seq r1 r2 => ∃ sm gm, run_post r1 s g sm gm ∧ run_post r2 sm gm s' g'
  | Re.Opt r1 => run_post r1 s g s' g' ∨ (s' = s ∧ g' = g)
  | Re.Star p => g' = g ∧ ∃ pre, s = pre +:+ s' ∧ all_chars p pre
  | Re.Grp i r1 =>
      ∃ g0, run_post r1 s g s' g0 ∧ g' = <[i := Some (Re.consumed s s')]> g0
  end.

(** Every group of [r] captures a run of digits. *)
Fixpoint digit_grouped (r : Re.regex) : Prop :=
  match r with
  | Re.Grp _ r1 => r1 = Re.plus Re.digit
  | Re.Seq r1 r2 => digit_grouped r1 ∧ digit_grouped r2
  | Re.Opt r1 => digit_grouped r1
  | _ => True
  end.

(** Group [i] takes part in every match of [r]. *)
Fixpoint must_set (i : nat) (r : Re.regex) : bool :=
  match r with
  | Re.Grp j r1 => (i =? j)%nat || must_set i r1
  | Re.Seq r1 r2 => must_set i r1 || must_set i r2
  | _ => false
  end.

(** Every match of [r] consumes a character of class [q]. *)
Fixpoint must_read (q : ascii → bool) (r : Re.regex) : Prop :=
  match r with
  | Re.Cls p => p = q
  | Re.Seq r1 r2 => must_read q r1 ∨ must_read q r2
  | Re.Grp _ r1 => must_read q r1
  | _ => False
  end.

(** A non-empty run of digits. *)
Definition digits (a : string) : Prop := a ≠ EmptyString ∧ all_chars Re.digit a.

(** [s] is empty or starts with a character outside the class [p]. *)
Definition starts_outside (p : ascii → bool) (s : string) : Prop :=
  match s with
  | EmptyString => True
  | String c _ => p c = false
  end.

(** Every group that is set holds a non-empty run of digits. *)
Definition digit_slots (g : list (option string)) : Prop :=
  ∀ i a, g !! i = Some (Some a) → digits a.

(** The request of an attempt raised something other than a timeout. *)
Definition hard_error (o : result HttpResponse) : Prop :=
  match o with
  | Raise e => e ≠ TimeoutError
  | Ok _ => False
  end.

(** No recorded request time lies in the future. *)
Definition timers_behind (w : World) : Prop :=
  ∀ d t, request_times w !! d = Some t → t <= clock w.

(** [c] keeps the relation [R] between the world it starts in and the
    world it ends in, whether it returns or raises. *)
Definition preserves (R : World → World → Prop) {A} (c : M A) : Prop :=
  ∀ w, R w (snd (c w)).

(** The table [scrape_logs] is left as it was. *)
Definition same_logs (w w' : World) : Prop := scrape_logs w' = scrape_logs w.

(** The table [jobs] is left as it was. *)
Definition same_jobs (w w' : World) : Prop := jobs_table w' = jobs_table w.

(** The clock has not run backwards. *)
Definition clock_le (w w' : World) : Prop := clock w <= clock w'.

(** Between [w] and [w'] the pool, if it satisfied its invariant, still
    does, has the same list of proxies, and no failed proxy has come back. *)
Definition pool_decays (w w' : World) : Prop :=
  pool_ok w →
  pool_ok w' ∧
  match proxy_manager w, proxy_manager w' with
  | Some pm, Some pm' =>
      proxies pm' = proxies pm ∧
      failed_proxies pm ⊆ failed_proxies pm' ∧
      active_proxies pm' ⊆ active_proxies pm
  | None, None => True
  | _, _ => False
  end.

(** The primary key and the unique column of the table [jobs]. *)
Definition unique_rows (rows : list Job) : Prop :=
  NoDup (map id_ rows) ∧ NoDup (map url rows).

(** What the session row of a scrape says. *)
Definition session_row_ok E (c : Company) (w : World) (jobs : list Job)
           (row : ScrapeLog) : Prop :=
  log_company row = name c ∧ log_url row = career_url c ∧
  (∃ started completed,
     log_started_at row = isoformat E started ∧
     log_completed_at row = isoformat E completed ∧
     clock w <= started ∧ 0 <= log_duration row ∧
     started + log_duration row <= completed) ∧
  ((log_status row = "success"%string ∧
    log_jobs_found row = Z.of_nat (length jobs) ∧ log_error_message row = None)
   ∨ (log_status row = "failed"%string ∧ log_jobs_found row = 0 ∧ jobs = [] ∧
      ∃ msg, log_error_message row = Some msg)).

(** What every extracted job looks like. *)
Definition job_ok E (c : Company) (job : Job) : Prop :=
  company job = name c ∧
  id_ job = job_id (hash_secret E) (name c) (title job) (location job) ∧
  (String.length (description job) <= 1000)%nat ∧
  employment_type job = None ∧ requirements job = None ∧ benefits job = None ∧
  (∃ posted scraped,
     posted_date job = isoformat E posted ∧
     scraped_at job = isoformat E scraped ∧ posted <= scraped) ∧
  ((salary_min job = None ∧ salary_max job = None)
   ∨ ∃ lo hi, salary_min job = Some lo ∧ salary_max job = Some hi
              ∧ 0 <= lo ∧ 0 <= hi).

(** The body of the loop over the containers. *)
Definition extract_step E (c : Company) (jobs : list Job) (container : element)
  : M (list Job) :=
  (r <~ try_ (extract_one E container c) ;
   ret (match r with
        | Ok job => jobs ++ [job]
        | Raise _ => jobs
        end))%M.

(** The count of database transactions is left as it was. *)
Definition same_n_db (w w' : World) : Prop := n_db w' = n_db w.

(** [s.startswith(p)] *)
Fixpoint startswith (p s : string) : bool :=
  match p, s with
  | EmptyString, _ => true
  | String a p', String b s' => Ascii.eqb a b && startswith p' s'
  | String _ _, EmptyString => false
  end.

(** [needle in hay] for strings. *)
Fixpoint str_in (needle hay : string) : bool :=
  startswith needle hay
  || match hay with
     | EmptyString => false
     | String _ hay' => str_in needle hay'
     end.

(** [DatabaseIntegrator.extract_skills] (src/scraper/integration.py) *)
Definition common_skills : list string :=
  [ "JavaScript"; "TypeScript"; "Python"; "Java"; "React"; "Node.js";
    "AWS"; "Docker"; "Kubernetes"; "SQL"; "PostgreSQL"; "MongoDB";
    "Git"; "CI/CD"; "Agile"; "Scrum"; "REST"; "GraphQL"; "HTML";
    "CSS"; "Vue.js"; "Angular"; "C++"; "C#"; "Go"; "Rust";
    "Machine Learning"; "AI"; "Data Science"; "DevOps"; "Linux" ]%string.

(** [f"{description} {requirements}".lower()] *)
Definition skills_text (description requirements : string) : string :=
  PyStr.lower (description +:+ " " +:+ requirements).

(** The loop over the catalogue: the skills whose lower-cased name occurs
    in the text, in the order of the catalogue. *)
Definition found_skills (text : string) : list string :=
  filter (fun skill => str_in (PyStr.lower skill) text = true) common_skills.

(** [found_skills[:10] if found_skills else ['General']] *)
Definition extract_skills (description requirements : string) : list string :=
  let text := skills_text description requirements in
  match found_skills text with
  | [] => ["General"%string]
  | found => take 10 found
  end.

(** A site whose page "<garbled>" cannot be queried and whose second job card of
    three is malformed. *)
Definition markup_env : Env :=
  {| lag := fun _ => 0%N;
     draw := fun _ => 0%nat;
     http := page_ok;
     db_fault := no_fault;
     hash_secret := PyHash.secret_of_seed 0;
     netloc := fun u => Ok u;
     urljoin := fun base href => base +:+ href;
     isoformat := PyStr.str_of_Z;
     schedule := [];
     bs_parse := parses;
     bs_select := fun soup _ =>
       if String.eqb soup "<garbled>"
       then Raise (OtherError "Invalid selector")
       else Ok ["<div class=job>"; "<broken>"; "<div class=job>"]%string;
     bs_select_one := fun container _ =>
       if String.eqb container "<broken>"
       then Raise (OtherError "Invalid selector")
       else Ok None;
     bs_get_text := fun e => e;
     bs_href := fun _ => "/jobs/1"%string |}.

Definition spent_pool : ProxyManager := mkPool [one_proxy] ∅ {[0]} 0 0 300000.

Definition engineer : Job :=
  mkJob "acme_1111" "Engineer" "Acme Corp" "Berlin" "" "http://acme/jobs/1"
        "2024-03-01T09:00:00" None None None None None "2024-03-01T09:00:00".

(** A posting whose amount is [2 ** 63], one more than SQLite stores. *)
Definition overpaid : Job :=
  mkJob "acme_3333" "Chief Engineer" "Acme Corp" "Berlin" "" "http://acme/jobs/3"
        "2024-03-01T09:00:00" (Some (2 ^ 63)) (Some (2 ^ 63)) None None None
        "2024-03-01T09:00:00".

Definition engineer_reposted : Job :=
  mkJob "acme_2222" "Senior Engineer" "Acme Corp" "Berlin" "" "http://acme/jobs/1"
        "2024-03-02T09:00:00" (Some 90000) (Some 90000) None None None
        "2024-03-02T09:00:00".

(** Every step of the task [c] keeps the relation [R] between the world
    before it and the world after it. *)
Fixpoint all_steps (R : World → World → Prop) {A} (c : Co A) : Prop :=
  match c with
  | Fin _ => True
  | Act step k => ∀ w, R w (step w) ∧ all_steps R (k w)
  | Yield _ k => all_steps R k
  end.

(** Between [w] and [w'] one session row was appended, for the target
    [n]. *)
Definition logs_row (n : string) (w w' : World) : Prop :=
  ∃ row, scrape_logs w' = scrape_logs w ++ [row] ∧ log_company row = n.

(** The task [c] has not logged yet: on every path one of its steps
    appends one session row for [n], and no other step touches the table
    [scrape_logs]. *)
Fixpoint owes (n : string) {A} (c : Co A) : Prop :=
  match c with
  | Fin _ => False
  | Act step k =>
      ∀ w, (same_logs w (step w) ∧ owes n (k w))
           ∨ (logs_row n w (step w) ∧ all_steps same_logs (k w))
  | Yield _ k => owes n k
  end.

(** A task of a [gather] that still owes the row of [Some n], or that
    has written its row or never had one ([None]). *)
Definition task_state {A} (c : Co A) (st : option string) : Prop :=
  match st with
  | Some n => owes n c
  | None => all_steps same_logs c
  end.

(* ===================================================================== *)
(** ** Known answers *)
(* ===================================================================== *)

(** The digests CPython 3.11 prints for PYTHONHASHSEED 0, 1 and 42. *)
Example hash_known_answers :
  PyHash.hash (PyHash.secret_of_seed 0) "a" = 4644417185603328019
  ∧ PyHash.hash (PyHash.secret_of_seed 0) "EngineerNYC" = -3510682238498897082
  ∧ PyHash.hash (PyHash.secret_of_seed 1) "Software EngineerMountain View, CA"
    = -1907819133846251410
  ∧ PyHash.hash (PyHash.secret_of_seed 42) "12345678" = -8868897825882322955
  ∧ PyHash.hash (PyHash.secret_of_seed 42) "123456789abcdefgh" = -143042412562219567
  ∧ PyHash.hash (PyHash.secret_of_seed 42) "" = 0.
Proof. repeat split; vm_compute; reflexivity. Qed.

(** The groups [re.search] returns on a few texts. *)
Example search_known_answers :
  Re.search Salary.range_with_symbol "pay $80,000 - 90,000 K"
  = Some [Some "80"; Some "000"; Some "90"; Some "000"]%string
  ∧ Re.search Salary.single_amount "$120" = Some [Some "12"; Some "0"]%string
  ∧ Re.search Salary.range_with_symbol "100-150k" = None
  ∧ Re.search Salary.bare_range_k "100-150k"
    = Some [Some "100"; None; Some "150"; None]%string.
Proof. repeat split; vm_compute; reflexivity. Qed.


(* ===================================================================== *)
(** ** The proxy pool *)
(* ===================================================================== *)

Lemma getitem_in_range {A} (xs : list A) (i : Z) (w : World) :
  0 <= i < Z.of_nat (length xs) →
  ∃ x, xs !! Z.to_nat i = Some x ∧ getitem xs i w = (Ok x, w).
Proof.
  intros Hi. unfold getitem.
  destruct (Z.ltb_spec i 0); [lia|].
  destruct (Z.leb_spec 0 i); [|lia].
  destruct (Z.ltb_spec i (Z.of_nat (length xs))); [|lia]. simpl.
  destruct (lookup_lt_is_Some_2 xs (Z.to_nat i)) as [x Hx]; [lia|].
  exists x. rewrite Hx. done.
Qed.

Lemma time_time_run E w :
  time_time E w =
  (Ok (clock w + 0 + Z.of_N (lag E (n_clock w))),
   set_time (clock w + 0 + Z.of_N (lag E (n_clock w))) (S (n_clock w)) w).
Proof. reflexivity. Qed.

Lemma sleep_run E who d w :
  sleep E who d w =
  (Ok tt,
   set_time (clock w + Z.max 0 d + Z.of_N (lag E (n_clock w))) (S (n_clock w))
            (emit (EvSleep who d) w)).
Proof. reflexivity. Qed.

Lemma get_next_proxy_spec E w pm :
  proxy_manager w = Some pm → pool_inv pm →
  ∃ r w' pm',
    get_next_proxy E w = (r, w') ∧
    proxy_manager w' = Some pm' ∧
    proxies pm' = proxies pm ∧
    active_proxies pm' = active_proxies pm ∧
    failed_proxies pm' = failed_proxies pm ∧
    request_times w' = request_times w ∧
    trace w' = trace w ∧ n_http w' = n_http w ∧
    (active_proxies pm = ∅ → r = Ok None ∧ w' = w) ∧
    (active_proxies pm ≠ ∅ →
     ∃ cfg, r = Ok (Some cfg) ∧ current_proxy pm' ∈ active_proxies pm ∧
            proxies pm !! Z.to_nat (current_proxy pm') = Some cfg).
Proof.
  intros Hpm [Hdisj Hrange].
  unfold get_next_proxy. unfold the_pool at 1. unfold bind at 1, get_world at 1.
  unfold bind at 1. rewrite Hpm. unfold ret at 1.
  case_bool_decide as Hact.
  { exists (Ok None), w, pm. unfold ret. repeat split; try done. }
  unfold bind at 1.
  unfold time_time at 1. unfold_m. cbn.
  set (now := clock w + 0 + Z.of_N (lag E (n_clock w))).
  destruct ((now - last_rotation pm >? rotation_interval pm)
            || negb (bool_decide (current_proxy pm ∈ active_proxies pm))) eqn:Hrot.
  - assert (Hel : elements (active_proxies pm) ≠ []).
    { intros Hnil. apply Hact. apply elements_empty_inv in Hnil.
      by apply leibniz_equiv. }
    destruct (lookup_lt_is_Some_2 (elements (active_proxies pm))
                (draw E (n_draw w) mod length (elements (active_proxies pm)))%nat) as [c Hc].
    { apply Nat.mod_upper_bound. destruct (elements (active_proxies pm)); simpl; [done|lia]. }
    cbn. rewrite Hc. cbn.
    assert (Hin : c ∈ active_proxies pm).
    { apply elem_of_elements. eapply list_elem_of_lookup_2; eauto. }
    assert (Hr : 0 <= c < Z.of_nat (length (proxies pm))) by (apply Hrange; auto).
    match goal with |- context [getitem ?xs ?i ?w0] =>
      destruct (getitem_in_range xs i w0 Hr) as [cfg [Hcfg Hget]] end.
    rewrite Hget. eexists _, _, _. split; [reflexivity|]. cbn.
    repeat split; try done. intros _. exists cfg. done.
  - apply orb_false_elim in Hrot as [_ Hcur].
    apply negb_false_iff, bool_decide_eq_true in Hcur.
    cbn. rewrite Hpm.
    assert (Hr : 0 <= current_proxy pm < Z.of_nat (length (proxies pm))) by (apply Hrange; auto).
    match goal with |- context [getitem ?xs ?i ?w0] =>
      destruct (getitem_in_range xs i w0 Hr) as [cfg [Hcfg Hget]] end.
    rewrite Hget. eexists _, _, _. split; [reflexivity|]. cbn.
    repeat split; try done. intros _. exists cfg. done.
Qed.

Lemma new_pool_inv E ps w :
  ∃ pm, world_pool ps (snd (new_pool E ps w)) pm.
Proof.
  unfold new_pool, ProxyManager_init. unfold_m. cbn.
  eexists. split; [reflexivity|]. split; [reflexivity|]. split; cbn.
  - intros j _ Hf. by apply not_elem_of_empty in Hf.
  - intros i. rewrite elem_of_list_to_set, elem_of_seqZ, elem_of_empty.
    split; [intros; left; lia | intros [?|[]]; lia].
Qed.

Lemma mark_proxy_failed_spec i w pm :
  proxy_manager w = Some pm → pool_inv pm →
  ∃ w' pm',
    mark_proxy_failed i w = (Ok tt, w') ∧
    proxy_manager w' = Some pm' ∧ proxies pm' = proxies pm ∧ pool_inv pm' ∧
    active_proxies pm' = active_proxies pm ∖ {[i]} ∧
    (i ∈ active_proxies pm → failed_proxies pm' = failed_proxies pm ∪ {[i]}) ∧
    (i ∉ active_proxies pm → pm' = pm ∧ w' = w) ∧
    current_proxy pm' = current_proxy pm.
Proof.
  intros Hpm Hinv. unfold mark_proxy_failed. unfold_m. rewrite Hpm.
  case_bool_decide as Hin.
  - eexists _, _. split; [reflexivity|]. cbn. split; [reflexivity|].
    split; [reflexivity|]. split; [|split; [done|split; [done|split; [done|done]]]].
    destruct Hinv as [Hdisj Hrange]. split; cbn.
    + intros j Ha Hf. apply elem_of_difference in Ha as [Ha Hne].
      apply elem_of_union in Hf as [Hf|Hf]; [by apply (Hdisj j)|done].
    + intros j. rewrite Hrange, elem_of_difference, elem_of_union, elem_of_singleton.
      destruct (decide (j = i)) as [->|]; tauto.
  - exists w, pm. split; [done|]. split; [done|]. split; [done|]. split; [done|].
    split; [|split; [done|split; [done|done]]].
    apply leibniz_equiv. intros j.
    rewrite elem_of_difference, elem_of_singleton. split; [|tauto].
    intros Hj. split; [done|]. by intros ->.
Qed.

Lemma reset_failed_proxies_spec w pm :
  proxy_manager w = Some pm → pool_inv pm →
  ∃ w' pm',
    reset_failed_proxies w = (Ok tt, w') ∧
    proxy_manager w' = Some pm' ∧ proxies pm' = proxies pm ∧ pool_inv pm' ∧
    active_proxies pm' = active_proxies pm ∪ failed_proxies pm ∧
    failed_proxies pm' = ∅.
Proof.
  intros Hpm [Hdisj Hrange]. unfold reset_failed_proxies. unfold_m. rewrite Hpm.
  eexists _, _. split; [reflexivity|]. cbn. split; [reflexivity|].
  split; [reflexivity|]. split; [|done].
  split; cbn.
  - intros j _ Hf. by apply not_elem_of_empty in Hf.
  - intros j. rewrite Hrange, elem_of_union. split; [tauto|].
    intros [Hj|Hj]; [done|]. by apply not_elem_of_empty in Hj.
Qed.

Lemma run_op_inv E ps op w pm :
  world_pool ps w pm →
  ∃ pm', world_pool ps (snd (run_op E op w)) pm' ∧
         (op ≠ OpReset → active_proxies pm' ⊆ active_proxies pm).
Proof.
  intros (Hpm & Hps & Hinv). destruct op as [|i|]; cbn [run_op].
  - destruct (get_next_proxy_spec E w pm Hpm Hinv)
      as (r & w' & pm' & Hrun & Hpm' & Hps' & Ha & Hf & _).
    unfold bind. rewrite Hrun. exists pm'.
    assert (Hw : world_pool ps w' pm').
    { split; [done|]. split; [congruence|]. destruct Hinv as [H1 H2].
      split; [by rewrite Ha, Hf|]. intros j. by rewrite Hps', Ha, Hf. }
    destruct r; cbn; (split; [done|]); intros _; by rewrite Ha.
  - destruct (mark_proxy_failed_spec i w pm Hpm Hinv)
      as (w' & pm' & Hrun & Hpm' & Hps' & Hinv' & Ha & _).
    rewrite Hrun. exists pm'. cbn. split; [split; [done|split; [congruence|done]]|].
    intros _. rewrite Ha. intros j Hj. by apply elem_of_difference in Hj as [? _].
  - destruct (reset_failed_proxies_spec w pm Hpm Hinv)
      as (w' & pm' & Hrun & Hpm' & Hps' & Hinv' & _).
    rewrite Hrun. exists pm'. cbn. split; [split; [done|split; [congruence|done]]|].
    done.
Qed.

Lemma run_ops_cons E op ops w :
  snd (run_ops E (op :: ops) w) = snd (run_ops E ops (snd (run_op E op w))).
Proof.
  cbn [run_ops]. unfold bind, try_. by destruct (run_op E op w) as [r w'].
Qed.

Lemma run_ops_inv E ps ops w pm :
  world_pool ps w pm →
  ∃ pm', world_pool ps (snd (run_ops E ops w)) pm' ∧
         (OpReset ∉ ops → active_proxies pm' ⊆ active_proxies pm).
Proof.
  revert w pm. induction ops as [|op ops IH]; intros w pm Hw.
  - exists pm. cbn. done.
  - rewrite run_ops_cons.
    destruct (run_op_inv E ps op w pm Hw) as (pm1 & Hw1 & Hsub1).
    destruct (IH _ _ Hw1) as (pm2 & Hw2 & Hsub2).
    exists pm2. split; [done|]. intros Hno.
    rewrite not_elem_of_cons in Hno. destruct Hno as [Hne Hno].
    etrans; [by apply Hsub2|]. apply Hsub1. congruence.
Qed.

Lemma run_ops_app E ops1 ops2 w :
  snd (run_ops E (ops1 ++ ops2) w) = snd (run_ops E ops2 (snd (run_ops E ops1 w))).
Proof.
  revert w. induction ops1 as [|op ops1 IH]; intros w; [done|].
  rewrite <- app_comm_cons, !run_ops_cons. apply IH.
Qed.

Lemma pool0_inv : pool_inv pool0.
Proof.
  split; cbn.
  - intros j _ Hf. by apply not_elem_of_empty in Hf.
  - intros j. rewrite elem_of_singleton, elem_of_empty. lia.
Defined.

(** C9.  After construction and any sequence of [get_next_proxy],
    [mark_proxy_failed] and [reset_failed_proxies] calls, the active and the
    failed set are disjoint, every configured index lies in exactly one of
    them, and they hold nothing but configured indices. *)
Theorem pool_sets_partition_indices E (ps : list ProxyConfig) (w0 : World) (ops : list pool_op) :
  ∃ pm, proxy_manager (snd (run_ops E ops (snd (new_pool E ps w0)))) = Some pm ∧
        proxies pm = ps ∧
        active_proxies pm ∩ failed_proxies pm = ∅ ∧
        (∀ i : Z, 0 <= i < Z.of_nat (length ps) →
                  (i ∈ active_proxies pm ∧ i ∉ failed_proxies pm)
                  ∨ ((i ∉ active_proxies pm) ∧ i ∈ failed_proxies pm)) ∧
        (∀ i : Z, i ∈ active_proxies pm ∪ failed_proxies pm →
                  0 <= i < Z.of_nat (length ps)).
Proof.
  destruct (new_pool_inv E ps w0) as (pm0 & Hw0).
  destruct (run_ops_inv E ps ops _ pm0 Hw0) as (pm & (Hpm & Hps & Hdisj & Hrange) & _).
  exists pm. split; [done|]. split; [done|]. rewrite Hps in Hrange.
  split; [by apply disjoint_intersection_L|]. split.
  - intros i Hi. apply Hrange in Hi as [Ha|Hf].
    + left. split; [done|]. intros Hf. exact (Hdisj i Ha Hf).
    + right. split; [|done]. intros Ha. exact (Hdisj i Ha Hf).
  - intros i Hi. apply Hrange. by apply elem_of_union.
Qed.

Lemma pool_sets_partition_indices_witness :
  let E := test_env always_timeout no_fault parses 0 in
  ∃ pm, proxy_manager
          (snd (run_ops E [OpNext; OpMarkFailed 0; OpNext; OpReset; OpMarkFailed 1]
                        (snd (new_pool E [one_proxy; one_proxy] empty_world))))
        = Some pm ∧
        ((0 ∈ active_proxies pm ∧ 0 ∉ failed_proxies pm)
         ∨ ((0 ∉ active_proxies pm) ∧ 0 ∈ failed_proxies pm)).
Proof.
  intros E.
  destruct (pool_sets_partition_indices E [one_proxy; one_proxy] empty_world
              [OpNext; OpMarkFailed 0; OpNext; OpReset; OpMarkFailed 1])
    as (pm & Hpm & _ & _ & Hone & _).
  exists pm. split; [exact Hpm|]. apply Hone. cbn. lia.
Defined.

(** C5.  Once [mark_proxy_failed i] has run, and as long as no
    [reset_failed_proxies] follows, every later [get_next_proxy] either
    returns [None] or returns [proxies[current_proxy]] for an active
    [current_proxy] different from [i]; and with an empty active set
    [get_next_proxy] returns [None] and changes nothing. *)
Theorem failed_proxy_never_selected E (ps : list ProxyConfig) (w0 : World)
        (ops1 ops2 : list pool_op) (i : Z) :
  (OpReset ∉ ops2 →
   let w := snd (run_ops E (ops1 ++ OpMarkFailed i :: ops2) (snd (new_pool E ps w0))) in
   ∃ r w' pm',
     get_next_proxy E w = (r, w') ∧ proxy_manager w' = Some pm' ∧
     (i ∉ active_proxies pm') ∧
     ((r = Ok None ∧ active_proxies pm' = ∅)
      ∨ (∃ cfg, r = Ok (Some cfg) ∧
                proxies pm' !! Z.to_nat (current_proxy pm') = Some cfg ∧
                current_proxy pm' ∈ active_proxies pm' ∧
                current_proxy pm' ≠ i)))
  ∧ (∀ w pm, proxy_manager w = Some pm → active_proxies pm = ∅ →
             get_next_proxy E w = (Ok None, w)).
Proof.
  split.
  - intros Hno w. subst w.
    rewrite run_ops_app, run_ops_cons.
    destruct (new_pool_inv E ps w0) as (pm0 & Hw0).
    destruct (run_ops_inv E ps ops1 _ pm0 Hw0) as (pm1 & Hw1 & _).
    set (w1 := snd (run_ops E ops1 (snd (new_pool E ps w0)))) in *.
    destruct Hw1 as (Hpm1 & Hps1 & Hinv1).
    destruct (mark_proxy_failed_spec i w1 pm1 Hpm1 Hinv1)
      as (w2 & pm2 & Hrun2 & Hpm2 & Hps2 & Hinv2 & Ha2 & _).
    cbn [run_op]. rewrite Hrun2. cbn [snd].
    destruct (run_ops_inv E ps ops2 w2 pm2) as (pm3 & (Hpm3 & Hps3 & Hinv3) & Hsub).
    { split; [done|]. split; [congruence|done]. }
    specialize (Hsub Hno).
    destruct (get_next_proxy_spec E _ pm3 Hpm3 Hinv3)
      as (r & w' & pm' & Hrun & Hpm' & Hps' & Ha & Hf & _ & _ & _ & Hempty & Hsome).
    exists r, w', pm'. split; [done|]. split; [done|].
    assert (Hni : i ∉ active_proxies pm3).
    { intros Hx. apply Hsub in Hx. rewrite Ha2 in Hx.
      apply elem_of_difference in Hx as [_ Hx]. apply Hx. by apply elem_of_singleton. }
    split; [by rewrite Ha|].
    destruct (decide (active_proxies pm3 = ∅)) as [He|Hne].
    + left. split; [by apply Hempty|]. by rewrite Ha.
    + right. destruct (Hsome Hne) as (cfg & -> & Hcur & Hcfg).
      exists cfg. split; [done|]. rewrite Hps', Ha. split; [done|].
      split; [done|]. intros Heq. apply Hni. by rewrite <- Heq.
  - intros w pm Hpm Hempty. unfold get_next_proxy. unfold_m. rewrite Hpm.
    rewrite bool_decide_eq_true_2; done.
Qed.

Lemma failed_proxy_never_selected_witness :
  let E := test_env always_timeout no_fault parses 0 in
  let w := snd (run_ops E ([] ++ OpMarkFailed 0 :: [OpNext])
                        (snd (new_pool E [one_proxy; one_proxy] empty_world))) in
  (∃ r w' pm',
     get_next_proxy E w = (r, w') ∧ proxy_manager w' = Some pm' ∧
     (0 ∉ active_proxies pm') ∧
     ((r = Ok None ∧ active_proxies pm' = ∅)
      ∨ (∃ cfg, r = Ok (Some cfg) ∧
                proxies pm' !! Z.to_nat (current_proxy pm') = Some cfg ∧
                current_proxy pm' ∈ active_proxies pm' ∧
                current_proxy pm' ≠ 0)))
  ∧ get_next_proxy E
      (set_proxy_manager (Some (mkPool [one_proxy] ∅ {[0]} 0 0 300000)) empty_world)
    = (Ok None,
       set_proxy_manager (Some (mkPool [one_proxy] ∅ {[0]} 0 0 300000)) empty_world).
Proof.
  intros E w. split.
  - apply (proj1 (failed_proxy_never_selected E [one_proxy; one_proxy] empty_world
                    [] [OpNext] 0)).
    intros Hin. apply elem_of_cons in Hin as [Hin|Hin]; [discriminate Hin|].
    by apply elem_of_nil in Hin.
  - apply (proj2 (failed_proxy_never_selected E [] empty_world [] [] 0)
             _ (mkPool [one_proxy] ∅ {[0]} 0 0 300000)); reflexivity.
Defined.


(* ===================================================================== *)
(** ** The rate limiter *)
(* ===================================================================== *)

(** C6.  [wait_if_needed] always returns.  When the domain has a recorded
    request less than [min_delay] before the call, it issues one sleep for
    the remainder and completes no earlier than [min_delay] after that
    request; otherwise it does not sleep.  In every case the domain's entry
    becomes the clock reading at completion, and the entries of all other
    domains are left as they were. *)
Theorem wait_if_needed_spec E (domain : string) (min_delay : Z) (w : World) :
  ∃ w',
    wait_if_needed E domain min_delay w = (Ok tt, w') ∧
    let now := clock w + 0 + Z.of_N (lag E (n_clock w)) in
    (∀ last, request_times w !! domain = Some last →
             now - last < min_delay →
             trace w' = trace w ++ [EvSleep RateLimit (min_delay - (now - last))] ∧
             last + min_delay <= clock w') ∧
    (∀ last, request_times w !! domain = Some last →
             min_delay <= now - last → trace w' = trace w) ∧
    (request_times w !! domain = None → trace w' = trace w) ∧
    request_times w' !! domain = Some (clock w') ∧
    clock w <= clock w' ∧
    (∀ other, other ≠ domain →
              request_times w' !! other = request_times w !! other).
Proof.
  unfold wait_if_needed. unfold bind at 1. rewrite time_time_run.
  unfold bind at 1, get_world at 1. unfold bind at 1. cbn [request_times set_time].
  set (now := clock w + 0 + Z.of_N (lag E (n_clock w))).
  destruct (request_times w !! domain) as [last|] eqn:Hlast.
  - destruct (Z.ltb_spec (now - last) min_delay) as [Hlt|Hge].
    + rewrite sleep_run. unfold bind at 1. rewrite time_time_run.
      unfold modify. eexists. split; [reflexivity|]. cbn.
      split; [|split; [|split; [done|split; [|split]]]].
      * intros last' [= <-] _. split; [done|]. lia.
      * intros last' [= <-] ?. lia.
      * by rewrite lookup_insert_eq.
      * lia.
      * intros other Hne. by rewrite lookup_insert_ne.
    + unfold ret at 1. unfold bind at 1. rewrite time_time_run.
      unfold modify. eexists. split; [reflexivity|]. cbn.
      split; [|split; [|split; [done|split; [|split]]]].
      * intros last' [= <-] ?. lia.
      * done.
      * by rewrite lookup_insert_eq.
      * lia.
      * intros other Hne. by rewrite lookup_insert_ne.
  - unfold ret at 1. unfold bind at 1. rewrite time_time_run.
    unfold modify. eexists. split; [reflexivity|]. cbn.
    split; [done|]. split; [done|]. split; [done|]. split; [|split].
    * by rewrite lookup_insert_eq.
    * lia.
    * intros other Hne. by rewrite lookup_insert_ne.
Qed.

Lemma wait_if_needed_spec_witness :
  let E := test_env page_ok no_fault parses 0 in
  let w := set_request_times {[ "acme.example"%string := 0 ]}
             (set_time 500 0 empty_world) in
  ∃ w', wait_if_needed E "acme.example" 2000 w = (Ok tt, w') ∧
        trace w' = [EvSleep RateLimit 1500] ∧ 2000 <= clock w' ∧
        request_times w' !! "acme.example"%string = Some (clock w') ∧
        request_times w' !! "other.example"%string = None.
Proof.
  intros E w.
  destruct (wait_if_needed_spec E "acme.example" 2000 w)
    as (w' & Hrun & Hwait & _ & _ & Hrec & _ & Hother).
  exists w'. split; [exact Hrun|].
  destruct (Hwait 0) as [Htr Hclk]; [reflexivity | cbn; lia |].
  split; [exact Htr|]. split; [exact Hclk|]. split; [exact Hrec|].
  rewrite Hother; [reflexivity | discriminate].
Defined.

Lemma wait_if_needed_frame E domain min_delay w :
  ∃ w' rl,
    wait_if_needed E domain min_delay w = (Ok tt, w') ∧
    trace w' = trace w ++ rl ∧ Forall is_rate_limit_sleep rl ∧
    proxy_manager w' = proxy_manager w ∧ n_http w' = n_http w.
Proof.
  unfold wait_if_needed. unfold bind at 1. rewrite time_time_run.
  unfold bind at 1, get_world at 1. unfold bind at 1. cbn [request_times set_time].
  destruct (request_times w !! domain) as [last|].
  - match goal with |- context [if ?b then _ else _] => destruct b end.
    + rewrite sleep_run. unfold bind at 1. rewrite time_time_run. unfold modify.
      eexists _, [_]. split; [reflexivity|]. cbn. split; [reflexivity|].
      split; [|done]. by repeat constructor.
    + unfold ret at 1. unfold bind at 1. rewrite time_time_run. unfold modify.
      eexists _, []. split; [reflexivity|]. cbn. rewrite app_nil_r. done.
  - unfold ret at 1. unfold bind at 1. rewrite time_time_run. unfold modify.
    eexists _, []. split; [reflexivity|]. cbn. rewrite app_nil_r. done.
Qed.


(* ===================================================================== *)
(** ** Fetching a page *)
(* ===================================================================== *)

Lemma append_nonempty (s : string) (c : ascii) (t : string) :
  PyStr.truthy (Some (s +:+ String c t)) = true.
Proof. by destruct s. Qed.

Lemma proxy_url_truthy cfg : PyStr.truthy (Some (proxy_url cfg)) = true.
Proof.
  unfold proxy_url.
  destruct (PyStr.truthy (username cfg) && PyStr.truthy (password cfg));
    apply append_nonempty.
Qed.

Lemma resolve_proxy_spec E w :
  pool_ok w →
  ∃ p w',
    resolve_proxy E w = (Ok p, w') ∧ pool_ok w' ∧
    trace w' = trace w ∧ n_http w' = n_http w ∧
    match proxy_manager w' with
    | None => p = None ∧ proxy_manager w = None
    | Some pm' =>
        (∃ pm, proxy_manager w = Some pm ∧
               active_proxies pm' = active_proxies pm ∧
               failed_proxies pm' = failed_proxies pm ∧
               proxies pm' = proxies pm) ∧
        ((p = None ∧ active_proxies pm' = ∅)
         ∨ (∃ cfg, p = Some (proxy_url cfg) ∧
                   proxies pm' !! Z.to_nat (current_proxy pm') = Some cfg ∧
                   current_proxy pm' ∈ active_proxies pm'))
    end.
Proof.
  intros Hok. unfold resolve_proxy. unfold bind at 1, get_world at 1.
  unfold pool_ok in Hok. destruct (proxy_manager w) as [pm|] eqn:Hpm.
  - destruct (get_next_proxy_spec E w pm Hpm Hok)
      as (r & w' & pm' & Hrun & Hpm' & Hps & Ha & Hf & _ & Htr & Hn & Hempty & Hsome).
    unfold bind. rewrite Hrun.
    assert (Hinv' : pool_inv pm').
    { destruct Hok as [H1 H2]. split; [by rewrite Ha, Hf|].
      intros j. by rewrite Hps, Ha, Hf. }
    destruct (decide (active_proxies pm = ∅)) as [He|Hne].
    + destruct (Hempty He) as [-> ->]. exists None, w. unfold ret.
      split; [done|]. unfold pool_ok. rewrite Hpm.
      split; [done|]. split; [done|]. split; [done|].
      split; [by exists pm|]. left. done.
    + destruct (Hsome Hne) as (cfg & -> & Hcur & Hcfg).
      exists (Some (proxy_url cfg)), w'. unfold ret. split; [done|].
      unfold pool_ok. rewrite Hpm'. split; [done|]. split; [done|].
      split; [done|]. split; [by exists pm|]. right. exists cfg.
      rewrite Hps, Ha. done.
  - exists None, w. unfold ret. split; [done|]. unfold pool_ok. rewrite Hpm. done.
Qed.

Lemma on_exception_pool_ok (proxy : option string) e w :
  pool_ok w →
  ∃ w', on_exception (Some proxy) e w = (Ok tt, w') ∧ pool_ok w' ∧
        trace w' = trace w ∧ n_http w' = n_http w.
Proof.
  intros Hok. unfold on_exception.
  assert (Hid : ∃ w', ret tt w = (Ok tt, w') ∧ pool_ok w' ∧
                      trace w' = trace w ∧ n_http w' = n_http w)
    by (exists w; done).
  assert (Hmark : ∃ w',
    (w0 <~ get_world ;
     match proxy_manager w0 with
     | Some pm =>
         if PyStr.truthy proxy then mark_proxy_failed (current_proxy pm)
         else ret tt
     | None => ret tt
     end)%M w = (Ok tt, w') ∧ pool_ok w' ∧
    trace w' = trace w ∧ n_http w' = n_http w).
  { unfold bind at 1, get_world at 1. unfold pool_ok in Hok.
    destruct (proxy_manager w) as [pm|] eqn:Hpm; [|done].
    destruct (PyStr.truthy proxy); [|done].
    destruct (mark_proxy_failed_spec (current_proxy pm) w pm Hpm Hok)
      as (w' & pm' & Hrun & Hpm' & _ & Hinv' & _).
    exists w'. split; [done|]. unfold pool_ok. rewrite Hpm'. split; [done|].
    revert Hrun. unfold mark_proxy_failed. unfold_m. rewrite Hpm.
    case_bool_decide; intros [= <-]; done. }
  destruct e; done.
Qed.


Lemma request_run E url proxy attempt w :
  ∃ w',
    request E url proxy attempt w =
      (match http E (n_http w) with
       | Ok r => Ok (attempt_result (http E (n_http w)))
       | Raise e => Raise e
       end, w') ∧
    trace w' = trace w ++ [EvGet (clock w) url proxy]
                 ++ attempt_sleep (http E (n_http w)) attempt ∧
    n_http w' = S (n_http w) ∧ proxy_manager w' = proxy_manager w.
Proof.
  unfold request, get_headers. unfold bind at 1. unfold bind at 1.
  unfold random_choice. unfold_m. cbn.
  destruct (user_agents !! _) as [ua|] eqn:Hua.
  2:{ apply lookup_ge_None in Hua. cbn in Hua.
      pose proof (Nat.mod_upper_bound (draw E (n_draw w)) 5). lia. }
  cbn. unfold session_get. unfold_m. cbn.
  destruct (http E (n_http w)) as [r|e]; cbn.
  - destruct (Z.eqb_spec (status r) 200).
    + eexists. split; [reflexivity|]. cbn. done.
    + destruct (Z.eqb_spec (status r) 429).
      * eexists. split; [reflexivity|]. cbn. rewrite <- app_assoc. done.
      * eexists. split; [reflexivity|]. cbn. done.
  - eexists. split; [reflexivity|]. cbn. done.
Qed.

Lemma request_raises E url proxy attempt w e :
  http E (n_http w) = Raise e →
  ∃ w', request E url proxy attempt w = (Raise e, w') ∧
        trace w' = trace w ++ [EvGet (clock w) url proxy] ∧
        proxy_manager w' = proxy_manager w.
Proof.
  intros He. destruct (request_run E url proxy attempt w) as (w' & Hrun & Htr & _ & Hpm).
  rewrite He in Hrun, Htr. cbn in Htr. exists w'. done.
Qed.

Lemma fetch_attempt_spec E url attempt (proxy : local_proxy) w d :
  pool_ok w → netloc E url = Ok d →
  ∃ w' rl t p,
    fetch_attempt E url attempt proxy w
    = (Ok (attempt_result (http E (n_http w)), Some p), w') ∧
    pool_ok w' ∧ n_http w' = S (n_http w) ∧
    Forall is_rate_limit_sleep rl ∧
    trace w' = trace w ++ rl ++ [EvGet t url p]
                 ++ attempt_sleep (http E (n_http w)) attempt.
Proof.
  intros Hok Hnet. unfold fetch_attempt. rewrite Hnet.
  unfold bind at 1. unfold try_ at 1.
  unfold bind at 1. cbn [lift_result]. unfold ret at 1.
  destruct (wait_if_needed_frame E d 2000 w)
    as (w1 & rl & Hrun1 & Htr1 & Hrl & Hpm1 & Hn1).
  rewrite Hrun1.
  assert (Hok1 : pool_ok w1) by (unfold pool_ok in *; by rewrite Hpm1).
  destruct (resolve_proxy_spec E w1 Hok1) as (p & w2 & Hrun2 & Hok2 & Htr2 & Hn2 & _).
  unfold bind at 1. unfold try_ at 1. rewrite Hrun2.
  unfold bind at 1. unfold try_ at 1.
  destruct (request_run E url p attempt w2) as (w3 & Hrun3 & Htr3 & Hn3 & Hpm3).
  rewrite Hrun3.
  assert (Hok3 : pool_ok w3) by (unfold pool_ok in *; by rewrite Hpm3).
  assert (Hnn : n_http w2 = n_http w) by congruence.
  rewrite Hnn in *.
  assert (Htr : trace w3 = trace w ++ rl ++ [EvGet (clock w2) url p]
                             ++ attempt_sleep (http E (n_http w)) attempt).
  { rewrite Htr3, Htr2, Htr1. by rewrite <- !app_assoc. }
  destruct (http E (n_http w)) as [r|e] eqn:Hhttp.
  - exists w3, rl, (clock w2), p. unfold ret. done.
  - destruct (on_exception_pool_ok p e w3 Hok3) as (w4 & Hrun4 & Hok4 & Htr4 & Hn4).
    unfold bind. rewrite Hrun4. exists w4, rl, (clock w2), p. unfold ret. cbn.
    split; [done|]. split; [done|]. split; [congruence|]. split; [done|].
    by rewrite Htr4, Htr.
Qed.








Lemma fetch_loop_cons E url a rest (proxy : local_proxy) w :
  fetch_loop E url (a :: rest) proxy w =
  match fetch_attempt E url a proxy w with
  | (Ok (Some content, _), w1) => (Ok (Some content), w1)
  | (Ok (None, proxy'), w1) =>
      fetch_loop E url rest proxy'
        (if a <? max_retries - 1 then snd (sleep E Backoff (backoff_ms a) w1) else w1)
  | (Raise e, w1) => (Raise e, w1)
  end.
Proof.
  cbn [fetch_loop]. unfold bind at 1.
  destruct (fetch_attempt E url a proxy w) as [[[[c|] proxy']|e] w1]; try done.
  cbn [fst snd]. unfold bind. destruct (a <? max_retries - 1); done.
Qed.




(** *** The fetch as a task *)

Lemma run_among_bind {A B} (c : Co A) (f : A → Co B) others w :
  run_among (co_bind c f) others w =
  match run_among c others w with
  | (Ok a, w') => run_among (f a) others w'
  | (Raise e, w') => (Raise e, w')
  end.
Proof.
  revert w. induction c as [[a|e]|step k IH|why k IH]; intros w; cbn; auto.
Qed.

Lemma run_among_try {A} (c : Co A) others w :
  run_among (co_try c) others w =
  (Ok (fst (run_among c others w)), snd (run_among c others w)).
Proof.
  revert w. induction c as [r|step k IH|why k IH]; intros w; cbn; auto.
Qed.

Lemma run_among_atomic {A} (c : M A) others w :
  run_among (atomic c) others w = c w.
Proof. cbn. by destruct (c w). Qed.


Lemma task_sleep_run E who d others w :
  (∀ w0, others (Sleeping who) w0 = w0) →
  run_among (Task.sleep E who d) others w = sleep E who d w.
Proof.
  intros Hq. unfold Task.sleep.
  rewrite run_among_bind, run_among_atomic. unfold_m. cbn.
  rewrite Hq. cbn. do 2 f_equal. lia.
Qed.

Lemma task_wait_if_needed_run E domain min_delay others w :
  (∀ who w0, others (Sleeping who) w0 = w0) →
  run_among (Task.wait_if_needed E domain min_delay) others w
  = wait_if_needed E domain min_delay w.
Proof.
  intros Hq. unfold Task.wait_if_needed, wait_if_needed.
  rewrite run_among_bind, run_among_atomic.
  unfold bind at 1. unfold bind at 3. rewrite time_time_run.
  unfold bind at 1, get_world at 1, ret at 1.
  unfold bind at 2, get_world at 1. unfold bind at 2.
  cbn [request_times set_time].
  rewrite run_among_bind.
  destruct (request_times w !! domain) as [last|].
  - match goal with |- context [if ?b then _ else _] => destruct b end.
    + rewrite task_sleep_run by apply Hq.
      destruct (sleep E RateLimit _ _) as [[[]|x] w1]; [|done].
      by rewrite run_among_atomic.
    + cbn [run_among]. unfold ret at 1. by rewrite run_among_atomic.
  - cbn [run_among]. unfold ret at 1. by rewrite run_among_atomic.
Qed.

Lemma task_session_get_alone E url headers proxy w :
  run_alone (Task.session_get E url headers proxy) w
  = session_get E url headers proxy w.
Proof.
  unfold run_alone, Task.session_get, session_get. unfold_m. cbn.
  by destruct (http E (n_http w)).
Qed.

Lemma task_request_alone E url proxy attempt w :
  run_alone (Task.request E url proxy attempt) w = request E url proxy attempt w.
Proof.
  unfold run_alone, Task.request, request.
  rewrite run_among_bind, run_among_atomic. unfold bind at 1.
  destruct (get_headers E w) as [[headers|x] w1]; [|done].
  rewrite run_among_bind.
  change (run_among (Task.session_get E url headers proxy) (λ _ w0, w0) w1)
    with (run_alone (Task.session_get E url headers proxy) w1).
  rewrite task_session_get_alone.
  unfold bind at 1.
  destruct (session_get E url headers proxy w1) as [[response|x] w2]; [|done].
  destruct (status response =? 200); [done|].
  destruct (status response =? 429); [|done].
  rewrite run_among_bind, task_sleep_run by done.
  unfold bind. by destruct (sleep E Status429 _ w2) as [[[]|x] w3].
Qed.

Lemma task_fetch_attempt_alone E url attempt proxy w :
  run_alone (Task.fetch_attempt E url attempt proxy) w
  = fetch_attempt E url attempt proxy w.
Proof.
  unfold run_alone, Task.fetch_attempt, fetch_attempt.
  rewrite run_among_bind, run_among_try, run_among_bind, run_among_atomic.
  unfold bind at 1. unfold try_ at 1. unfold bind at 1.
  destruct (lift_result (netloc E url) w) as [[d|x] w0].
  - rewrite task_wait_if_needed_run by done.
    destruct (wait_if_needed E d 2000 w0) as [[[]|x] w1]; cbn [fst snd].
    + rewrite run_among_bind, run_among_try, run_among_atomic.
      unfold bind at 1. unfold try_ at 1.
      destruct (resolve_proxy E w1) as [[p|x] w2]; cbn [fst snd].
      * rewrite run_among_bind, run_among_try.
        change (run_among (Task.request E url p attempt) (λ _ w3, w3) w2)
          with (run_alone (Task.request E url p attempt) w2).
        rewrite task_request_alone.
        unfold bind at 1. unfold try_ at 1.
        destruct (request E url p attempt w2) as [[c|x] w3]; cbn [fst snd]; [done|].
        rewrite run_among_bind, run_among_atomic. unfold bind.
        by destruct (on_exception (Some p) x w3) as [[[]|y] w4].
      * rewrite run_among_bind, run_among_atomic. unfold bind.
        by destruct (on_exception (Some None) x w2) as [[[]|y] w4].
    + rewrite run_among_bind, run_among_atomic. unfold bind.
      by destruct (on_exception proxy x w1) as [[[]|y] w4].
  - cbn [fst snd]. rewrite run_among_bind, run_among_atomic. unfold bind.
    by destruct (on_exception proxy x w0) as [[[]|y] w4].
Qed.

Lemma task_fetch_loop_alone E url attempts proxy w :
  run_alone (Task.fetch_loop E url attempts proxy) w
  = fetch_loop E url attempts proxy w.
Proof.
  revert proxy w. induction attempts as [|a rest IH]; intros proxy w; [done|].
  cbn [Task.fetch_loop fetch_loop]. unfold run_alone.
  rewrite run_among_bind.
  change (run_among (Task.fetch_attempt E url a proxy) (λ _ w0, w0) w)
    with (run_alone (Task.fetch_attempt E url a proxy) w).
  rewrite task_fetch_attempt_alone. unfold bind at 1.
  destruct (fetch_attempt E url a proxy w) as [[[[c|] proxy']|x] w1];
    cbn [fst snd]; [done| |done].
  rewrite run_among_bind. unfold bind at 1.
  destruct (a <? max_retries - 1).
  - rewrite task_sleep_run by done.
    destruct (sleep E Backoff (backoff_ms a) w1) as [[[]|x] w2]; [|done].
    apply IH.
  - cbn [run_among]. unfold ret at 1. apply IH.
Qed.

Lemma task_fetch_page_alone E url company w :
  run_alone (Task.fetch_page E url company) w = fetch_page E url company w.
Proof. apply task_fetch_loop_alone. Qed.

Lemma bind_eq {A B} (c : M A) (k : A → M B) w :
  bind c k w = match c w with
               | (Ok a, w') => k a w'
               | (Raise e, w') => (Raise e, w')
               end.
Proof. reflexivity. Qed.

Lemma try_eq {A} (c : M A) w : try_ c w = (Ok (fst (c w)), snd (c w)).
Proof. unfold try_. by destruct (c w). Qed.

Lemma task_scrape_company_alone E c w :
  run_alone (Task.scrape_company E c) w = scrape_company E c w.
Proof.
  unfold run_alone, Task.scrape_company, Task.after_fetch, scrape_company.
  rewrite run_among_bind, run_among_atomic, bind_eq, time_time_run.
  rewrite run_among_bind, run_among_try.
  match goal with |- context [run_among (Task.fetch_page E ?u ?n) _ ?w0] =>
    change (run_among (Task.fetch_page E u n) (λ _ w1, w1) w0)
      with (run_alone (Task.fetch_page E u n) w0) end.
  rewrite task_fetch_page_alone, run_among_atomic.
  rewrite !bind_eq, !try_eq, !bind_eq.
  destruct (fetch_page E (career_url c) (name c) _) as [[html|x] w1];
    cbn [fst snd lift_result]; reflexivity.
Qed.

Lemma finish_all_tasks E (cs : list Company) w :
  finish_all (map (Task.scrape_company E) cs) w
  = gather (map (scrape_company E) cs) w.
Proof.
  revert w. induction cs as [|c cs IH]; intros w; [done|].
  cbn [map finish_all gather].
  rewrite !bind_eq, !try_eq, task_scrape_company_alone.
  destruct (scrape_company E c w) as [r w1]. cbn [fst snd].
  by rewrite !bind_eq, IH.
Qed.

Lemma task_scrape_all_alone E (cs : list Company) w :
  schedule E = [] →
  Task.scrape_all_companies E cs w = scrape_all_companies E cs w.
Proof.
  intros Hs. unfold Task.scrape_all_companies, scrape_all_companies, Task.gather.
  unfold bind. rewrite Hs. cbn [interleave fst snd].
  by rewrite finish_all_tasks.
Qed.









(** C8.  Changing [rate_limit] changes nothing in a scrape; a target
    configured with 5 seconds has its second request sent 2 seconds after
    the first. *)
Theorem fetch_ignores_company_rate_limit E (c : Company) (d : Z) (w : World) :
  scrape_company E (with_rate_limit d c) w = scrape_company E c w
  ∧ rate_limit acme = 5000
  ∧ trace (snd (fetch_page (test_env second_time_lucky no_fault parses 0)
                           (career_url acme) (name acme) empty_world))
    = [ EvGet 0 "http://acme/careers" None;
        EvSleep Backoff 1000;
        EvSleep RateLimit 1000;
        EvGet 2000 "http://acme/careers" None ].
Proof.
  split; [reflexivity|]. split; [reflexivity|]. vm_compute. reflexivity.
Qed.


(* ===================================================================== *)
(** ** The orchestrator *)
(* ===================================================================== *)

Lemma log_scrape_session_returns E company url status jobs_found msg s c d w :
  ∃ w', log_scrape_session E company url status jobs_found msg s c d w = (Ok tt, w').
Proof.
  unfold log_scrape_session, bind, try_, ret.
  destruct (sqlite_exec E _ _ w) as [r w']. by exists w'.
Qed.

Lemma save_job_returns E job w :
  ∃ b w', save_job E job w = (Ok b, w').
Proof.
  unfold save_job, bind, try_, ret.
  destruct (sqlite_exec E _ _ w) as [[u|e] w']; eauto.
Qed.

Lemma scrape_failed_returns E c start_time jobs e w :
  ∃ w', scrape_failed E c start_time jobs e w = (Ok jobs, w').
Proof.
  unfold scrape_failed, datetime_now. rewrite bind_eq, time_time_run.
  rewrite bind_eq, bind_eq, time_time_run. unfold ret at 1. rewrite bind_eq.
  match goal with |- context [log_scrape_session E ?a ?b ?c ?d ?e ?f ?g ?h ?w0] =>
    destruct (log_scrape_session_returns E a b c d e f g h w0) as [w' ->] end.
  by exists w'.
Qed.

Lemma save_all_returns E jobs acc w :
  ∃ n w',
    for_each jobs acc (fun saved_count job =>
      (saved <~ save_job E job ;
       ret (if saved : bool then saved_count + 1 else saved_count))%M) w
    = (Ok n, w').
Proof.
  revert acc w. induction jobs as [|job jobs IH]; intros acc w; cbn [for_each].
  - by exists acc, w.
  - unfold bind at 1. unfold bind at 1.
    destruct (save_job_returns E job w) as (b & w1 & ->). unfold ret at 1.
    apply IH.
Qed.

Lemma scrape_company_run E c w r w2 :
  (html <~ fetch_page E (career_url c) (name c) ;
   if PyStr.truthy html then extract_jobs_generic E (default EmptyString html) c
   else raise (OtherError "Failed to fetch career page"))%M (snd (time_time E w))
  = (r, w2) →
  ∃ w3, scrape_company E c w
        = (Ok (match r with Ok jobs => jobs | Raise _ => [] end), w3).
Proof.
  rewrite time_time_run. cbn [snd].
  intros Hrun. unfold scrape_company. unfold bind at 1.
  rewrite time_time_run. unfold bind at 1. unfold try_ at 1.
  rewrite Hrun.
  destruct r as [jobs|e].
  - unfold bind at 1. unfold try_ at 1. unfold bind at 1.
    destruct (save_all_returns E jobs 0 w2) as (n & w3 & ->).
    rewrite bind_eq, time_time_run. unfold datetime_now.
    rewrite bind_eq, bind_eq, time_time_run. unfold ret at 1.
    match goal with |- context [log_scrape_session E ?a ?b ?c ?d ?e ?f ?g ?h ?w0] =>
      destruct (log_scrape_session_returns E a b c d e f g h w0) as [w4 ->] end.
    by exists w4.
  - apply scrape_failed_returns.
Qed.

Lemma scrape_company_returns E c w :
  ∃ jobs w', scrape_company E c w = (Ok jobs, w').
Proof.
  pose proof (scrape_company_run E c w) as H.
  match type of H with ∀ r w2, ?m = _ → _ => destruct m as [r w2] eqn:Hm end.
  destruct (H r w2 eq_refl) as [w3 ->]. eauto.
Qed.

Lemma gather_scrape E cs w :
  ∃ rs w',
    gather (map (scrape_company E) cs) w = (Ok rs, w') ∧
    Forall2 (fun c r => ∃ jobs w0, r = Ok jobs ∧ fst (scrape_company E c w0) = Ok jobs)
            cs rs.
Proof.
  revert w. induction cs as [|c cs IH]; intros w; cbn [map gather].
  - exists [], w. split; [done|]. constructor.
  - unfold bind at 1. unfold try_ at 1.
    destruct (scrape_company_returns E c w) as (jobs & w1 & Hrun). rewrite Hrun.
    unfold bind at 1. destruct (IH w1) as (rs & w2 & -> & Hall).
    exists (Ok jobs :: rs), w2. split; [done|]. constructor; [|done].
    exists jobs, w. by rewrite Hrun.
Qed.

Lemma record_results_keys l (acc : gmap string (list Job)) n :
  is_Some (foldl record_result acc l !! n)
  ↔ is_Some (acc !! n) ∨ n ∈ map (fun cr => name (fst cr)) l.
Proof.
  revert acc. induction l as [|[c r] l IH]; intros acc; cbn [foldl map].
  - rewrite elem_of_nil. tauto.
  - rewrite IH, elem_of_cons. unfold record_result. cbn [fst snd].
    destruct r as [jobs|e]; rewrite lookup_insert_is_Some;
      destruct (decide (name c = n)); intuition (auto; congruence).
Qed.

Lemma record_results_lookup l (acc : gmap string (list Job)) n v :
  foldl record_result acc l !! n = Some v →
  acc !! n = Some v
  ∨ ∃ c r, (c, r) ∈ l ∧ name c = n
           ∧ v = match r with Ok jobs => jobs | Raise _ => [] end.
Proof.
  revert acc. induction l as [|[c r] l IH]; intros acc; cbn [foldl]; [by left|].
  intros H. apply IH in H as [H|(c' & r' & Hin & Hn & Hv)].
  - unfold record_result in H. cbn [fst snd] in H.
    destruct (decide (name c = n)) as [Heq|Hne].
    + right. exists c, r. split; [apply elem_of_cons; by left|]. split; [done|].
      destruct r; rewrite Heq, lookup_insert_eq in H; congruence.
    + left. destruct r; rewrite lookup_insert_ne in H; done.
  - right. exists c', r'. split; [apply elem_of_cons; by right|]. done.
Qed.

Lemma scrape_all_companies_run E cs w :
  ∃ rs w',
    scrape_all_companies E cs w = (Ok (foldl record_result ∅ (zip cs rs)), w') ∧
    Forall2 (fun c r => ∃ jobs w0, r = Ok jobs ∧ fst (scrape_company E c w0) = Ok jobs)
            cs rs.
Proof.
  unfold scrape_all_companies, bind.
  destruct (gather_scrape E cs w) as (rs & w' & -> & Hall).
  exists rs, w'. done.
Qed.

Lemma zip_related {A B} (R : A → B → Prop) (l : list A) (k : list B) :
  Forall2 R l k →
  map fst (zip l k) = l ∧ ∀ a b, (a, b) ∈ zip l k → a ∈ l ∧ R a b.
Proof.
  induction 1 as [|a b l k Hab _ [IH1 IH2]]; cbn.
  - split; [done|]. intros a b Hin. by apply elem_of_nil in Hin.
  - split; [by rewrite IH1|]. intros a' b' Hin.
    apply elem_of_cons in Hin as [[= -> ->]|Hin].
    + split; [apply elem_of_cons; by left|done].
    + destruct (IH2 _ _ Hin). split; [apply elem_of_cons; by right|done].
Qed.

(** C2, as amended.  [scrape_all_companies] returns a mapping, never an
    exception; its keys are the configured names and each value is what
    that target's task returned.  A task never raises; it returns the empty
    list when the fetch yields no page and when the parse or the container
    query raises; with a page fetched it returns the extracted jobs,
    whatever SQLite does. *)
Theorem scrape_all_total_mapping E (cs : list Company) (c : Company) (w : World) :
  (∃ results w',
     scrape_all_companies E cs w = (Ok results, w') ∧
     (∀ n, is_Some (results !! n) ↔ n ∈ map name cs) ∧
     (∀ n jobs, results !! n = Some jobs →
                ∃ c0 w0, c0 ∈ cs ∧ name c0 = n ∧
                         fst (scrape_company E c0 w0) = Ok jobs))
  ∧ (∃ jobs w', scrape_company E c w = (Ok jobs, w'))
  ∧ (∀ r w2,
       fetch_page E (career_url c) (name c) (snd (time_time E w)) = (r, w2) →
       match r with
       | Ok html => PyStr.truthy html = false
       | Raise _ => True
       end →
       fst (scrape_company E c w) = Ok [])
  ∧ (∀ html w2 e,
       fetch_page E (career_url c) (name c) (snd (time_time E w)) = (Ok (Some html), w2) →
       bs_parse E html = Raise e ∨
       (∃ soup, bs_parse E html = Ok soup ∧
                bs_select E soup (selector c "job_container" ".job, .position, .opening")
                = Raise e) →
       fst (scrape_company E c w) = Ok [])
  ∧ (∀ html w2 jobs w3,
       fetch_page E (career_url c) (name c) (snd (time_time E w)) = (Ok (Some html), w2) →
       PyStr.truthy (Some html) = true →
       extract_jobs_generic E html c w2 = (Ok jobs, w3) →
       fst (scrape_company E c w) = Ok jobs).
Proof.
  split; [|split; [|split; [|split]]].
  - destruct (scrape_all_companies_run E cs w) as (rs & w' & Hrun & Hall).
    exists (foldl record_result ∅ (zip cs rs)), w'. split; [done|]. split.
    + intros n. rewrite record_results_keys, lookup_empty.
      destruct (zip_related _ _ _ Hall) as [Hfst _].
      rewrite <- Hfst at 2. rewrite map_map.
      split; [intros [[? [=]]|?]; done|by right].
    + intros n jobs Hl. apply record_results_lookup in Hl as [Hl|(c0 & r & Hin & Hn & Hv)].
      { by rewrite lookup_empty in Hl. }
      destruct (zip_related _ _ _ Hall) as [_ Hrel].
      destruct (Hrel _ _ Hin) as (Hc0 & jobs' & w0 & -> & Hrun0).
      exists c0, w0. subst jobs. done.
  - apply scrape_company_returns.
  - intros r w2 Hfetch Hr.
    pose proof (scrape_company_run E c w) as H.
    match type of H with ∀ r w2, ?m = _ → _ => destruct m as [r' w2'] eqn:Hm end.
    destruct (H r' w2' eq_refl) as [w3 ->]. cbn [fst].
    unfold bind in Hm. rewrite Hfetch in Hm.
    destruct r as [html|e]; [|by injection Hm as <- <-].
    rewrite Hr in Hm. unfold raise in Hm. by injection Hm as <- <-.
  - intros html w2 e Hfetch Hparse.
    pose proof (scrape_company_run E c w) as H.
    match type of H with ∀ r w2, ?m = _ → _ => destruct m as [r' w2'] eqn:Hm end.
    destruct (H r' w2' eq_refl) as [w3 ->]. cbn [fst].
    unfold bind at 1 in Hm. rewrite Hfetch in Hm. cbn beta iota in Hm.
    destruct (PyStr.truthy (Some html)); [|by injection Hm as <- <-].
    cbn [default from_option] in Hm. unfold extract_jobs_generic in Hm.
    change (id html) with html in Hm.
    destruct Hparse as [Hp|(soup & Hp & Hs)]; rewrite Hp in Hm.
    + cbn in Hm. by injection Hm as <- <-.
    + unfold lift_result at 1 in Hm. unfold bind at 1 in Hm. unfold ret at 1 in Hm.
      rewrite Hs in Hm. cbn in Hm. by injection Hm as <- <-.
  - intros html w2 jobs w3 Hfetch Ht Hex.
    pose proof (scrape_company_run E c w) as H.
    match type of H with ∀ r w2, ?m = _ → _ => destruct m as [r' w2'] eqn:Hm end.
    destruct (H r' w2' eq_refl) as [w4 ->]. cbn [fst].
    unfold bind at 1 in Hm. rewrite Hfetch, Ht in Hm. cbn [default from_option] in Hm.
    change (id html) with html in Hm.
    rewrite Hex in Hm. by injection Hm as <- <-.
Qed.

Lemma scrape_all_total_mapping_witness :
  fst (scrape_company (test_env always_timeout no_fault parses 0) acme empty_world) = Ok []
  ∧ fst (scrape_company (test_env page_ok no_fault parse_error 0) acme empty_world) = Ok []
  ∧ ∃ job, fst (scrape_company (test_env page_ok disk_full parses 0) acme empty_world)
           = Ok [job].
Proof.
  split; [|split].
  - apply (proj1 (proj2 (proj2
      (scrape_all_total_mapping (test_env always_timeout no_fault parses 0)
                                [acme] acme empty_world)))
      (Ok None)
      (snd (fetch_page (test_env always_timeout no_fault parses 0)
                       (career_url acme) (name acme)
                       (snd (time_time (test_env always_timeout no_fault parses 0)
                                       empty_world))))).
    + vm_compute. reflexivity.
    + reflexivity.
  - apply (proj1 (proj2 (proj2 (proj2
      (scrape_all_total_mapping (test_env page_ok no_fault parse_error 0)
                                [acme] acme empty_world))))
      "<html>"%string
      (snd (fetch_page (test_env page_ok no_fault parse_error 0)
                       (career_url acme) (name acme)
                       (snd (time_time (test_env page_ok no_fault parse_error 0)
                                       empty_world))))
      (OtherError "parser error")).
    + vm_compute. reflexivity.
    + left. reflexivity.
  - eexists.
    apply (proj2 (proj2 (proj2 (proj2
      (scrape_all_total_mapping (test_env page_ok disk_full parses 0)
                                [acme] acme empty_world))))
      "<html>"%string
      (snd (fetch_page (test_env page_ok disk_full parses 0)
                       (career_url acme) (name acme)
                       (snd (time_time (test_env page_ok disk_full parses 0)
                                       empty_world))))
      _
      (snd (extract_jobs_generic (test_env page_ok disk_full parses 0) "<html>" acme
             (snd (fetch_page (test_env page_ok disk_full parses 0)
                       (career_url acme) (name acme)
                       (snd (time_time (test_env page_ok disk_full parses 0)
                                       empty_world))))))).
    + vm_compute. reflexivity.
    + reflexivity.
    + vm_compute. reflexivity.
Defined.

(** C2 as stated does not hold: with every SQLite transaction failing, a
    target whose page is fetched and parsed still gets its jobs in the
    mapping. *)
Lemma persistence_failure_keeps_jobs :
  ¬ (∀ E c w, (∀ k, db_fault E k = true) → fst (scrape_company E c w) = Ok []).
Proof.
  intros H.
  specialize (H (test_env page_ok disk_full parses 0) acme empty_world (fun _ => eq_refl)).
  vm_compute in H. discriminate H.
Qed.


(* ===================================================================== *)
(** ** Salary parsing *)
(* ===================================================================== *)

Lemma star_sound p s k gf :
  Re.star p s k = Some gf →
  ∃ pre s', s = pre +:+ s' ∧ all_chars p pre ∧ k s' = Some gf.
Proof.
  induction s as [|c s IH]; cbn [Re.star].
  - intros H. exists EmptyString, EmptyString. done.
  - destruct (p c) eqn:Hp.
    + destruct (Re.star p s k) as [g1|] eqn:Hs.
      * intros [= ->]. destruct (IH eq_refl) as (pre & s' & -> & Hall & Hk).
        exists (String c pre), s'. cbn. rewrite Hp. done.
      * intros H. exists EmptyString, (String c s). done.
    + intros H. exists EmptyString, (String c s). done.
Qed.

Lemma run_sound r : ∀ s g k gf,
  Re.run r s g k = Some gf →
  ∃ s' g', run_post r s g s' g' ∧ k s' g' = Some gf.
Proof.
  induction r as [|p|r1 IH1 r2 IH2|r1 IH1|p|i r1 IH1]; intros s g k gf; cbn [Re.run run_post].
  - intros H. by exists s, g.
  - destruct s as [|c s]; [done|]. destruct (p c) eqn:Hp; [|done].
    intros H. exists s, g. split; [|done]. by exists c.
  - intros H. apply IH1 in H as (sm & gm & H1 & H).
    apply IH2 in H as (s' & g' & H2 & H). exists s', g'. split; [|done].
    by exists sm, gm.
  - destruct (Re.run r1 s g k) as [g1|] eqn:Hr.
    + intros [= ->]. apply IH1 in Hr as (s' & g' & H1 & H).
      exists s', g'. split; [by left|done].
    + intros H. exists s, g. split; [by right|done].
  - intros H. apply star_sound in H as (pre & s' & -> & Hall & H).
    exists s', g. split; [|done]. split; [done|]. by exists pre.
  - intros H. apply IH1 in H as (s' & g0 & H1 & H).
    eexists s', _. split; [|exact H]. by exists g0.
Qed.

Lemma append_assoc (a b c : string) : (a +:+ b) +:+ c = a +:+ (b +:+ c).
Proof.
  induction a as [|x a IH]; [done|].
  change (String x ((a +:+ b) +:+ c) = String x (a +:+ (b +:+ c))). by rewrite IH.
Qed.

Lemma append_length (a b : string) :
  String.length (a +:+ b) = (String.length a + String.length b)%nat.
Proof.
  induction a as [|x a IH]; [done|].
  change (S (String.length (a +:+ b)) = S (String.length a + String.length b)).
  by rewrite IH.
Qed.

Lemma take_append (a b : string) : PyStr.take (String.length a) (a +:+ b) = a.
Proof.
  induction a as [|x a IH]; [by destruct b|].
  change (String x (PyStr.take (String.length a) (a +:+ b)) = String x a).
  by rewrite IH.
Qed.

Lemma consumed_append (mid rest : string) : Re.consumed (mid +:+ rest) rest = mid.
Proof.
  unfold Re.consumed. rewrite append_length.
  replace (String.length mid + String.length rest - String.length rest)%nat
    with (String.length mid) by lia.
  apply take_append.
Qed.

Lemma contains_char_append c (a b : string) :
  PyStr.contains_char c (a +:+ b)
  = PyStr.contains_char c a || PyStr.contains_char c b.
Proof.
  induction a as [|x a IH]; [done|].
  change (Ascii.eqb x c || PyStr.contains_char c (a +:+ b)
          = Ascii.eqb x c || PyStr.contains_char c a || PyStr.contains_char c b).
  rewrite IH. by rewrite orb_assoc.
Qed.

Lemma run_post_prefix r : ∀ s g s' g',
  run_post r s g s' g' → ∃ mid, s = mid +:+ s'.
Proof.
  induction r as [|p|r1 IH1 r2 IH2|r1 IH1|p|i r1 IH1]; intros s g s' g'; cbn [run_post].
  - intros [-> _]. by exists EmptyString.
  - intros (c & -> & _). by exists (String c EmptyString).
  - intros (sm & gm & H1 & H2).
    apply IH1 in H1 as [m1 ->]. apply IH2 in H2 as [m2 ->].
    exists (m1 +:+ m2). by rewrite append_assoc.
  - intros [H|[-> _]]; [by apply IH1 in H|by exists EmptyString].
  - intros (_ & pre & -> & _). by exists pre.
  - intros (g0 & H & _). by apply IH1 in H.
Qed.

Lemma run_post_length r : ∀ s g s' g',
  run_post r s g s' g' → length g' = length g.
Proof.
  induction r as [|p|r1 IH1 r2 IH2|r1 IH1|p|i r1 IH1]; intros s g s' g'; cbn [run_post].
  - by intros [_ ->].
  - by intros (c & _ & _ & ->).
  - intros (sm & gm & H1 & H2). apply IH1 in H1. apply IH2 in H2. congruence.
  - intros [H|[_ ->]]; [by apply IH1 in H|done].
  - by intros (-> & _).
  - intros (g0 & H & ->). apply IH1 in H. by rewrite length_insert.
Qed.

Lemma run_post_keeps r : ∀ s g s' g' i a,
  run_post r s g s' g' → g !! i = Some (Some a) →
  ∃ a', g' !! i = Some (Some a').
Proof.
  induction r as [|p|r1 IH1 r2 IH2|r1 IH1|p|j r1 IH1];
    intros s g s' g' i a; cbn [run_post].
  - intros [_ ->] H. eauto.
  - intros (c & _ & _ & ->) H. eauto.
  - intros (sm & gm & H1 & H2) H.
    destruct (IH1 _ _ _ _ _ _ H1 H) as [a1 Ha1]. eapply IH2; eauto.
  - intros [H1|[_ ->]] H; [eapply IH1|]; eauto.
  - intros (-> & _) H. eauto.
  - intros (g0 & H1 & ->) H. destruct (IH1 _ _ _ _ _ _ H1 H) as [a1 Ha1].
    destruct (decide (i = j)) as [->|Hne].
    + eexists. apply list_lookup_insert_eq. by eapply lookup_lt_Some.
    + exists a1. by rewrite list_lookup_insert_ne.
Qed.

Lemma run_post_must_set r : ∀ s g s' g' i,
  run_post r s g s' g' → must_set i r = true → (i < length g)%nat →
  ∃ a, g' !! i = Some (Some a).
Proof.
  induction r as [|p|r1 IH1 r2 IH2|r1 IH1|p|j r1 IH1];
    intros s g s' g' i; cbn [run_post must_set]; try done.
  - intros (sm & gm & H1 & H2) Hm Hi. apply orb_true_iff in Hm as [Hm|Hm].
    + destruct (IH1 _ _ _ _ _ H1 Hm Hi) as [a Ha]. eapply run_post_keeps; eauto.
    + eapply IH2; eauto. apply run_post_length in H1. lia.
  - intros (g0 & H1 & ->) Hm Hi. apply run_post_length in H1 as Hlen.
    destruct (Nat.eqb_spec i j) as [->|Hne].
    + eexists. apply list_lookup_insert_eq. lia.
    + cbn in Hm. destruct (IH1 _ _ _ _ _ H1 Hm Hi) as [a Ha].
      exists a. by rewrite list_lookup_insert_ne.
Qed.

Lemma run_post_digits r : ∀ s g s' g',
  run_post r s g s' g' → digit_grouped r → digit_slots g → digit_slots g'.
Proof.
  induction r as [|p|r1 IH1 r2 IH2|r1 IH1|p|j r1 IH1];
    intros s g s' g'; cbn [run_post digit_grouped].
  - by intros [_ ->].
  - by intros (c & _ & _ & ->).
  - intros (sm & gm & H1 & H2) [Hd1 Hd2] Hg. eapply IH2; eauto.
  - intros [H1|[_ ->]] Hd Hg; [eapply IH1; eauto|done].
  - by intros (-> & _).
  - intros (g0 & H1 & ->) -> Hg i a Hi.
    cbn in H1. destruct H1 as (sm & gm & (c & -> & Hc & ->) & -> & pre & -> & Hpre).
    destruct (decide (i = j)) as [->|Hne].
    + destruct (decide (j < length g)%nat) as [Hlt|Hge].
      * rewrite list_lookup_insert_eq in Hi by done. injection Hi as <-.
        change (String c (pre +:+ s')) with (String c pre +:+ s').
        rewrite consumed_append. split; [done|]. by split.
      * rewrite list_insert_ge in Hi by lia. by eapply Hg.
    + rewrite list_lookup_insert_ne in Hi by done. by eapply Hg.
Qed.

Lemma run_post_must_read r q : ∀ s g s' g',
  run_post r s g s' g' → must_read q r →
  ∃ mid c, s = mid +:+ s' ∧ PyStr.contains_char c mid = true ∧ q c = true.
Proof.
  induction r as [|p|r1 IH1 r2 IH2|r1 IH1|p|j r1 IH1];
    intros s g s' g'; cbn [run_post must_read]; try done.
  - intros (c & -> & Hc & _) ->. exists (String c EmptyString), c.
    split; [done|]. split; [|done]. cbn. by rewrite Ascii.eqb_refl.
  - intros (sm & gm & H1 & H2) [Hm|Hm].
    + destruct (IH1 _ _ _ _ H1 Hm) as (mid & c & -> & Hin & Hq).
      apply run_post_prefix in H2 as [m2 ->].
      exists (mid +:+ m2), c. rewrite append_assoc. split; [done|].
      split; [|done]. by rewrite contains_char_append, Hin.
    + destruct (IH2 _ _ _ _ H2 Hm) as (mid & c & -> & Hin & Hq).
      apply run_post_prefix in H1 as [m1 ->].
      exists (m1 +:+ mid), c. rewrite append_assoc. split; [done|].
      split; [|done]. rewrite contains_char_append, Hin. apply orb_true_r.
  - intros (g0 & H1 & _) Hm. eapply IH1; eauto.
Qed.

Lemma search_sound p s g :
  Re.search p s = Some g →
  ∃ pre suf suf',
    s = pre +:+ suf ∧
    run_post (Re.expr p) suf (replicate (Re.ngroups p) None) suf' g.
Proof.
  induction s as [|c s IH]; cbn [Re.search].
  - destruct (Re.match_at p EmptyString) as [g1|] eqn:Hm; [|done].
    intros [= ->]. apply run_sound in Hm as (s' & g' & Hp & [= ->]).
    exists EmptyString, EmptyString, s'. done.
  - destruct (Re.match_at p (String c s)) as [g1|] eqn:Hm.
    + intros [= ->]. apply run_sound in Hm as (s' & g' & Hp & [= ->]).
      exists EmptyString, (String c s), s'. done.
    + intros H. destruct (IH H) as (pre & suf & suf' & -> & Hp).
      exists (String c pre), suf, suf'. done.
Qed.

Lemma all_chars_append p (a b : string) :
  all_chars p a → all_chars p b → all_chars p (a +:+ b).
Proof.
  induction a as [|x a IH]; [done|]. intros [Hx Ha] Hb.
  change (p x = true ∧ all_chars p (a +:+ b)). split; [done|]. by apply IH.
Qed.

Lemma int_digits_ok (s : string) : ∀ acc,
  all_chars Re.digit s → 0 <= acc →
  ∃ n, PyStr.int_digits s acc = Some n ∧ 0 <= n.
Proof.
  induction s as [|c s IH]; intros acc Hall Hacc; cbn [PyStr.int_digits].
  - by exists acc.
  - destruct Hall as [Hc Hs]. change (PyStr.is_digit c = true) in Hc.
    rewrite Hc. apply IH; [done|].
    unfold PyStr.is_digit in Hc. apply andb_true_iff in Hc as [H1 H2].
    apply Z.leb_le in H1. lia.
Qed.

Lemma int_of_str_digits (a : string) :
  digits a →
  (∃ n, PyStr.int_of_str a = Some n ∧ 0 <= n) ∨ PyStr.int_of_str a = None.
Proof.
  intros [Hne Hall]. unfold PyStr.int_of_str.
  destruct a as [|c a]; [done|].
  destruct (PyStr.max_str_digits <? _); [by right|].
  left. by apply int_digits_ok.
Qed.

Lemma int_digits_chars (s : string) : ∀ acc n,
  PyStr.int_digits s acc = Some n → all_chars Re.digit s.
Proof.
  induction s as [|c s IH]; intros acc n; cbn [PyStr.int_digits all_chars]; [done|].
  destruct (PyStr.is_digit c) eqn:Hc; [|done]. intros H. split; [done|].
  by eapply IH.
Qed.

Lemma int_of_str_some (a : string) (n : Z) :
  PyStr.int_of_str a = Some n → digits a.
Proof.
  unfold PyStr.int_of_str. destruct a as [|c a]; [done|].
  destruct (PyStr.max_str_digits <? _); [done|]. intros H.
  split; [done|]. by eapply int_digits_chars.
Qed.

Lemma digits_append (a b : string) : digits a → digits b → digits (a +:+ b).
Proof.
  intros [Hne Ha] [_ Hb]. split; [by destruct a|]. by apply all_chars_append.
Qed.

Lemma append_empty_r (s : string) : s +:+ "" = s.
Proof.
  induction s as [|a s IH]; [done|].
  change (String a (s +:+ "") = String a s). by rewrite IH.
Qed.

Lemma int_of_groups_ok (g : list (option string)) (i j : nat) (a : string) :
  g !! i = Some (Some a) → (j < length g)%nat → digit_slots g →
  (∃ n, Salary.int_of_groups g i j = Ok n ∧ 0 <= n)
  ∨ Salary.int_of_groups g i j = Raise ValueError.
Proof.
  intros Hi Hj Hg. unfold Salary.int_of_groups.
  change (@lookup nat (option string) Re.groups _ i g) with (g !! i).
  change (@lookup nat (option string) Re.groups _ j g) with (g !! j).
  rewrite Hi. destruct (lookup_lt_is_Some_2 g j Hj) as [b Hb]. rewrite Hb.
  assert (Hd : digits (a +:+ default EmptyString b)).
  { destruct b as [b|]; cbn.
    - apply digits_append; eauto.
    - rewrite append_empty_r. eauto. }
  destruct (int_of_str_digits _ Hd) as [(n & -> & Hn)| ->]; [left|by right].
  by exists n.
Qed.

Lemma patterns_shape p :
  p ∈ Salary.patterns →
  digit_grouped (Re.expr p) ∧ must_set 0 (Re.expr p) = true ∧
  (2 <= Re.ngroups p)%nat ∧
  ((3 <= Re.ngroups p)%nat → Re.ngroups p = 4%nat ∧ must_set 2 (Re.expr p) = true) ∧
  (must_read Re.currency (Re.expr p) ∨ must_read Re.letter_k (Re.expr p)) ∧
  ((3 <= Re.ngroups p)%nat → must_read Re.dash (Re.expr p)).
Proof.
  unfold Salary.patterns. rewrite !elem_of_cons, elem_of_nil.
  intros [->|[->|[->|[]]]]; cbn; (split; [tauto|]); (split; [done|]);
    (split; [lia|]); (split; [intros; try lia; done|]); (split; [tauto|]);
    intros; try lia; tauto.
Qed.

Lemma search_groups p text g :
  p ∈ Salary.patterns → Re.search p text = Some g →
  length g = Re.ngroups p ∧ digit_slots g ∧
  (∃ a, g !! 0%nat = Some (Some a)) ∧
  ((3 <= Re.ngroups p)%nat → ∃ a, g !! 2%nat = Some (Some a)).
Proof.
  intros Hp Hs. destruct (patterns_shape p Hp) as (Hd & H0 & Hn & H2 & _).
  apply search_sound in Hs as (pre & suf & suf' & _ & Hpost).
  assert (Hlen : length g = Re.ngroups p).
  { apply run_post_length in Hpost. by rewrite Hpost, length_replicate. }
  split; [done|]. split.
  - eapply run_post_digits; eauto. intros i a Hi.
    apply lookup_replicate in Hi as [[=] _].
  - split.
    + eapply run_post_must_set; eauto. rewrite length_replicate. lia.
    + intros H3. destruct (H2 H3) as [_ Hm].
      eapply run_post_must_set; eauto. rewrite length_replicate. lia.
Qed.

Lemma salary_of_groups_ok p text g :
  p ∈ Salary.patterns → Re.search p text = Some g →
  (∃ lo hi, Salary.salary_of_groups g text = Ok (Some lo, Some hi)
            ∧ 0 <= lo ∧ 0 <= hi ∧ ((Re.ngroups p < 3)%nat → lo = hi))
  ∨ Salary.salary_of_groups g text = Raise ValueError.
Proof.
  intros Hp Hs. destruct (search_groups p text g Hp Hs) as (Hlen & Hd & [a0 H0] & H2).
  destruct (patterns_shape p Hp) as (_ & _ & Hn & H4 & _).
  unfold Salary.salary_of_groups.
  change (@length (option string) g) with (length g). rewrite Hlen.
  destruct (Nat.leb_spec 3 (Re.ngroups p)) as [H3|H3].
  - destruct (H2 H3) as [a2 Ha2]. destruct (H4 H3) as [Hfour _].
    destruct (int_of_groups_ok g 0 1 a0 H0) as [(lo & -> & Hlo)| ->];
      [lia|done| |by right].
    destruct (int_of_groups_ok g 2 3 a2 Ha2) as [(hi & -> & Hhi)| ->];
      [lia|done| |by right].
    left. destruct (Salary.has_k text); eexists _, _; (split; [reflexivity|]); lia.
  - destruct (int_of_groups_ok g 0 1 a0 H0) as [(lo & -> & Hlo)| ->];
      [lia|done| |by right].
    left. destruct (Salary.has_k text); eexists _, _; (split; [reflexivity|]);
      (split; [lia|]); (split; [lia|done]).
Qed.

Lemma try_patterns_total ps text :
  (∀ p, p ∈ ps → p ∈ Salary.patterns) →
  Salary.try_patterns ps text = Ok (None, None)
  ∨ ∃ p g lo hi,
      p ∈ ps ∧ Re.search p text = Some g ∧
      Salary.try_patterns ps text = Ok (Some lo, Some hi) ∧
      0 <= lo ∧ 0 <= hi ∧ ((Re.ngroups p < 3)%nat → lo = hi).
Proof.
  induction ps as [|p ps IH]; intros Hsub; cbn [Salary.try_patterns]; [by left|].
  assert (Hrest : ∀ q, q ∈ ps → q ∈ Salary.patterns)
    by (intros q Hq; apply Hsub, elem_of_cons; by right).
  assert (Hnext : Salary.try_patterns ps text = Ok (None, None)
    ∨ ∃ p0 g lo hi,
        p0 ∈ p :: ps ∧ Re.search p0 text = Some g ∧
        Salary.try_patterns ps text = Ok (Some lo, Some hi) ∧
        0 <= lo ∧ 0 <= hi ∧ ((Re.ngroups p0 < 3)%nat → lo = hi)).
  { destruct (IH Hrest) as [H|(q & g & lo & hi & Hq & H)]; [by left|].
    right. exists q, g, lo, hi. split; [apply elem_of_cons; by right|done]. }
  destruct (Re.search p text) as [g|] eqn:Hs; [|exact Hnext].
  destruct (salary_of_groups_ok p text g) as [(lo & hi & -> & Hlo & Hhi & Heq)| ->];
    [apply Hsub, elem_of_cons; by left|done| |exact Hnext].
  right. exists p, g, lo, hi. split; [apply elem_of_cons; by left|done].
Qed.

Lemma extract_salary_total (salary_text : string) :
  Salary.extract_salary salary_text = Ok (None, None)
  ∨ ∃ lo hi, Salary.extract_salary salary_text = Ok (Some lo, Some hi)
             ∧ 0 <= lo ∧ 0 <= hi.
Proof.
  unfold Salary.extract_salary. destruct salary_text as [|c s]; [by left|].
  destruct (try_patterns_total Salary.patterns (String c s))
    as [H|(p & g & lo & hi & _ & _ & H & Hlo & Hhi & _)]; [done|by left|].
  right. by exists lo, hi.
Qed.

Lemma search_needs_char p q text g :
  must_read q (Re.expr p) → Re.search p text = Some g →
  ∃ c, PyStr.contains_char c text = true ∧ q c = true.
Proof.
  intros Hm Hs. apply search_sound in Hs as (pre & suf & suf' & -> & Hpost).
  destruct (run_post_must_read _ _ _ _ _ _ Hpost Hm) as (mid & c & -> & Hin & Hq).
  exists c. split; [|done].
  rewrite !contains_char_append, Hin. by rewrite orb_true_r.
Qed.

Lemma try_patterns_none ps text :
  (∀ p, p ∈ ps → Re.search p text = None) →
  Salary.try_patterns ps text = Ok (None, None).
Proof.
  induction ps as [|p ps IH]; intros H; cbn [Salary.try_patterns]; [done|].
  rewrite (H p) by (apply elem_of_cons; by left).
  apply IH. intros q Hq. apply H. apply elem_of_cons. by right.
Qed.

Lemma try_patterns_some ps text lo hi :
  Salary.try_patterns ps text = Ok (Some lo, Some hi) →
  ∃ p g, p ∈ ps ∧ Re.search p text = Some g ∧
         Salary.salary_of_groups g text = Ok (Some lo, Some hi).
Proof.
  induction ps as [|p ps IH]; cbn [Salary.try_patterns]; [done|].
  destruct (Re.search p text) as [g|] eqn:Hs.
  - destruct (Salary.salary_of_groups g text) as [v|e] eqn:Hv.
    + intros [= ->]. exists p, g. split; [apply elem_of_cons; by left|]. by split.
    + destruct e; try done. intros H. destruct (IH H) as (q & g' & Hq & Hq').
      exists q, g'. split; [apply elem_of_cons; by right|exact Hq'].
  - intros H. destruct (IH H) as (q & g' & Hq & Hq').
    exists q, g'. split; [apply elem_of_cons; by right|exact Hq'].
Qed.

Lemma salary_of_groups_amounts g text lo hi :
  Salary.salary_of_groups g text = Ok (Some lo, Some hi) →
  ∃ a b, matched_amounts g = Some (a, b) ∧
         if Salary.has_k text then lo = a * 1000 ∧ hi = b * 1000
         else lo = a ∧ hi = b.
Proof.
  unfold Salary.salary_of_groups, matched_amounts.
  destruct (3 <=? length g)%nat.
  - destruct (Salary.int_of_groups g 0 1) as [a|]; [|done].
    destruct (Salary.int_of_groups g 2 3) as [b|]; [|done].
    destruct (Salary.has_k text); intros [= <- <-]; by exists a, b.
  - destruct (Salary.int_of_groups g 0 1) as [a|]; [|done].
    destruct (Salary.has_k text); intros [= <- <-]; by exists a, a.
Qed.

Lemma contains_lower_k c text :
  c = "k"%char ∨ c = "K"%char →
  PyStr.contains_char c text = true → Salary.has_k text = true.
Proof.
  intros Hc. unfold Salary.has_k.
  induction text as [|d text IH]; cbn; [done|].
  intros H. apply orb_true_iff in H as [H|H].
  - apply Ascii.eqb_eq in H. subst d. destruct Hc as [-> | ->]; done.
  - rewrite (IH H). apply orb_true_r.
Qed.

Lemma star_greedy p (a rest : string) k g :
  all_chars p a → starts_outside p rest → k rest = Some g →
  Re.star p (a +:+ rest) k = Some g.
Proof.
  intros Ha Hrest Hk. induction a as [|x a IH].
  - change ("" +:+ rest) with rest. destruct rest as [|c r]; [done|].
    cbn [Re.star]. cbn in Hrest. by rewrite Hrest.
  - destruct Ha as [Hx Ha]. change (String x a +:+ rest) with (String x (a +:+ rest)).
    cbn [Re.star]. rewrite Hx. by rewrite (IH Ha).
Qed.

Lemma starts_outside_append p q (sp rest : string) :
  all_chars q sp → (∀ c, q c = true → p c = false) → starts_outside p rest →
  starts_outside p (sp +:+ rest).
Proof.
  intros Hsp Hpq Hrest. destruct sp as [|c sp]; [done|].
  destruct Hsp as [Hc _]. cbn. by apply Hpq.
Qed.

Lemma run_seq r1 r2 s g k :
  Re.run (Re.Seq r1 r2) s g k = Re.run r1 s g (fun s' g' => Re.run r2 s' g' k).
Proof. reflexivity. Qed.

Lemma run_cls p c s g k :
  p c = true → Re.run (Re.Cls p) (String c s) g k = k s g.
Proof. intros H. cbn [Re.run]. by rewrite H. Qed.

Lemma run_opt_cls_skip p s g k :
  starts_outside p s → Re.run (Re.Opt (Re.Cls p)) s g k = k s g.
Proof. destruct s as [|c s]; [done|]. intros H. cbn in H. cbn [Re.run]. by rewrite H. Qed.

Lemma run_opt_cls_take p c s g k gf :
  p c = true → k s g = Some gf →
  Re.run (Re.Opt (Re.Cls p)) (String c s) g k = Some gf.
Proof. intros H Hk. cbn [Re.run]. by rewrite H, Hk. Qed.

Lemma run_opt_digits_skip i s g k :
  starts_outside Re.digit s →
  Re.run (Re.Opt (Re.Grp i (Re.plus Re.digit))) s g k = k s g.
Proof.
  destruct s as [|c s]; [done|]. intros H. cbn in H.
  cbn [Re.run Re.plus]. by rewrite H.
Qed.

(** A group of digits takes the whole run of digits in front of it when
    the rest of the pattern then succeeds. *)
Lemma run_digits i (a rest : string) g k gf :
  digits a → starts_outside Re.digit rest →
  k rest (<[i := Some a]> g) = Some gf →
  Re.run (Re.Grp i (Re.plus Re.digit)) (a +:+ rest) g k = Some gf.
Proof.
  intros [Hne Ha] Hrest Hk. destruct a as [|x a]; [done|]. destruct Ha as [Hx Ha].
  change (String x a +:+ rest) with (String x (a +:+ rest)).
  cbn [Re.run Re.plus]. rewrite Hx. apply star_greedy; [done|done|].
  change (String x (a +:+ rest)) with (String x a +:+ rest).
  by rewrite consumed_append.
Qed.

Lemma run_spaces (a rest : string) g k gf :
  all_chars Re.space a → starts_outside Re.space rest →
  k rest g = Some gf →
  Re.run (Re.Star Re.space) (a +:+ rest) g k = Some gf.
Proof. intros Ha Hrest Hk. cbn [Re.run]. by apply star_greedy. Qed.

Lemma class_facts (c : ascii) :
  (Re.currency c = true → Re.space c = false ∧ Re.digit c = false
                          ∧ Re.dash c = false ∧ Re.letter_k c = false)
  ∧ (Re.space c = true → Re.digit c = false ∧ Re.comma c = false
                         ∧ Re.currency c = false ∧ Re.letter_k c = false
                         ∧ Re.dash c = false)
  ∧ (Re.digit c = true → Re.currency c = false ∧ Re.dash c = false
                         ∧ Re.letter_k c = false ∧ Re.space c = false)
  ∧ (Re.comma c = true → Re.dash c = false ∧ Re.letter_k c = false)
  ∧ (Re.letter_k c = false → Ascii.eqb (PyStr.lower_char c) "k" = false).
Proof.
  destruct c as [[] [] [] [] [] [] [] []]; vm_compute; intuition congruence.
Qed.

Ltac outside :=
  first [ exact eq_refl | exact I
        | unfold starts_outside;
          match goal with
          | |- _ ?c = false => pose proof (class_facts c); tauto
          end ].

Lemma match_range_with_symbol (c c' : ascii) (a sp1 sp2 b : string) :
  Re.currency c = true → Re.currency c' = true → digits a → digits b →
  all_chars Re.space sp1 → all_chars Re.space sp2 →
  Re.match_at Salary.range_with_symbol
    (String c (a +:+ "k" +:+ sp1 +:+ "-" +:+ sp2 +:+ String c' (b +:+ "k")))
  = Some [Some a; None; Some b; None].
Proof.
  intros Hc Hc' Ha Hb H1 H2.
  unfold Re.match_at, Salary.range_with_symbol.
  cbn [Re.expr Re.ngroups Re.cat foldr replicate].
  rewrite run_seq, run_cls by done.
  change ("k" +:+ ?r) with (String "k" r).
  change ("-" +:+ ?r) with (String "-" r).
  rewrite run_seq. apply run_digits; [done|outside|].
  rewrite run_seq, run_opt_cls_skip by outside.
  rewrite run_seq, run_opt_digits_skip by outside.
  rewrite run_seq. apply run_opt_cls_take; [done|].
  rewrite run_seq. apply run_spaces; [done|outside|].
  rewrite run_seq, run_cls by done.
  rewrite run_seq. apply run_spaces; [done|outside|].
  rewrite run_seq. apply run_opt_cls_take; [done|].
  rewrite run_seq. apply run_digits; [done|outside|].
  rewrite run_seq, run_opt_cls_skip by outside.
  rewrite run_seq, run_opt_digits_skip by outside.
  rewrite run_seq. apply run_opt_cls_take; [done|].
  reflexivity.
Qed.

Lemma match_bare_range_k (a sp1 sp2 b sp3 : string) :
  digits a → digits b →
  all_chars Re.space sp1 → all_chars Re.space sp2 → all_chars Re.space sp3 →
  Re.match_at Salary.bare_range_k
    (a +:+ sp1 +:+ "-" +:+ sp2 +:+ b +:+ sp3 +:+ "k")
  = Some [Some a; None; Some b; None].
Proof.
  intros Ha Hb H1 H2 H3.
  assert (Hsd : ∀ c, Re.space c = true → Re.digit c = false)
    by (intros c Hc; pose proof (class_facts c); tauto).
  assert (Hsc : ∀ c, Re.space c = true → Re.comma c = false)
    by (intros c Hc; pose proof (class_facts c); tauto).
  unfold Re.match_at, Salary.bare_range_k.
  cbn [Re.expr Re.ngroups Re.cat foldr replicate].
  change ("-" +:+ ?r) with (String "-" r).
  rewrite run_seq. apply run_digits; [done| |].
  { apply (starts_outside_append _ Re.space); [done|done|outside]. }
  rewrite run_seq, run_opt_cls_skip
    by (apply (starts_outside_append _ Re.space); [done|done|outside]).
  rewrite run_seq, run_opt_digits_skip
    by (apply (starts_outside_append _ Re.space); [done|done|outside]).
  rewrite run_seq. apply run_spaces; [done|outside|].
  rewrite run_seq, run_cls by done.
  rewrite run_seq. apply run_spaces; [done| |].
  { destruct Hb as [Hne Hb]. destruct b as [|y b]; [done|]. destruct Hb as [Hy _].
    change (String y b +:+ ?r) with (String y (b +:+ r)). outside. }
  rewrite run_seq. apply run_digits; [done| |].
  { apply (starts_outside_append _ Re.space); [done|done|outside]. }
  rewrite run_seq, run_opt_cls_skip
    by (apply (starts_outside_append _ Re.space); [done|done|outside]).
  rewrite run_seq, run_opt_digits_skip
    by (apply (starts_outside_append _ Re.space); [done|done|outside]).
  rewrite run_seq. apply run_spaces; [done|outside|].
  rewrite run_seq, run_cls by done.
  reflexivity.
Qed.

Lemma match_single_amount (c : ascii) (a b : string) :
  Re.currency c = true → digits a → digits b →
  Re.match_at Salary.single_amount (String c (a +:+ "," +:+ b))
  = Some [Some a; Some b].
Proof.
  intros Hc Ha Hb.
  unfold Re.match_at, Salary.single_amount.
  cbn [Re.expr Re.ngroups Re.cat foldr replicate].
  rewrite run_seq, run_cls by done.
  change ("," +:+ ?r) with (String "," r).
  rewrite run_seq. apply run_digits; [done|outside|].
  rewrite run_seq. apply run_opt_cls_take; [done|].
  rewrite run_seq. rewrite <- (append_empty_r b) at 1.
  apply run_digits; [done|outside|]. reflexivity.
Qed.

Lemma search_here p s g : Re.match_at p s = Some g → Re.search p s = Some g.
Proof. intros H. destruct s; cbn [Re.search]; by rewrite H. Qed.

Lemma search_none_without p q text :
  must_read q (Re.expr p) →
  (∀ c, PyStr.contains_char c text = true → q c = false) →
  Re.search p text = None.
Proof.
  intros Hm Hno. destruct (Re.search p text) as [g|] eqn:Hs; [|done].
  destruct (search_needs_char p q text g Hm Hs) as (c & Hin & Hq).
  rewrite (Hno c Hin) in Hq. done.
Qed.

Lemma all_chars_contains p (a : string) c :
  all_chars p a → PyStr.contains_char c a = true → p c = true.
Proof.
  induction a as [|x a IH]; cbn [all_chars PyStr.contains_char]; [done|].
  intros [Hx Ha] H. apply orb_true_iff in H as [H|H]; [|by apply IH].
  apply Ascii.eqb_eq in H. by subst.
Qed.

Lemma contains_char_one (c x : ascii) :
  PyStr.contains_char c (String x EmptyString) = true → x = c.
Proof.
  cbn [PyStr.contains_char]. rewrite orb_false_r. apply Ascii.eqb_eq.
Qed.

Lemma has_k_without (text : string) :
  (∀ c, PyStr.contains_char c text = true → Re.letter_k c = false) →
  Salary.has_k text = false.
Proof.
  unfold Salary.has_k. induction text as [|x text IH]; intros H; [done|].
  cbn [PyStr.lower PyStr.contains_char].
  rewrite IH.
  - rewrite orb_false_r. apply (class_facts x). apply H. cbn.
    by rewrite Ascii.eqb_refl.
  - intros c Hc. apply H. cbn. rewrite Hc. apply orb_true_r.
Qed.

Lemma try_patterns_first (pre post : list Re.pattern) p text g v :
  (∀ q, q ∈ pre → Re.search q text = None) →
  Re.search p text = Some g → Salary.salary_of_groups g text = Ok v →
  Salary.try_patterns (pre ++ p :: post)%list text = Ok v.
Proof.
  intros Hpre Hs Hv. induction pre as [|q pre IH]; cbn [app Salary.try_patterns].
  - by rewrite Hs, Hv.
  - rewrite (Hpre q) by (apply elem_of_cons; by left).
    apply IH. intros q' Hq'. apply Hpre, elem_of_cons. by right.
Qed.

Lemma salary_of_groups_scaled g text a b :
  matched_amounts g = Some (a, b) →
  Salary.salary_of_groups g text
  = Ok (Some (a * if Salary.has_k text then 1000 else 1),
        Some (b * if Salary.has_k text then 1000 else 1)).
Proof.
  unfold Salary.salary_of_groups, matched_amounts.
  destruct (3 <=? length g)%nat.
  - destruct (Salary.int_of_groups g 0 1) as [x|]; [|done].
    destruct (Salary.int_of_groups g 2 3) as [y|]; [|done].
    intros [= <- <-]. destruct (Salary.has_k text); [done|].
    by rewrite !Z.mul_1_r.
  - destruct (Salary.int_of_groups g 0 1) as [x|]; [|done].
    intros [= <- <-]. destruct (Salary.has_k text); [done|].
    by rewrite !Z.mul_1_r.
Qed.

Lemma range_amounts (a b : string) (n m : Z) :
  PyStr.int_of_str a = Some n → PyStr.int_of_str b = Some m →
  matched_amounts [Some a; None; Some b; None] = Some (n, m).
Proof.
  intros Ha Hb. unfold matched_amounts, Salary.int_of_groups. cbn.
  by rewrite !append_empty_r, Ha, Hb.
Qed.

Lemma extract_first (pre post : list Re.pattern) p text g a b :
  text ≠ EmptyString →
  Salary.patterns = (pre ++ p :: post)%list →
  (∀ q, q ∈ pre → Re.search q text = None) →
  Re.search p text = Some g →
  matched_amounts g = Some (a, b) →
  Salary.extract_salary text
  = Ok (Some (a * if Salary.has_k text then 1000 else 1),
        Some (b * if Salary.has_k text then 1000 else 1)).
Proof.
  intros Hne Hps Hpre Hs Hm. unfold Salary.extract_salary.
  destruct text as [|c text]; [done|]. rewrite Hps.
  eapply try_patterns_first; eauto. by apply salary_of_groups_scaled.
Qed.

(** Membership of a character in a text put together from runs of one
    class and from single characters, settled part by part. *)
Ltac each_part H x :=
  pose proof (class_facts x);
  repeat (apply orb_true_iff in H as [H|H]);
  first
    [ discriminate H
    | apply Ascii.eqb_eq in H; subst x; first [tauto | by vm_compute]
    | apply (all_chars_contains Re.digit) in H; [tauto | by auto]
    | apply (all_chars_contains Re.space) in H; [tauto | by auto] ].

(** C3.  The four test vectors; a text on which no pattern matches gives
    [(None, None)]; when the text holds a [k] or [K], a result is the
    matched numbers times 1000.  The first pattern of the list that
    matches decides: its amounts come back, times 1000 when the text holds
    a [k] in either case and as they are otherwise.  In particular, for
    all amounts [a], [b] that [int] reads as [n], [m]: a range of the form
    symbol-a-k, hyphen, symbol-b-k gives [n] and [m] thousand, with any
    white space around the hyphen; a bare range a-b followed by k gives the
    same; and a symbol followed by an amount with one comma in it gives
    that amount twice. *)
Theorem extract_salary_vectors :
  Salary.extract_salary "$100k - $150k" = Ok (Some 100000, Some 150000)
  ∧ Salary.extract_salary "100-150k" = Ok (Some 100000, Some 150000)
  ∧ Salary.extract_salary "$120,000" = Ok (Some 120000, Some 120000)
  ∧ Salary.extract_salary "" = Ok (None, None)
  ∧ (∀ text, (∀ p, p ∈ Salary.patterns → Re.search p text = None) →
             Salary.extract_salary text = Ok (None, None))
  ∧ (∀ text lo hi,
       PyStr.contains_char "k" text = true ∨ PyStr.contains_char "K" text = true →
       Salary.extract_salary text = Ok (Some lo, Some hi) →
       ∃ p g a b, p ∈ Salary.patterns ∧ Re.search p text = Some g ∧
                  matched_amounts g = Some (a, b) ∧
                  lo = a * 1000 ∧ hi = b * 1000)
  ∧ (∀ text (pre post : list Re.pattern) p g a b,
       text ≠ EmptyString →
       Salary.patterns = (pre ++ p :: post)%list →
       (∀ q, q ∈ pre → Re.search q text = None) →
       Re.search p text = Some g →
       matched_amounts g = Some (a, b) →
       Salary.extract_salary text
       = Ok (Some (a * if Salary.has_k text then 1000 else 1),
             Some (b * if Salary.has_k text then 1000 else 1)))
  ∧ (∀ (c c' : ascii) (a sp1 sp2 b : string) (n m : Z),
       Re.currency c = true → Re.currency c' = true →
       all_chars Re.space sp1 → all_chars Re.space sp2 →
       PyStr.int_of_str a = Some n → PyStr.int_of_str b = Some m →
       Salary.extract_salary
         (String c (a +:+ "k" +:+ sp1 +:+ "-" +:+ sp2 +:+ String c' (b +:+ "k")))
       = Ok (Some (n * 1000), Some (m * 1000)))
  ∧ (∀ (a sp1 sp2 b sp3 : string) (n m : Z),
       all_chars Re.space sp1 → all_chars Re.space sp2 →
       all_chars Re.space sp3 →
       PyStr.int_of_str a = Some n → PyStr.int_of_str b = Some m →
       Salary.extract_salary (a +:+ sp1 +:+ "-" +:+ sp2 +:+ b +:+ sp3 +:+ "k")
       = Ok (Some (n * 1000), Some (m * 1000)))
  ∧ (∀ (c : ascii) (a b : string) (n : Z),
       Re.currency c = true → digits a → digits b →
       PyStr.int_of_str (a +:+ b) = Some n →
       Salary.extract_salary (String c (a +:+ "," +:+ b)) = Ok (Some n, Some n)).
Proof.
  split; [vm_compute; reflexivity|]. split; [vm_compute; reflexivity|].
  split; [vm_compute; reflexivity|]. split; [reflexivity|].
  split; [|split; [|split; [|split; [|split]]]].
  - intros text H. unfold Salary.extract_salary.
    destruct text; [done|]. by apply try_patterns_none.
  - intros text lo hi Hk Hrun.
    assert (Hhas : Salary.has_k text = true).
    { destruct Hk as [Hk|Hk];
        [apply (contains_lower_k "k") | apply (contains_lower_k "K")]; auto. }
    unfold Salary.extract_salary in Hrun. destruct text as [|c text]; [done|].
    apply try_patterns_some in Hrun as (p & g & Hp & Hs & Hv).
    apply salary_of_groups_amounts in Hv as (a & b & Hm & Hab).
    rewrite Hhas in Hab. exists p, g, a, b. tauto.
  - intros text pre post p g a b. apply extract_first.
  - intros c c' a sp1 sp2 b n m Hc Hc' H1 H2 Ha Hb.
    set (text := String c _).
    assert (Hk : Salary.has_k text = true).
    { apply (contains_lower_k "k"); [by left|]. unfold text.
      cbn [PyStr.contains_char]. rewrite !contains_char_append. cbn.
      by rewrite !orb_true_r. }
    rewrite (extract_first [] [Salary.bare_range_k; Salary.single_amount]
               Salary.range_with_symbol text [Some a; None; Some b; None] n m).
    + by rewrite Hk.
    + done.
    + reflexivity.
    + intros q Hq. by apply elem_of_nil in Hq.
    + apply search_here, match_range_with_symbol; eauto using int_of_str_some.
    + by apply range_amounts.
  - intros a sp1 sp2 b sp3 n m H1 H2 H3 Ha Hb.
    set (text := a +:+ _).
    pose proof (int_of_str_some a n Ha) as Hda.
    pose proof (int_of_str_some b m Hb) as Hdb.
    pose proof (proj2 Hda) as Hca. pose proof (proj2 Hdb) as Hcb.
    assert (Hk : Salary.has_k text = true).
    { apply (contains_lower_k "k"); [by left|]. unfold text.
      rewrite !contains_char_append. cbn. by rewrite !orb_true_r. }
    rewrite (extract_first [Salary.range_with_symbol] [Salary.single_amount]
               Salary.bare_range_k text [Some a; None; Some b; None] n m).
    + by rewrite Hk.
    + destruct Hda as [Hne _]. unfold text. by destruct a.
    + reflexivity.
    + intros q Hq. apply list_elem_of_singleton in Hq as ->.
      apply (search_none_without _ Re.currency); [by left|].
      intros x Hx. unfold text in Hx. rewrite !contains_char_append in Hx.
      each_part Hx x.
    + by apply search_here, match_bare_range_k.
    + by apply range_amounts.
  - intros c a b n Hc Hda Hdb Hn.
    pose proof (proj2 Hda) as Hca. pose proof (proj2 Hdb) as Hcb.
    set (text := String c _).
    assert (Hchars : ∀ x, PyStr.contains_char x text = true →
                          Re.dash x = false ∧ Re.letter_k x = false).
    { intros x Hx. unfold text in Hx. cbn [PyStr.contains_char] in Hx.
      rewrite !contains_char_append in Hx.
      each_part Hx x. }
    assert (Hk : Salary.has_k text = false).
    { apply has_k_without. intros x Hx. by apply Hchars. }
    rewrite (extract_first [Salary.range_with_symbol; Salary.bare_range_k] []
               Salary.single_amount text [Some a; Some b] n n).
    + rewrite Hk. by rewrite Z.mul_1_r.
    + done.
    + reflexivity.
    + intros q Hq. apply (search_none_without _ Re.dash).
      * apply elem_of_cons in Hq as [->|Hq].
        { cbn. tauto. }
        apply list_elem_of_singleton in Hq as ->. cbn. tauto.
      * intros x Hx. by apply Hchars.
    + by apply search_here, match_single_amount.
    + unfold matched_amounts, Salary.int_of_groups. cbn. by rewrite Hn.
Qed.

Lemma extract_salary_vectors_witness :
  (∃ p g a b, p ∈ Salary.patterns ∧ Re.search p "$5,000 per week" = Some g ∧
              matched_amounts g = Some (a, b) ∧
              5000000 = a * 1000 ∧ 5000000 = b * 1000)
  ∧ Salary.extract_salary
      (String PyStr.euro
         ("60" +:+ "k" +:+ "" +:+ "-" +:+ " " +:+ String PyStr.euro ("80" +:+ "k")))
    = Ok (Some (60 * 1000), Some (80 * 1000))
  ∧ Salary.extract_salary (String (PyStr.chr 163) ("1" +:+ "," +:+ "250"))
    = Ok (Some 1250, Some 1250).
Proof.
  destruct extract_salary_vectors
    as (_ & _ & _ & _ & _ & Hscaled & _ & Hrange & _ & Hsingle).
  split; [|split].
  - apply (Hscaled "$5,000 per week"%string 5000000 5000000).
    + left. vm_compute. reflexivity.
    + vm_compute. reflexivity.
  - apply (Hrange PyStr.euro PyStr.euro "60" "" " " "80" 60 80);
      try reflexivity; cbn; tauto.
  - apply (Hsingle (PyStr.chr 163) "1" "250" 1250);
      try reflexivity; repeat split; discriminate.
Defined.


(* ===================================================================== *)
(** ** Job ids and the upsert *)
(* ===================================================================== *)

Lemma text_or_run E container sel fallback w :
  text_or E container sel fallback w
  = match bs_select_one E container sel with
    | Ok (Some e) => (Ok (bs_get_text E e), w)
    | Ok None => (Ok fallback, w)
    | Raise e => (Raise e, w)
    end.
Proof.
  unfold text_or, lift_result, bind, ret, raise.
  by destruct (bs_select_one E container sel) as [[e|]|e].
Qed.

Lemma extract_one_id E container c w job w' :
  extract_one E container c w = (Ok job, w') →
  id_ job = job_id (hash_secret E) (name c) (title job) (location job)
  ∧ company job = name c.
Proof.
  unfold extract_one, text_or, lift_result, datetime_now, time_time, advance,
    modify, get_world, bind, ret, raise.
  repeat (match goal with
          | |- context [bs_select_one E ?a ?b] =>
              destruct (bs_select_one E a b) as [[?|]|?]
          end; cbn beta iota zeta; try done);
    (match goal with
     | |- context [Salary.extract_salary ?x] =>
         destruct (Salary.extract_salary x) as [?|?]
     end; cbn beta iota zeta; [|done]);
    intros [= <- <-]; done.
Qed.

(** C1.  Within one process the id of an extracted job is [job_id] of the
    process's hash secret, the target name, the title and the location.
    Across processes it is not fixed by name, title and location: under the
    secrets of PYTHONHASHSEED 1 and 2 the same posting gets different ids. *)
Theorem job_id_changes_with_hash_secret E (container : element) (c : Company)
        (w w' : World) (job : Job) :
  (extract_one E container c w = (Ok job, w') →
   id_ job = job_id (hash_secret E) (name c) (title job) (location job))
  ∧ job_id (PyHash.secret_of_seed 1) "Google" "Engineer" "NYC" = "google_5775"%string
  ∧ job_id (PyHash.secret_of_seed 2) "Google" "Engineer" "NYC" = "google_8504"%string
  ∧ ids_of (fst (extract_jobs_generic (test_env page_ok no_fault parses 1)
                   "<html>" google empty_world))
    = Ok ["google_8290"%string]
  ∧ ids_of (fst (extract_jobs_generic (test_env page_ok no_fault parses 2)
                   "<html>" google empty_world))
    = Ok ["google_8033"%string].
Proof.
  split; [intros H; by apply extract_one_id in H as [? _]|].
  repeat split; vm_compute; reflexivity.
Qed.

Lemma job_id_changes_with_hash_secret_witness :
  ∃ job,
    fst (extract_one (test_env page_ok no_fault parses 0) "<div class=job>"
                     google empty_world) = Ok job
    ∧ id_ job = job_id (PyHash.secret_of_seed 0) "Google" (title job) (location job).
Proof.
  eexists. split; [vm_compute; reflexivity|].
  apply (proj1 (job_id_changes_with_hash_secret
                  (test_env page_ok no_fault parses 0) "<div class=job>" google
                  empty_world
                  (snd (extract_one (test_env page_ok no_fault parses 0)
                                    "<div class=job>" google empty_world))
                  _)).
  vm_compute. reflexivity.
Defined.

Lemma unary_length k : String.length (unary k) = k.
Proof. induction k; cbn; congruence. Qed.

Lemma collision_of_duplicate {A B} `{EqDecision B} (f : A → B) (l : list A) :
  NoDup l → ¬ NoDup (f <$> l) →
  ∃ x y, x ∈ l ∧ y ∈ l ∧ x ≠ y ∧ f x = f y.
Proof.
  induction l as [|a l IH]; intros Hnd Hdup.
  - exfalso. apply Hdup. constructor.
  - apply NoDup_cons in Hnd as [Ha Hnd].
    destruct (decide (f a ∈ f <$> l)) as [Hin|Hout].
    + apply list_elem_of_fmap in Hin as (y & Hfy & Hy).
      exists a, y. split; [apply elem_of_cons; by left|].
      split; [apply elem_of_cons; by right|]. split; [|done].
      intros ->. done.
    + destruct IH as (x & y & Hx & Hy & Hne & Heq); [done| |].
      { intros Hnd'. apply Hdup. rewrite fmap_cons. apply NoDup_cons. done. }
      exists x, y. split; [apply elem_of_cons; by right|].
      split; [apply elem_of_cons; by right|]. done.
Qed.

Lemma job_id_bucket sec company_name title location :
  ∃ k, 0 <= k < 10000 ∧
       job_id sec company_name title location
       = PyStr.replace_char " " "_" (PyStr.lower company_name) +:+ "_"
           +:+ PyStr.str_of_Z k.
Proof.
  exists (PyHash.hash sec (title +:+ location) mod 10000).
  split; [|done]. apply Z.mod_pos_bound. lia.
Qed.

Lemma job_ids_at_most sec company_name (ids : list string) :
  NoDup ids →
  (∀ s, s ∈ ids → ∃ title location, s = job_id sec company_name title location) →
  Z.of_nat (length ids) <= 10000.
Proof.
  intros Hnd Hids.
  set (bucket := (fun k : Z =>
         PyStr.replace_char " " "_" (PyStr.lower company_name) +:+ "_"
           +:+ PyStr.str_of_Z k) <$> seqZ 0 10000).
  assert (Hsub : ids ⊆+ bucket).
  { apply NoDup_submseteq; [done|]. intros s Hs.
    destruct (Hids s Hs) as (t & l & ->).
    destruct (job_id_bucket sec company_name t l) as (j & Hj & Hid).
    apply list_elem_of_fmap. exists j. split; [exact Hid|].
    apply elem_of_seqZ. lia. }
  apply submseteq_length in Hsub.
  unfold bucket in Hsub. rewrite length_fmap, length_seqZ in Hsub. lia.
Qed.

Lemma job_id_pigeonhole sec company_name (n : nat) :
  10000 < Z.of_nat n →
  ∃ x y, (x < n)%nat ∧ (y < n)%nat ∧ x ≠ y ∧
         job_id sec company_name (unary x) "" = job_id sec company_name (unary y) "".
Proof.
  intros Hn.
  set (f := fun k : nat => job_id sec company_name (unary k) "").
  destruct (collision_of_duplicate f (seq 0 n)) as (x & y & Hx & Hy & Hne & Heq).
  - apply NoDup_seq.
  - intros Hnd.
    pose proof (job_ids_at_most sec company_name (f <$> seq 0 n) Hnd) as Hle.
    rewrite length_fmap, length_seq in Hle. 
    assert (Z.of_nat n <= 10000); [|lia].
    apply Hle. intros s Hs. apply list_elem_of_fmap in Hs as (k & -> & _).
    by exists (unary k), EmptyString.
  - apply elem_of_seq in Hx. apply elem_of_seq in Hy.
    exists x, y. split; [lia|]. split; [lia|]. done.
Qed.

Lemma save_job_commits E job w :
  storable job = true → db_fault E (n_db w) = false →
  save_job E job w
  = (Ok true, set_jobs_table (insert_or_replace job (jobs_table w))
                             (set_n_db (S (n_db w)) w)).
Proof.
  intros Hs H. unfold save_job, sqlite_exec. unfold_m. cbn. by rewrite H, Hs.
Qed.

Lemma collision_overwrites E (j1 j2 : Job) (w : World) :
  id_ j1 = id_ j2 →
  (title j1, location j1) ≠ (title j2, location j2) →
  storable j1 = true → storable j2 = true →
  db_fault E (n_db w) = false → db_fault E (S (n_db w)) = false →
  ∃ w1 w2,
    save_job E j1 w = (Ok true, w1) ∧ save_job E j2 w1 = (Ok true, w2) ∧
    stored j1 ∈ jobs_table w1 ∧
    (stored j1 ∉ jobs_table w2) ∧
    stored j2 ∈ jobs_table w2 ∧
    (∀ r, r ∈ jobs_table w2 → id_ r = id_ j1 → r = stored j2).
Proof.
  intros Hid Hne Hs1 Hs2 Hf1 Hf2.
  eexists _, _. split; [by apply save_job_commits|].
  split; [by apply save_job_commits|]. cbn.
  assert (Honly : ∀ r,
    r ∈ filter (λ r0, id_ r0 ≠ id_ j2 ∧ url r0 ≠ url j2)
          (filter (λ r0, id_ r0 ≠ id_ j1 ∧ url r0 ≠ url j1) (jobs_table w)
             ++ [stored j1]) ++ [stored j2] →
    id_ r = id_ j1 → r = stored j2).
  { intros r Hr Hrid. apply elem_of_app in Hr as [Hr|Hr].
    - apply list_elem_of_filter in Hr as [[Hne' _] _]. exfalso. apply Hne'.
      by rewrite Hrid.
    - apply elem_of_cons in Hr as [->|Hr]; [done|]. by apply elem_of_nil in Hr. }
  split; [apply elem_of_app; right; apply elem_of_cons; by left|].
  split.
  { intros Hin. apply Honly in Hin; [|done]. apply Hne.
    apply (f_equal (fun j => (title j, location j))) in Hin. exact Hin. }
  split; [apply elem_of_app; right; apply elem_of_cons; by left|].
  exact Honly.
Qed.

(** C10.  An id is the normalised target name, an underscore and
    [hash(title + location) % 10000], a number below 10000, so a target has
    at most 10000 different ids.  For every secret and target two postings
    with different title and location text get the same id, and so do the
    postings ("ab", "c") and ("a", "bc"), whose title and location
    concatenate to the same text.  For such a pair, saving the first and
    then the second job (amounts that SQLite can bind, no database fault)
    succeeds twice and leaves the second job as the only row under the id:
    the first one is in the table after its save and gone after the
    second. *)
Theorem job_id_collisions_overwrite E (sec : PyHash.secret)
        (company_name job_title job_location : string) :
  job_id sec company_name job_title job_location
  = PyStr.replace_char " " "_" (PyStr.lower company_name) +:+ "_"
      +:+ PyStr.str_of_Z (PyHash.hash sec (job_title +:+ job_location) mod 10000)
  ∧ 0 <= PyHash.hash sec (job_title +:+ job_location) mod 10000 < 10000
  ∧ (∀ ids : list string,
       NoDup ids →
       (∀ s, s ∈ ids → ∃ t l, s = job_id sec company_name t l) →
       Z.of_nat (length ids) <= 10000)
  ∧ (∃ t1 l1 t2 l2,
       (t1, l1) ≠ (t2, l2) ∧ t1 +:+ l1 ≠ t2 +:+ l2 ∧
       job_id sec company_name t1 l1 = job_id sec company_name t2 l2 ∧
       ∀ (j1 j2 : Job) (w : World),
         title j1 = t1 → location j1 = l1 → title j2 = t2 → location j2 = l2 →
         id_ j1 = job_id sec company_name t1 l1 →
         id_ j2 = job_id sec company_name t2 l2 →
         storable j1 = true → storable j2 = true →
         db_fault E (n_db w) = false → db_fault E (S (n_db w)) = false →
         ∃ w1 w2,
           save_job E j1 w = (Ok true, w1) ∧ save_job E j2 w1 = (Ok true, w2) ∧
           stored j1 ∈ jobs_table w1 ∧
           (stored j1 ∉ jobs_table w2) ∧
           stored j2 ∈ jobs_table w2 ∧
           (∀ r, r ∈ jobs_table w2 → id_ r = id_ j1 → r = stored j2))
  ∧ job_id sec company_name "ab" "c" = job_id sec company_name "a" "bc"
  ∧ (∀ (j1 j2 : Job) (w : World),
       title j1 = "ab"%string → location j1 = "c"%string →
       title j2 = "a"%string → location j2 = "bc"%string →
       id_ j1 = job_id sec company_name "ab" "c" →
       id_ j2 = job_id sec company_name "a" "bc" →
       storable j1 = true → storable j2 = true →
       db_fault E (n_db w) = false → db_fault E (S (n_db w)) = false →
       ∃ w1 w2,
         save_job E j1 w = (Ok true, w1) ∧ save_job E j2 w1 = (Ok true, w2) ∧
         stored j1 ∈ jobs_table w1 ∧
         (stored j1 ∉ jobs_table w2) ∧
         stored j2 ∈ jobs_table w2 ∧
         (∀ r, r ∈ jobs_table w2 → id_ r = id_ j1 → r = stored j2)).
Proof.
  split; [reflexivity|]. split; [apply Z.mod_pos_bound; lia|].
  split; [apply job_ids_at_most|]. split; [|split; [reflexivity|]].
  - destruct (job_id_pigeonhole sec company_name (Z.to_nat 10001))
      as (x & y & _ & _ & Hne & Heq); [lia|].
    assert (Hu : unary x ≠ unary y).
    { intros H. apply Hne. by rewrite <- (unary_length x), <- (unary_length y), H. }
    exists (unary x), EmptyString, (unary y), EmptyString.
    split; [congruence|]. split; [by rewrite !append_empty_r|].
    split; [done|].
    intros j1 j2 w Ht1 Hl1 Ht2 Hl2 Hid1 Hid2 Hs1 Hs2 Hf1 Hf2.
    apply collision_overwrites; try done; congruence.
  - intros j1 j2 w Ht1 Hl1 Ht2 Hl2 Hid1 Hid2 Hs1 Hs2 Hf1 Hf2.
    apply collision_overwrites; try done.
    + by rewrite Hid1, Hid2.
    + rewrite Ht1, Hl1, Ht2, Hl2. discriminate.
Qed.

Lemma job_id_collisions_overwrite_witness :
  let sec := PyHash.secret_of_seed 0 in
  let j1 := mkJob (job_id sec "Acme" "ab" "c") "ab" "Acme" "c" ""
                  "http://acme/jobs/1" "2024-03-01T09:00:00"
                  None None None None None "2024-03-01T09:00:00" in
  let j2 := mkJob (job_id sec "Acme" "a" "bc") "a" "Acme" "bc" ""
                  "http://acme/jobs/2" "2024-03-01T09:00:00"
                  None None None None None "2024-03-01T09:00:00" in
  ∃ w1 w2,
    save_job (test_env always_timeout no_fault parses 0) j1 empty_world
      = (Ok true, w1) ∧
    save_job (test_env always_timeout no_fault parses 0) j2 w1
      = (Ok true, w2) ∧
    stored j1 ∈ jobs_table w1 ∧ (stored j1 ∉ jobs_table w2) ∧
    stored j2 ∈ jobs_table w2 ∧
    (∀ r, r ∈ jobs_table w2 → id_ r = id_ j1 → r = stored j2).
Proof.
  intros sec j1 j2.
  destruct (job_id_collisions_overwrite
              (test_env always_timeout no_fault parses 0) sec "Acme" "ab" "c")
    as (_ & _ & _ & _ & _ & Hover).
  apply (Hover j1 j2 empty_world); reflexivity.
Defined.

(* ===================================================================== *)
(** ** Salary patterns: what a match guarantees *)
(* ===================================================================== *)

(** X1.  [extract_salary] never raises: on every text it returns either
    [(None, None)] or two amounts, both present and neither negative, read off
    a match of one of the three patterns. *)
Theorem extract_salary_never_raises (salary_text : string) :
  Salary.extract_salary salary_text = Ok (None, None)
  ∨ ∃ p g lo hi,
      p ∈ Salary.patterns ∧ Re.search p salary_text = Some g ∧
      Salary.extract_salary salary_text = Ok (Some lo, Some hi) ∧
      0 <= lo ∧ 0 <= hi.
Proof.
  unfold Salary.extract_salary. destruct salary_text as [|c s]; [by left|].
  destruct (try_patterns_total Salary.patterns (String c s))
    as [H|(p & g & lo & hi & Hp & Hg & H & Hlo & Hhi & _)]; [done|by left|].
  right. by exists p, g, lo, hi.
Qed.



Ltac each_char H :=
  cbn [PyStr.contains_char] in H;
  repeat (apply orb_true_iff in H as [H|H];
          [apply Ascii.eqb_eq in H; subst; vm_compute; done|]);
  done.



(** X3.  A text with no hyphen never yields a range: when two amounts come
    back they are equal. *)
Theorem extract_salary_without_dash (salary_text : string) (lo hi : Z) :
  (∀ c, PyStr.contains_char c salary_text = true → Re.dash c = false) →
  Salary.extract_salary salary_text = Ok (Some lo, Some hi) →
  lo = hi.
Proof.
  intros Hno. unfold Salary.extract_salary. destruct salary_text as [|c0 s]; [done|].
  destruct (try_patterns_total Salary.patterns (String c0 s))
    as [H|(p & g & lo' & hi' & Hp & Hs & H & _ & _ & Heq)]; [done|by rewrite H|].
  rewrite H. intros [= <- <-]. apply Heq.
  destruct (Nat.ltb_spec (Re.ngroups p) 3) as [|H3]; [done|]. exfalso.
  destruct (patterns_shape p Hp) as (_ & _ & _ & _ & _ & Hm).
  destruct (search_needs_char p _ _ g (Hm H3) Hs) as (c & Hin & Hq).
  rewrite (Hno c Hin) in Hq. done.
Qed.

Lemma extract_salary_without_dash_witness :
  ∃ lo hi, Salary.extract_salary "$120 an hour" = Ok (Some lo, Some hi) ∧ lo = hi.
Proof.
  eexists _, _. split; [vm_compute; reflexivity|].
  apply (extract_salary_without_dash "$120 an hour").
  - intros c H. each_char H.
  - vm_compute. reflexivity.
Defined.


(* ===================================================================== *)
(** ** The proxy pool: rotation, failure and reset *)
(* ===================================================================== *)

(** X4.  While the rotation interval has not passed and the current proxy is
    still active, [get_next_proxy] returns the current proxy again and leaves
    the pool and the random generator alone. *)
Theorem get_next_proxy_sticky E (w : World) (pm : ProxyManager) :
  proxy_manager w = Some pm → pool_inv pm →
  current_proxy pm ∈ active_proxies pm →
  clock w + Z.of_N (lag E (n_clock w)) - last_rotation pm <= rotation_interval pm →
  ∃ cfg w',
    get_next_proxy E w = (Ok (Some cfg), w') ∧
    proxies pm !! Z.to_nat (current_proxy pm) = Some cfg ∧
    proxy_manager w' = Some pm ∧ n_draw w' = n_draw w.
Proof.
  intros Hpm [Hdisj Hrange] Hcur Htime.
  unfold get_next_proxy. unfold the_pool at 1. unfold bind at 1, get_world at 1.
  unfold bind at 1. rewrite Hpm. unfold ret at 1.
  rewrite bool_decide_eq_false_2.
  2:{ intros Hempty. rewrite Hempty in Hcur. by apply not_elem_of_empty in Hcur. }
  unfold bind at 1. rewrite time_time_run.
  replace (clock w + 0 + Z.of_N (lag E (n_clock w)))
    with (clock w + Z.of_N (lag E (n_clock w))) by lia.
  destruct (Z.gtb_spec (clock w + Z.of_N (lag E (n_clock w)) - last_rotation pm)
              (rotation_interval pm)) as [Hgt|_]; [lia|].
  rewrite bool_decide_eq_true_2 by done. cbn [orb negb].
  unfold bind at 1. unfold ret at 1. unfold bind at 1, the_pool, bind, get_world.
  cbn [proxy_manager set_time]. rewrite Hpm. unfold ret at 1.
  assert (Hr : 0 <= current_proxy pm < Z.of_nat (length (proxies pm)))
    by (apply Hrange; by left).
  match goal with |- context [getitem ?xs ?i ?w0] =>
    destruct (getitem_in_range xs i w0 Hr) as [cfg [Hcfg Hget]] end.
  rewrite Hget. unfold ret. eexists cfg, _. split; [reflexivity|]. done.
Qed.

Lemma get_next_proxy_sticky_witness :
  ∃ cfg w',
    get_next_proxy (test_env page_ok no_fault parses 0) world_with_pool
    = (Ok (Some cfg), w') ∧
    proxies pool0 !! Z.to_nat (current_proxy pool0) = Some cfg ∧
    proxy_manager w' = Some pool0 ∧ n_draw w' = n_draw world_with_pool.
Proof.
  apply (get_next_proxy_sticky (test_env page_ok no_fault parses 0)
           world_with_pool pool0).
  - reflexivity.
  - exact pool0_inv.
  - change ((0 : Z) ∈ ({[0]} : gset Z)). apply elem_of_singleton. reflexivity.
  - cbn. lia.
Defined.

(** X5.  Once the rotation interval has passed, or the current proxy is no
    longer active, [get_next_proxy] draws a new current proxy among the active
    ones with one draw of the generator, stamps the rotation with the time it
    read, and returns that proxy; the two sets stay as they were. *)
Theorem get_next_proxy_rotates E (w : World) (pm : ProxyManager) :
  proxy_manager w = Some pm → pool_inv pm → active_proxies pm ≠ ∅ →
  rotation_interval pm < clock w + Z.of_N (lag E (n_clock w)) - last_rotation pm
  ∨ current_proxy pm ∉ active_proxies pm →
  ∃ cfg w' pm',
    get_next_proxy E w = (Ok (Some cfg), w') ∧
    proxy_manager w' = Some pm' ∧
    elements (active_proxies pm)
      !! (draw E (n_draw w) mod length (elements (active_proxies pm)))%nat
      = Some (current_proxy pm') ∧
    current_proxy pm' ∈ active_proxies pm ∧
    proxies pm !! Z.to_nat (current_proxy pm') = Some cfg ∧
    last_rotation pm' = clock w' ∧
    clock w + Z.of_N (lag E (n_clock w)) <= last_rotation pm' ∧
    active_proxies pm' = active_proxies pm ∧
    failed_proxies pm' = failed_proxies pm ∧
    n_draw w' = S (n_draw w).
Proof.
  intros Hpm [Hdisj Hrange] Hact Hwhy.
  unfold get_next_proxy. unfold the_pool at 1. unfold bind at 1, get_world at 1.
  unfold bind at 1. rewrite Hpm. unfold ret at 1.
  rewrite bool_decide_eq_false_2 by done.
  unfold bind at 1. rewrite time_time_run.
  replace (clock w + 0 + Z.of_N (lag E (n_clock w)))
    with (clock w + Z.of_N (lag E (n_clock w))) by lia.
  set (now := clock w + Z.of_N (lag E (n_clock w))) in *.
  assert (Hrot : (now - last_rotation pm >? rotation_interval pm)
                 || negb (bool_decide (current_proxy pm ∈ active_proxies pm)) = true).
  { destruct Hwhy as [Hlate|Hout].
    - destruct (Z.gtb_spec (now - last_rotation pm) (rotation_interval pm)); [done|lia].
    - rewrite (bool_decide_eq_false_2 _ Hout). apply orb_true_r. }
  rewrite Hrot.
  destruct (lookup_lt_is_Some_2 (elements (active_proxies pm))
              (draw E (n_draw w) mod length (elements (active_proxies pm)))%nat)
    as [c Hc].
  { apply Nat.mod_upper_bound.
    destruct (elements (active_proxies pm)) eqn:Hel; [|cbn; lia].
    exfalso. apply Hact. apply elements_empty_inv in Hel. by apply leibniz_equiv. }
  assert (Hin : c ∈ active_proxies pm).
  { apply elem_of_elements. eapply list_elem_of_lookup_2; eauto. }
  assert (Hr : 0 <= c < Z.of_nat (length (proxies pm))) by (apply Hrange; by left).
  unfold_m. cbn. rewrite Hc. cbn.
  match goal with |- context [getitem ?xs ?i ?w0] =>
    destruct (getitem_in_range xs i w0 Hr) as [cfg [Hcfg Hget]] end.
  rewrite Hget. eexists cfg, _, _. split; [reflexivity|]. cbn.
  split; [reflexivity|]. split; [done|]. split; [done|]. split; [done|].
  split; [done|]. split; [subst now; cbn [last_rotation set_last_rotation]; lia|]. done.
Qed.

Lemma get_next_proxy_rotates_witness :
  let E := test_env page_ok no_fault parses 0 in
  let w := set_time 400000 0 world_with_pool in
  ∃ cfg w' pm',
    get_next_proxy E w = (Ok (Some cfg), w') ∧
    proxy_manager w' = Some pm' ∧
    last_rotation pm' = clock w' ∧ n_draw w' = S (n_draw w).
Proof.
  intros E w.
  destruct (get_next_proxy_rotates E w pool0)
    as (cfg & w' & pm' & Hrun & Hpm & _ & _ & _ & Hlast & _ & _ & _ & Hdraw).
  - reflexivity.
  - exact pool0_inv.
  - intros Hempty.
    assert (Hin : (0 : Z) ∈ active_proxies pool0).
    { change ((0 : Z) ∈ ({[0]} : gset Z)). apply elem_of_singleton. reflexivity. }
    rewrite Hempty in Hin. by apply not_elem_of_empty in Hin.
  - left. cbn. lia.
  - by exists cfg, w', pm'.
Defined.

(** X6.  [mark_proxy_failed] is idempotent, and does nothing at all for an
    index that is not active (a failed one, or one out of range). *)
Theorem mark_proxy_failed_idempotent (i : Z) (w : World) (pm : ProxyManager) :
  proxy_manager w = Some pm →
  mark_proxy_failed i (snd (mark_proxy_failed i w))
  = (Ok tt, snd (mark_proxy_failed i w))
  ∧ (i ∉ active_proxies pm → mark_proxy_failed i w = (Ok tt, w)).
Proof.
  intros Hpm. unfold mark_proxy_failed. unfold_m. rewrite Hpm. split.
  - case_bool_decide as Hin; cbn.
    + rewrite bool_decide_eq_false_2; [done|].
      intros Hx. apply elem_of_difference in Hx as [_ Hx]. apply Hx.
      by apply elem_of_singleton.
    + rewrite Hpm. by rewrite bool_decide_eq_false_2.
  - intros Hout. by rewrite bool_decide_eq_false_2.
Qed.

Lemma mark_proxy_failed_idempotent_witness :
  mark_proxy_failed 0 (snd (mark_proxy_failed 0 world_with_pool))
  = (Ok tt, snd (mark_proxy_failed 0 world_with_pool))
  ∧ mark_proxy_failed 5 world_with_pool = (Ok tt, world_with_pool).
Proof.
  split.
  - apply (proj1 (mark_proxy_failed_idempotent 0 world_with_pool pool0 eq_refl)).
  - apply (proj2 (mark_proxy_failed_idempotent 5 world_with_pool pool0 eq_refl)).
    change ((5 : Z) ∉ ({[0]} : gset Z)). intros H.
    apply elem_of_singleton in H. discriminate H.
Defined.

(** X7.  After any sequence of calls on a fresh pool, [reset_failed_proxies]
    makes every configured proxy active again and empties the failed set. *)
Theorem reset_restores_every_proxy E (ps : list ProxyConfig) (w0 : World)
        (ops : list pool_op) :
  ∃ w' pm,
    reset_failed_proxies (snd (run_ops E ops (snd (new_pool E ps w0)))) = (Ok tt, w') ∧
    proxy_manager w' = Some pm ∧ proxies pm = ps ∧
    failed_proxies pm = ∅ ∧
    ∀ i : Z, i ∈ active_proxies pm ↔ 0 <= i < Z.of_nat (length ps).
Proof.
  destruct (new_pool_inv E ps w0) as (pm0 & Hw0).
  destruct (run_ops_inv E ps ops _ pm0 Hw0) as (pm1 & (Hpm1 & Hps1 & Hinv1) & _).
  destruct (reset_failed_proxies_spec _ pm1 Hpm1 Hinv1)
    as (w' & pm & Hrun & Hpm & Hps & _ & Ha & Hf).
  exists w', pm. split; [done|]. split; [done|]. split; [congruence|].
  split; [done|]. intros i. rewrite Ha, elem_of_union.
  destruct Hinv1 as [_ Hrange]. rewrite <- Hps1. symmetry. apply Hrange.
Qed.


(* ===================================================================== *)
(** ** Fetching: fallbacks and early exit *)
(* ===================================================================== *)

Lemma resolve_proxy_direct E (w : World) :
  match proxy_manager w with
  | Some pm => active_proxies pm = ∅
  | None => True
  end →
  resolve_proxy E w = (Ok None, w).
Proof.
  unfold resolve_proxy, get_next_proxy. unfold_m.
  destruct (proxy_manager w) as [pm|] eqn:Hpm; [|done].
  intros Hempty. rewrite Hpm. by rewrite bool_decide_eq_true_2.
Qed.

Lemma on_exception_no_proxy e (w : World) :
  on_exception (Some None) e w = (Ok tt, w).
Proof.
  unfold on_exception. unfold_m. destruct e; try done; by destruct (proxy_manager w).
Qed.

(** X8.  With no pool, or with a pool whose proxies have all failed, an
    attempt on a url that [urlparse] accepts sends its request without a
    proxy and leaves the pool as it is, whatever the outcome of the
    request. *)
Theorem exhausted_pool_goes_direct E (url : string) (attempt : Z)
        (proxy : local_proxy) (w : World) (d : string) :
  netloc E url = Ok d →
  match proxy_manager w with
  | Some pm => active_proxies pm = ∅
  | None => True
  end →
  ∃ w' rl t,
    fetch_attempt E url attempt proxy w
    = (Ok (attempt_result (http E (n_http w)), Some None), w') ∧
    Forall is_rate_limit_sleep rl ∧
    trace w' = trace w ++ rl ++ [EvGet t url None]
                 ++ attempt_sleep (http E (n_http w)) attempt ∧
    proxy_manager w' = proxy_manager w.
Proof.
  intros Hnet Hdirect. unfold fetch_attempt. rewrite Hnet.
  unfold bind at 1. unfold try_ at 1.
  unfold bind at 1. cbn [lift_result]. unfold ret at 1.
  destruct (wait_if_needed_frame E d 2000 w)
    as (w1 & rl & Hrun1 & Htr1 & Hrl & Hpm1 & Hn1).
  rewrite Hrun1. unfold bind at 1. unfold try_ at 1.
  rewrite resolve_proxy_direct by (by rewrite Hpm1).
  unfold bind at 1. unfold try_ at 1.
  destruct (request_run E url None attempt w1) as (w3 & Hrun3 & Htr3 & Hn3 & Hpm3).
  rewrite Hrun3. rewrite Hn1 in *.
  assert (Htr : trace w3 = trace w ++ rl ++ [EvGet (clock w1) url None]
                             ++ attempt_sleep (http E (n_http w)) attempt).
  { rewrite Htr3, Htr1. by rewrite <- !app_assoc. }
  destruct (http E (n_http w)) as [r|e] eqn:Hhttp.
  - exists w3, rl, (clock w1). unfold ret. split; [done|]. split; [done|].
    split; [done|]. congruence.
  - unfold bind. rewrite on_exception_no_proxy. exists w3, rl, (clock w1).
    unfold ret. cbn. split; [done|]. split; [done|]. split; [done|]. congruence.
Qed.

Lemma exhausted_pool_goes_direct_witness :
  let E := test_env page_ok no_fault parses 0 in
  let w := set_proxy_manager (Some spent_pool) empty_world in
  ∃ w' rl t,
    fetch_attempt E "http://acme/careers" 0 None w
    = (Ok (Some "<html>"%string, Some None), w') ∧
    trace w' = trace w ++ rl ++ [EvGet t "http://acme/careers" None] ++ [] ∧
    proxy_manager w' = Some spent_pool.
Proof.
  intros E w.
  destruct (exhausted_pool_goes_direct E "http://acme/careers" 0 None w
              "http://acme/careers")
    as (w' & rl & t & Hrun & _ & Htr & Hpm).
  - reflexivity.
  - reflexivity.
  - exists w', rl, t. split; [exact Hrun|]. split; [exact Htr|exact Hpm].
Defined.

Lemma fetch_attempt_pool E url attempt (proxy : local_proxy) w pm d :
  netloc E url = Ok d →
  proxy_manager w = Some pm → pool_inv pm →
  ∃ w' pm' p,
    fetch_attempt E url attempt proxy w
    = (Ok (attempt_result (http E (n_http w)), Some p), w') ∧
    n_http w' = S (n_http w) ∧
    proxy_manager w' = Some pm' ∧ pool_inv pm' ∧
    ((hard_error (http E (n_http w)) ∧ active_proxies pm ≠ ∅ ∧
      ∃ c, c ∈ active_proxies pm ∧
           active_proxies pm' = active_proxies pm ∖ {[c]} ∧
           failed_proxies pm' = failed_proxies pm ∪ {[c]})
     ∨ ((¬ hard_error (http E (n_http w)) ∨ active_proxies pm = ∅) ∧
        active_proxies pm' = active_proxies pm ∧
        failed_proxies pm' = failed_proxies pm)).
Proof.
  intros Hnet Hpm Hinv. unfold fetch_attempt. rewrite Hnet.
  unfold bind at 1. unfold try_ at 1.
  unfold bind at 1. cbn [lift_result]. unfold ret at 1.
  destruct (wait_if_needed_frame E d 2000 w)
    as (w1 & rl & Hrun1 & Htr1 & Hrl & Hpm1 & Hn1).
  rewrite Hrun1.
  assert (Hok1 : pool_ok w1) by (unfold pool_ok; by rewrite Hpm1, Hpm).
  destruct (resolve_proxy_spec E w1 Hok1) as (p & w2 & Hrun2 & Hok2 & Htr2 & Hn2 & Hres).
  unfold bind at 1. unfold try_ at 1. rewrite Hrun2.
  unfold bind at 1. unfold try_ at 1.
  destruct (request_run E url p attempt w2) as (w3 & Hrun3 & Htr3 & Hn3 & Hpm3).
  rewrite Hrun3. unfold pool_ok in Hok2.
  destruct (proxy_manager w2) as [pm2|] eqn:Hpm2; [|destruct Hres; congruence].
  destruct Hres as [(pm1 & Hpm1' & Ha & Hf & Hps) Hp].
  rewrite Hpm1, Hpm in Hpm1'. injection Hpm1' as <-.
  assert (Hnn : n_http w2 = n_http w) by congruence. rewrite Hnn in *.
  destruct (http E (n_http w)) as [r|e] eqn:Hhttp.
  - exists w3, pm2, p. unfold ret. split; [done|]. split; [done|].
    split; [done|]. split; [done|]. right. split; [left; by intros []|done].
  - destruct (decide (e = TimeoutError)) as [->|Hne].
    { cbn. exists w3, pm2, p. unfold bind, ret. cbn. split; [done|]. split; [done|].
      split; [done|]. split; [done|]. right. split; [left; by intros []|done]. }
    destruct Hp as [[-> Hempty]|(cfg & -> & Hcfg & Hcur)].
    + unfold bind. rewrite on_exception_no_proxy. exists w3, pm2, None. unfold ret. cbn.
      split; [done|]. split; [done|]. split; [done|]. split; [done|].
      right. split; [right; congruence|done].
    + assert (Hrun4 : on_exception (Some (Some (proxy_url cfg))) e w3
                      = mark_proxy_failed (current_proxy pm2) w3).
      { unfold on_exception. destruct e; try done;
          unfold bind, get_world; rewrite Hpm3, proxy_url_truthy; done. }
      destruct (mark_proxy_failed_spec (current_proxy pm2) w3 pm2)
        as (w4 & pm4 & Hrun5 & Hpm4 & Hps4 & Hinv4 & Ha4 & Hf4 & _ & Hc4);
        [done|done|].
      unfold bind at 1. rewrite Hrun4, Hrun5.
      exists w4, pm4, (Some (proxy_url cfg)). unfold ret.
      split; [done|]. split.
      { revert Hrun5. unfold mark_proxy_failed. unfold_m. rewrite Hpm3.
        case_bool_decide; intros [= <-]; done. }
      split; [done|]. split; [done|]. left. split; [done|].
      split; [intros Hempty; rewrite Ha, Hempty in Hcur;
              by apply not_elem_of_empty in Hcur|].
      exists (current_proxy pm2). rewrite <- Ha, <- Hf.
      split; [done|]. split; [done|]. by apply Hf4.
Qed.

Lemma sleep_keeps_pool E who d w :
  proxy_manager (snd (sleep E who d w)) = proxy_manager w
  ∧ n_http (snd (sleep E who d w)) = n_http w.
Proof. done. Qed.

(** X9.  When the fetch task runs on its own, with no other task between
    its steps, and [urlparse] accepts the url: a target that answers three
    requests in a row with an exception other than a timeout makes
    [fetch_page] give up, and costs the pool one active proxy per attempt
    for as long as it has any. *)
Theorem refusing_target_burns_proxies E (url company : string) (w : World)
        (pm : ProxyManager) (d : string) :
  netloc E url = Ok d →
  proxy_manager w = Some pm → pool_inv pm →
  hard_error (http E (n_http w)) →
  hard_error (http E (n_http w + 1)) →
  hard_error (http E (n_http w + 2)) →
  ∃ w' pm',
    run_alone (Task.fetch_page E url company) w = (Ok None, w') ∧
    proxy_manager w' = Some pm' ∧
    size (active_proxies pm')
    = (size (active_proxies pm) - Nat.min 3 (size (active_proxies pm)))%nat ∧
    size (failed_proxies pm')
    = (size (failed_proxies pm) + Nat.min 3 (size (active_proxies pm)))%nat.
Proof.
  intros Hnet Hpm Hinv Hh0 Hh1 Hh2. rewrite task_fetch_page_alone.
  assert (Hres : ∀ o, hard_error o → attempt_result o = None)
    by (intros [r|e]; [intros []|done]).
  assert (Hstep : ∀ pm1 pm2 : ProxyManager,
    pool_inv pm1 →
    ((active_proxies pm1 ≠ ∅ ∧
      ∃ c, c ∈ active_proxies pm1 ∧
           active_proxies pm2 = active_proxies pm1 ∖ {[c]} ∧
           failed_proxies pm2 = failed_proxies pm1 ∪ {[c]})
     ∨ (active_proxies pm1 = ∅ ∧
        active_proxies pm2 = active_proxies pm1 ∧
        failed_proxies pm2 = failed_proxies pm1)) →
    size (active_proxies pm2) = (size (active_proxies pm1) - Nat.min 1 (size (active_proxies pm1)))%nat
    ∧ size (failed_proxies pm2) = (size (failed_proxies pm1) + Nat.min 1 (size (active_proxies pm1)))%nat).
  { intros pm1 pm2 [Hdisj _] [(Hne & c & Hc & -> & ->)|(He & -> & ->)].
    - assert (Hpos : (0 < size (active_proxies pm1))%nat).
      { destruct (size (active_proxies pm1)) eqn:Hs; [|lia].
        apply size_empty_inv in Hs. exfalso. apply Hne. by apply leibniz_equiv. }
      rewrite size_difference by (by apply singleton_subseteq_l).
      rewrite size_union.
      2:{ intros x Hx1 Hx2. apply elem_of_singleton in Hx2 as ->. by apply (Hdisj c). }
      rewrite size_singleton. lia.
    - rewrite He, size_empty. lia. }
  unfold fetch_page. change (seqZ 0 max_retries) with [0; 1; 2].
  rewrite fetch_loop_cons.
  destruct (fetch_attempt_pool E url 0 None w pm d Hnet Hpm Hinv)
    as (w1 & pm1 & p0 & Hrun0 & Hn1 & Hpm1 & Hinv1 & Hcase0).
  rewrite Hrun0, (Hres _ Hh0).
  change (0 <? max_retries - 1) with true. cbn iota.
  destruct (sleep_keeps_pool E Backoff (backoff_ms 0) w1) as [Hsp1 Hsn1].
  set (w1' := snd (sleep E Backoff (backoff_ms 0) w1)) in *.
  assert (Hn1' : n_http w1' = (n_http w + 1)%nat) by lia.
  rewrite fetch_loop_cons.
  destruct (fetch_attempt_pool E url 1 (Some p0) w1' pm1 d Hnet
              (eq_trans Hsp1 Hpm1) Hinv1)
    as (w2 & pm2 & p1 & Hrun1 & Hn2 & Hpm2 & Hinv2 & Hcase1).
  rewrite Hn1' in Hrun1, Hcase1.
  rewrite Hrun1, (Hres _ Hh1).
  change (1 <? max_retries - 1) with true. cbn iota.
  destruct (sleep_keeps_pool E Backoff (backoff_ms 1) w2) as [Hsp2 Hsn2].
  set (w2' := snd (sleep E Backoff (backoff_ms 1) w2)) in *.
  assert (Hn2' : n_http w2' = (n_http w + 2)%nat) by lia.
  rewrite fetch_loop_cons.
  destruct (fetch_attempt_pool E url 2 (Some p1) w2' pm2 d Hnet
              (eq_trans Hsp2 Hpm2) Hinv2)
    as (w3 & pm3 & p2 & Hrun2 & Hn3 & Hpm3 & Hinv3 & Hcase2).
  rewrite Hn2' in Hrun2, Hcase2.
  rewrite Hrun2, (Hres _ Hh2).
  change (2 <? max_retries - 1) with false. cbn iota. cbn [fetch_loop].
  exists w3, pm3. unfold ret. split; [done|]. split; [done|].
  assert (H0 := Hstep pm pm1 Hinv).
  assert (H1 := Hstep pm1 pm2 Hinv1).
  assert (H2 := Hstep pm2 pm3 Hinv2).
  destruct H0 as [Ha0 Hf0].
  { destruct Hcase0 as [(_ & ? & ?)|([Hno|He] & ? & ?)]; [by left| |right; done].
    by destruct Hno. }
  destruct H1 as [Ha1 Hf1].
  { destruct Hcase1 as [(_ & ? & ?)|([Hno|He] & ? & ?)]; [by left| |right; done].
    by destruct Hno. }
  destruct H2 as [Ha2 Hf2].
  { destruct Hcase2 as [(_ & ? & ?)|([Hno|He] & ? & ?)]; [by left| |right; done].
    by destruct Hno. }
  lia.
Qed.

Lemma refusing_target_burns_proxies_witness :
  ∃ w' pm',
    run_alone (Task.fetch_page (test_env refused no_fault parses 0)
                 "http://acme/careers" "Acme Corp")
              world_with_pool = (Ok None, w') ∧
    proxy_manager w' = Some pm' ∧
    size (active_proxies pm') = 0%nat ∧ size (failed_proxies pm') = 1%nat.
Proof.
  destruct (refusing_target_burns_proxies (test_env refused no_fault parses 0)
              "http://acme/careers" "Acme Corp" world_with_pool pool0
              "http://acme/careers")
    as (w' & pm' & Hrun & Hpm & Hact & Hfail).
  - reflexivity.
  - reflexivity.
  - exact pool0_inv.
  - discriminate.
  - discriminate.
  - discriminate.
  - exists w', pm'. split; [exact Hrun|]. split; [exact Hpm|].
    split; [exact Hact|exact Hfail].
Defined.




(* ===================================================================== *)
(** ** The rate limiter over several calls *)
(* ===================================================================== *)

Lemma wait_if_needed_effect E domain min_delay w :
  ∃ w',
    wait_if_needed E domain min_delay w = (Ok tt, w') ∧
    request_times w' = <[domain := clock w']> (request_times w) ∧
    clock w <= clock w' ∧
    (∀ last, request_times w !! domain = Some last → last + min_delay <= clock w').
Proof.
  unfold wait_if_needed. unfold bind at 1. rewrite time_time_run.
  unfold bind at 1, get_world at 1. unfold bind at 1. cbn [request_times set_time].
  destruct (request_times w !! domain) as [last|] eqn:Hlast.
  - destruct (Z.ltb_spec (clock w + 0 + Z.of_N (lag E (n_clock w)) - last) min_delay)
      as [Hlt|Hge].
    + rewrite sleep_run. unfold bind at 1. rewrite time_time_run. unfold modify.
      eexists. split; [reflexivity|]. cbn. split; [done|]. split; [lia|].
      intros last' [= <-]. lia.
    + unfold ret at 1. unfold bind at 1. rewrite time_time_run. unfold modify.
      eexists. split; [reflexivity|]. cbn. split; [done|]. split; [lia|].
      intros last' [= <-]. lia.
  - unfold ret at 1. unfold bind at 1. rewrite time_time_run. unfold modify.
    eexists. split; [reflexivity|]. cbn. split; [done|]. split; [lia|]. done.
Qed.

(** X11.  Two waits for the same domain that do not overlap (the first has
    returned before the second starts) are at least [min_delay] apart, also
    with a wait for another domain in between; each domain keeps its own
    time stamp.  Waits that overlap are not spaced: two tasks that wait for
    one domain at the same time both read the old time stamp, sleep the
    same 1.5 s and go on together. *)
Theorem rate_limit_spaces_same_domain E (a b : string) (min_delay other_delay : Z)
        (w : World) :
  a ≠ b →
  (let w1 := snd (wait_if_needed E a min_delay w) in
   let w2 := snd (wait_if_needed E b other_delay w1) in
   let w3 := snd (wait_if_needed E a min_delay w2) in
   clock w1 + min_delay <= clock w3 ∧
   request_times w2 !! a = Some (clock w1) ∧
   request_times w3 !! a = Some (clock w3) ∧
   request_times w3 !! b = Some (clock w2))
  ∧ (let E0 := test_env page_ok no_fault parses 0 in
     let both := interleave [0; 1; 0; 1]%nat
                   [Task.wait_if_needed E0 "acme.example" 2000;
                    Task.wait_if_needed E0 "acme.example" 2000]
                   limiter_at_500 in
     fst both = [Fin (Ok tt); Fin (Ok tt)] ∧
     trace (snd both) = [EvSleep RateLimit 1500; EvSleep RateLimit 1500] ∧
     clock (snd both) = 2000 ∧
     request_times (snd both) !! "acme.example"%string = Some 2000).
Proof.
  intros Hne. split; [|by vm_compute].
  intros w1 w2 w3. subst w1 w2 w3.
  destruct (wait_if_needed_effect E a min_delay w) as (w1 & Hrun1 & Hrt1 & _ & _).
  rewrite Hrun1. cbn [snd].
  destruct (wait_if_needed_effect E b other_delay w1) as (w2 & Hrun2 & Hrt2 & _ & _).
  rewrite Hrun2. cbn [snd].
  destruct (wait_if_needed_effect E a min_delay w2) as (w3 & Hrun3 & Hrt3 & _ & Hwait).
  rewrite Hrun3. cbn [snd].
  assert (Ha2 : request_times w2 !! a = Some (clock w1)).
  { rewrite Hrt2, lookup_insert_ne by done. by rewrite Hrt1, lookup_insert_eq. }
  split; [by apply Hwait|]. split; [done|]. rewrite Hrt3. split.
  - by rewrite lookup_insert_eq.
  - rewrite lookup_insert_ne by done. by rewrite Hrt2, lookup_insert_eq.
Qed.

Lemma rate_limit_spaces_same_domain_witness :
  let E := test_env page_ok no_fault parses 0 in
  let w1 := snd (wait_if_needed E "acme.example" 2000 empty_world) in
  let w2 := snd (wait_if_needed E "other.example" 500 w1) in
  let w3 := snd (wait_if_needed E "acme.example" 2000 w2) in
  clock w1 + 2000 <= clock w3.
Proof.
  intros E.
  apply (proj1 (rate_limit_spaces_same_domain E "acme.example" "other.example"
                  2000 500 empty_world ltac:(discriminate))).
Defined.

(** X12.  If no recorded request time lies in the future, [wait_if_needed] keeps
    it so, and no domain's recorded time ever decreases. *)
Theorem request_times_never_decrease E (domain : string) (min_delay : Z) (w : World) :
  timers_behind w →
  timers_behind (snd (wait_if_needed E domain min_delay w)) ∧
  ∀ d t, request_times w !! d = Some t →
         ∃ t', request_times (snd (wait_if_needed E domain min_delay w)) !! d = Some t'
               ∧ t <= t'.
Proof.
  intros Hb.
  destruct (wait_if_needed_effect E domain min_delay w) as (w' & Hrun & Hrt & Hclk & _).
  rewrite Hrun. cbn [snd]. split.
  - intros d t. rewrite Hrt. destruct (decide (domain = d)) as [->|Hne].
    + rewrite lookup_insert_eq. intros [= <-]. lia.
    + rewrite lookup_insert_ne by done. intros Ht. apply Hb in Ht. lia.
  - intros d t Ht. rewrite Hrt. destruct (decide (domain = d)) as [->|Hne].
    + rewrite lookup_insert_eq. eexists. split; [done|]. apply Hb in Ht. lia.
    + rewrite lookup_insert_ne by done. by exists t.
Qed.

Lemma request_times_never_decrease_witness :
  let E := test_env page_ok no_fault parses 0 in
  let w := set_request_times {[ "acme.example"%string := 0 ]}
             (set_time 500 0 empty_world) in
  ∃ t', request_times (snd (wait_if_needed E "other.example" 2000 w))
          !! "acme.example"%string = Some t'
        ∧ 0 <= t'.
Proof.
  intros E w.
  assert (Hbehind : timers_behind w).
  { intros d t H. subst w. cbn [request_times set_request_times] in H.
    apply lookup_singleton_Some in H as [_ <-]. cbn. lia. }
  apply (proj2 (request_times_never_decrease E "other.example" 2000 w Hbehind)).
  apply lookup_singleton_eq.
Defined.


(* ===================================================================== *)
(** ** What a step leaves alone *)
(* ===================================================================== *)

(** *** Relations that a computation maintains between the world it starts
    in and the world it ends in *)

Section Frame.

Context (R : World → World → Prop) `{!PreOrder R}.

Lemma preserves_ret {A} (a : A) : preserves R (ret a).
Proof. intros w. reflexivity. Qed.

Lemma preserves_raise {A} e : preserves R (@raise A e).
Proof. intros w. reflexivity. Qed.

Lemma preserves_get_world : preserves R get_world.
Proof. intros w. reflexivity. Qed.

Lemma preserves_bind {A B} (c : M A) (k : A → M B) :
  preserves R c → (∀ a, preserves R (k a)) → preserves R (bind c k).
Proof.
  intros Hc Hk w. unfold bind. specialize (Hc w).
  destruct (c w) as [[a|e] w1]; cbn in *; [|done].
  etrans; [exact Hc|apply Hk].
Qed.

Lemma preserves_try {A} (c : M A) : preserves R c → preserves R (try_ c).
Proof. intros Hc w. unfold try_. specialize (Hc w). by destruct (c w). Qed.

Lemma preserves_modify (f : World → World) :
  (∀ w, R w (f w)) → preserves R (modify f).
Proof. intros Hf w. apply Hf. Qed.

Lemma preserves_for_each {A B} (xs : list A) (body : B → A → M B) :
  (∀ acc x, preserves R (body acc x)) → ∀ acc, preserves R (for_each xs acc body).
Proof.
  intros Hb. induction xs as [|x xs IH]; intros acc; cbn [for_each].
  - apply preserves_ret.
  - apply preserves_bind; [apply Hb|]. intros acc'. apply IH.
Qed.

Lemma preserves_gather {A} (tasks : list (M A)) :
  (∀ t, t ∈ tasks → preserves R t) → preserves R (gather tasks).
Proof.
  induction tasks as [|t ts IH]; intros Hall; cbn [gather].
  - apply preserves_ret.
  - apply preserves_bind; [apply preserves_try, Hall, list_elem_of_here|].
    intros r. apply preserves_bind; [|intros rs; apply preserves_ret].
    apply IH. intros t' Hin. apply Hall. by apply list_elem_of_further.
Qed.

End Frame.

#[global] Instance same_logs_preorder : PreOrder same_logs.
Proof. split; [done|]. intros x y z. unfold same_logs. congruence. Qed.

#[global] Instance same_jobs_preorder : PreOrder same_jobs.
Proof. split; [done|]. intros x y z. unfold same_jobs. congruence. Qed.

#[global] Instance clock_le_preorder : PreOrder clock_le.
Proof. split; [intros x; unfold clock_le; lia|]. intros x y z. unfold clock_le. lia. Qed.

Create HintDb frame.

Lemma advance_preserves E d :
  0 <= d →
  preserves same_logs (advance E d) ∧ preserves same_jobs (advance E d)
  ∧ preserves clock_le (advance E d).
Proof.
  intros Hd. unfold advance.
  split; [|split]; apply preserves_modify; intros w; try done.
  unfold clock_le. cbn. lia.
Qed.

#[global] Hint Extern 1 (preserves _ (advance _ 0)) =>
  apply (advance_preserves _ 0); lia : frame.

#[global] Hint Extern 1 (preserves _ (advance _ (Z.max 0 _))) =>
  apply advance_preserves; lia : frame.

Ltac frame_step :=
  first
    [ assumption
    | solve [auto with frame]
    | solve [apply preserves_ret; try typeclasses eauto]
    | solve [apply preserves_raise; try typeclasses eauto]
    | solve [apply preserves_get_world; try typeclasses eauto]
    | progress cbv zeta
    | apply preserves_modify; intros ?;
      solve [reflexivity | unfold clock_le; cbn; lia]
    | apply preserves_for_each; try typeclasses eauto; intros ? ?
    | apply preserves_try
    | match goal with
      | |- preserves _ (match ?x with _ => _ end) => destruct x
      end
    | apply preserves_bind; try typeclasses eauto; [|intros ?] ].

Ltac frame := repeat frame_step.

Lemma fetch_attempt_preserves E url attempt (proxy : local_proxy) :
  preserves same_logs (fetch_attempt E url attempt proxy)
  ∧ preserves same_jobs (fetch_attempt E url attempt proxy)
  ∧ preserves clock_le (fetch_attempt E url attempt proxy).
Proof.
  split; [|split];
    unfold fetch_attempt, wait_if_needed, resolve_proxy, get_next_proxy, request,
      get_headers, session_get, on_exception, mark_proxy_failed, time_time, sleep,
      random_choice, getitem, lift_result, the_pool, put_pool;
    frame.
Qed.

Lemma fetch_page_preserves E url company :
  preserves same_logs (fetch_page E url company)
  ∧ preserves same_jobs (fetch_page E url company)
  ∧ preserves clock_le (fetch_page E url company).
Proof.
  unfold fetch_page. generalize (seqZ 0 max_retries) (@None (option string)).
  intros attempts.
  induction attempts as [|a rest IH]; intros proxy; cbn [fetch_loop].
  - split; [|split]; frame.
  - destruct (fetch_attempt_preserves E url a proxy) as (? & ? & ?).
    assert (IH1 : ∀ p, preserves same_logs (fetch_loop E url rest p))
      by (intros p; apply IH).
    assert (IH2 : ∀ p, preserves same_jobs (fetch_loop E url rest p))
      by (intros p; apply IH).
    assert (IH3 : ∀ p, preserves clock_le (fetch_loop E url rest p))
      by (intros p; apply IH).
    split; [|split]; unfold sleep; frame.
Qed.

Lemma extract_jobs_generic_preserves E html c :
  preserves same_logs (extract_jobs_generic E html c)
  ∧ preserves same_jobs (extract_jobs_generic E html c)
  ∧ preserves clock_le (extract_jobs_generic E html c).
Proof.
  split; [|split];
    unfold extract_jobs_generic, extract_one, text_or, datetime_now, time_time,
      lift_result;
    frame.
Qed.

Lemma save_job_preserves E job :
  preserves same_logs (save_job E job) ∧ preserves clock_le (save_job E job).
Proof. split; unfold save_job, sqlite_exec; frame. Qed.

Lemma log_scrape_session_preserves E a b c d e f g h :
  preserves same_jobs (log_scrape_session E a b c d e f g h)
  ∧ preserves clock_le (log_scrape_session E a b c d e f g h).
Proof. split; unfold log_scrape_session, sqlite_exec; frame. Qed.

(** X13.  [get_headers] never raises: the user agent is one of the five
    configured strings, the six other headers are fixed, and one number is
    drawn from the random generator. *)
Theorem get_headers_never_raises E (w : World) :
  ∃ ua, get_headers E w
        = (Ok [ ("User-Agent", ua);
                ("Accept", "text/html,application/xhtml+xml,application/xml;q=0.9,*/*;q=0.8");
                ("Accept-Language", "en-US,en;q=0.5");
                ("Accept-Encoding", "gzip, deflate");
                ("DNT", "1");
                ("Connection", "keep-alive");
                ("Upgrade-Insecure-Requests", "1") ]%string,
           set_n_draw (S (n_draw w)) w)
        ∧ user_agents !! (draw E (n_draw w) mod 5)%nat = Some ua.
Proof.
  unfold get_headers, random_choice, bind, get_world, modify, ret.
  change (length user_agents) with 5%nat.
  destruct (lookup_lt_is_Some_2 user_agents (draw E (n_draw w) mod 5)) as [ua Hua].
  { change (length user_agents) with 5%nat. apply Nat.mod_upper_bound. lia. }
  exists ua. by rewrite Hua.
Qed.

(** X14.  Fetching a page and extracting jobs from it never write to the
    database, and never move the clock backwards. *)
Theorem fetching_and_parsing_leave_the_database E (url company html : string)
        (c : Company) (w : World) :
  let w1 := snd (fetch_page E url company w) in
  let w2 := snd (extract_jobs_generic E html c w) in
  jobs_table w1 = jobs_table w ∧ scrape_logs w1 = scrape_logs w ∧ clock w <= clock w1
  ∧ jobs_table w2 = jobs_table w ∧ scrape_logs w2 = scrape_logs w ∧ clock w <= clock w2.
Proof.
  destruct (fetch_page_preserves E url company) as (Hl & Hj & Hc).
  destruct (extract_jobs_generic_preserves E html c) as (Hl' & Hj' & Hc').
  cbv zeta. split; [apply Hj|]. split; [apply Hl|]. split; [apply Hc|].
  split; [apply Hj'|]. split; [apply Hl'|apply Hc'].
Qed.

Lemma scrape_company_preserves_clock E c : preserves clock_le (scrape_company E c).
Proof.
  destruct (fetch_page_preserves E (career_url c) (name c)) as (_ & _ & Hf).
  assert (He : ∀ html, preserves clock_le (extract_jobs_generic E html c))
    by (intros html; apply extract_jobs_generic_preserves).
  assert (Hs : ∀ job, preserves clock_le (save_job E job))
    by (intros job; apply save_job_preserves).
  assert (Hlog : ∀ a b c0 d e f g h,
             preserves clock_le (log_scrape_session E a b c0 d e f g h))
    by (intros; apply log_scrape_session_preserves).
  unfold scrape_company, scrape_failed, time_time, datetime_now, lift_result.
  frame.
Qed.

(** Time only moves forward through a scrape of one target and through a
    scrape of all of them. *)
Lemma clock_never_runs_backwards E (cs : list Company) (c : Company) (w : World) :
  clock w <= clock (snd (scrape_company E c w))
  ∧ clock w <= clock (snd (scrape_all_companies E cs w)).
Proof.
  split; [apply scrape_company_preserves_clock|].
  assert (H : preserves clock_le (scrape_all_companies E cs)); [|apply H].
  unfold scrape_all_companies.
  apply preserves_bind; [typeclasses eauto| |intros rs; apply preserves_ret; typeclasses eauto].
  apply preserves_gather; [typeclasses eauto|].
  intros t Hin. apply list_elem_of_fmap in Hin as (c' & -> & _).
  apply scrape_company_preserves_clock.
Qed.


(* ===================================================================== *)
(** ** The pool through a whole run *)
(* ===================================================================== *)

#[global] Instance pool_decays_preorder : PreOrder pool_decays.
Proof.
  split.
  - intros w Hok. split; [done|]. by destruct (proxy_manager w).
  - intros x y z Hxy Hyz Hok. destruct (Hxy Hok) as [Hoky Hy].
    destruct (Hyz Hoky) as [Hokz Hz]. split; [done|].
    destruct (proxy_manager x), (proxy_manager y), (proxy_manager z); try done.
    destruct Hy as (Hp & Hf & Ha), Hz as (Hp' & Hf' & Ha').
    split; [congruence|]. split; [by etrans|by etrans].
Qed.

Lemma pool_decays_same (w w' : World) :
  proxy_manager w' = proxy_manager w → pool_decays w w'.
Proof.
  intros Heq Hok. unfold pool_ok in *. rewrite Heq. split; [done|].
  by destruct (proxy_manager w).
Qed.

Lemma get_next_proxy_decays E : preserves pool_decays (get_next_proxy E).
Proof.
  intros w. destruct (proxy_manager w) as [pm|] eqn:Hpm.
  - intros Hok.
    assert (Hinv : pool_inv pm) by (unfold pool_ok in Hok; by rewrite Hpm in Hok).
    destruct (get_next_proxy_spec E w pm Hpm Hinv)
      as (r & w' & pm' & Hrun & Hpm' & Hp & Ha & Hf & _).
    rewrite Hrun. cbn [snd]. unfold pool_ok. rewrite Hpm, Hpm'.
    split; [|by rewrite Hp, Ha, Hf].
    destruct Hinv as [Hdisj Hrange]. split; rewrite ?Hp, ?Ha, ?Hf; done.
  - apply pool_decays_same.
    unfold get_next_proxy, the_pool, bind, get_world, raise. by rewrite Hpm.
Qed.

Lemma mark_proxy_failed_decays i : preserves pool_decays (mark_proxy_failed i).
Proof.
  intros w. destruct (proxy_manager w) as [pm|] eqn:Hpm.
  - intros Hok.
    assert (Hinv : pool_inv pm) by (unfold pool_ok in Hok; by rewrite Hpm in Hok).
    destruct (mark_proxy_failed_spec i w pm Hpm Hinv)
      as (w' & pm' & Hrun & Hpm' & Hp & Hinv' & Ha & Hfin & Hfout & _).
    rewrite Hrun. cbn [snd]. unfold pool_ok. rewrite Hpm, Hpm'.
    split; [done|]. split; [done|]. split.
    + destruct (decide (i ∈ active_proxies pm)) as [Hin|Hin].
      * rewrite (Hfin Hin). apply union_subseteq_l.
      * by destruct (Hfout Hin) as [-> _].
    + rewrite Ha. apply subseteq_difference_l. done.
  - apply pool_decays_same.
    unfold mark_proxy_failed, the_pool, bind, get_world, raise. by rewrite Hpm.
Qed.

Ltac pool_frame :=
  frame; try (apply preserves_modify; intros ?; by apply pool_decays_same).






(* ===================================================================== *)
(** ** The jobs table *)
(* ===================================================================== *)

Lemma save_job_run E job w :
  save_job E job w
  = if db_fault E (n_db w) || negb (storable job)
    then (Ok false, set_n_db (S (n_db w)) w)
    else (Ok true, set_jobs_table (insert_or_replace job (jobs_table w))
                                  (set_n_db (S (n_db w)) w)).
Proof.
  unfold save_job, sqlite_exec. unfold_m. cbn.
  by destruct (db_fault E (n_db w)), (storable job).
Qed.

Lemma storable_range job :
  storable job = true
  ↔ (∀ n, salary_min job = Some n → - 2 ^ 63 <= n < 2 ^ 63)
    ∧ (∀ n, salary_max job = Some n → - 2 ^ 63 <= n < 2 ^ 63).
Proof.
  unfold storable, int64. rewrite andb_true_iff.
  destruct (salary_min job) as [a|], (salary_max job) as [b|];
    rewrite ?andb_true_iff, ?Z.leb_le, ?Z.ltb_lt; split.
  - intros [Ha Hb]. split; intros n [= <-]; lia.
  - intros [Ha Hb]. specialize (Ha a eq_refl). specialize (Hb b eq_refl). lia.
  - intros [Ha _]. split; [intros n [= <-]; lia|done].
  - intros [Ha _]. specialize (Ha a eq_refl). split; [lia|done].
  - intros [_ Hb]. split; [done|intros n [= <-]; lia].
  - intros [_ Hb]. specialize (Hb b eq_refl). split; [done|lia].
  - done.
  - done.
Qed.

Lemma NoDup_map_filter {A B} (f : A → B) (P : A → Prop) `{∀ x, Decision (P x)}
      (l : list A) :
  NoDup (map f l) → NoDup (map f (filter P l)).
Proof.
  induction l as [|x l IH]; [done|]. cbn [map]. rewrite NoDup_cons.
  intros [Hx Hl]. rewrite filter_cons. destruct (decide (P x)); [|by apply IH].
  cbn [map]. apply NoDup_cons. split; [|by apply IH].
  intros Hin. apply Hx. apply list_elem_of_fmap in Hin as (y & Hy & Hin).
  apply list_elem_of_filter in Hin as [_ Hin].
  apply list_elem_of_fmap. by exists y.
Qed.

Lemma insert_or_replace_unique job rows :
  unique_rows rows → unique_rows (insert_or_replace job rows).
Proof.
  intros [Hid Hurl]. unfold insert_or_replace, unique_rows.
  rewrite !map_app. cbn [map]. split.
  - apply NoDup_app. split; [by apply NoDup_map_filter|]. split.
    + intros x Hx Hx'. apply list_elem_of_singleton in Hx' as ->.
      apply list_elem_of_fmap in Hx as (r & Hr & Hin).
      apply list_elem_of_filter in Hin as [[Hne _] _]. by apply Hne.
    + apply NoDup_singleton.
  - apply NoDup_app. split; [by apply NoDup_map_filter|]. split.
    + intros x Hx Hx'. apply list_elem_of_singleton in Hx' as ->.
      apply list_elem_of_fmap in Hx as (r & Hr & Hin).
      apply list_elem_of_filter in Hin as [[_ Hne] _]. by apply Hne.
    + apply NoDup_singleton.
Qed.

(** X16.  [save_job] keeps the keys of the jobs table unique: no two rows with
    the same id, no two rows with the same url. *)
Theorem save_job_keeps_keys_unique E (job : Job) (w : World) :
  unique_rows (jobs_table w) →
  unique_rows (jobs_table (snd (save_job E job w))).
Proof.
  intros Hu. rewrite save_job_run.
  destruct (db_fault E (n_db w) || negb (storable job)); cbn; [done|].
  by apply insert_or_replace_unique.
Qed.

Lemma save_job_keeps_keys_unique_witness :
  unique_rows
    (jobs_table (snd (save_job (test_env page_ok no_fault parses 0) engineer_reposted
                               (set_jobs_table [stored engineer] empty_world)))).
Proof.
  apply (save_job_keeps_keys_unique (test_env page_ok no_fault parses 0)
           engineer_reposted (set_jobs_table [stored engineer] empty_world)).
  split; cbn; apply NoDup_singleton.
Defined.

(** X17.  What [save_job] does to the database.  It never raises.  When
    the transaction raises, because the database fails or because
    [salary_min] or [salary_max] is not a signed 64-bit integer and cannot
    be bound, the answer is [False] and the table is as before.  Otherwise
    the answer is [True] and the new row replaces exactly the rows that
    share its id or its url.  It never writes to the scrape log. *)
Theorem save_job_effect E (job : Job) (w : World) :
  (storable job = true
   ↔ (∀ n, salary_min job = Some n → - 2 ^ 63 <= n < 2 ^ 63)
     ∧ (∀ n, salary_max job = Some n → - 2 ^ 63 <= n < 2 ^ 63))
  ∧ (∃ saved, fst (save_job E job w) = Ok saved)
  ∧ (db_fault E (n_db w) = true ∨ storable job = false →
     fst (save_job E job w) = Ok false ∧
     jobs_table (snd (save_job E job w)) = jobs_table w)
  ∧ (db_fault E (n_db w) = false → storable job = true →
     fst (save_job E job w) = Ok true ∧
     ∀ r, r ∈ jobs_table (snd (save_job E job w))
          ↔ r = stored job
            ∨ (r ∈ jobs_table w ∧ id_ r ≠ id_ job ∧ url r ≠ url job))
  ∧ scrape_logs (snd (save_job E job w)) = scrape_logs w.
Proof.
  split; [apply storable_range|].
  rewrite save_job_run. split; [|split; [|split]].
  - destruct (db_fault E (n_db w) || negb (storable job)); eauto.
  - intros [-> | ->]; [done|]. by rewrite orb_true_r.
  - intros -> ->. split; [done|]. intros r. cbn. unfold insert_or_replace.
    rewrite elem_of_app, list_elem_of_filter, list_elem_of_singleton. tauto.
  - by destruct (db_fault E (n_db w) || negb (storable job)).
Qed.

Lemma save_job_effect_witness :
  fst (save_job (test_env page_ok disk_full parses 0) engineer empty_world) = Ok false
  ∧ fst (save_job (test_env page_ok no_fault parses 0) overpaid empty_world) = Ok false
  ∧ fst (save_job (test_env page_ok no_fault parses 0) engineer empty_world) = Ok true.
Proof.
  split; [|split].
  - apply (proj1 (proj2 (proj2 (save_job_effect (test_env page_ok disk_full parses 0)
                    engineer empty_world)))).
    left. reflexivity.
  - apply (proj1 (proj2 (proj2 (save_job_effect (test_env page_ok no_fault parses 0)
                    overpaid empty_world)))).
    right. reflexivity.
  - apply (proj1 (proj2 (proj2 (proj2 (save_job_effect
                    (test_env page_ok no_fault parses 0) engineer empty_world))))).
    + reflexivity.
    + reflexivity.
Defined.

Lemma insert_or_replace_twice job rows :
  insert_or_replace job (insert_or_replace job rows) = insert_or_replace job rows.
Proof.
  unfold insert_or_replace. rewrite filter_app. f_equal.
  rewrite filter_cons. cbn [filter].
  destruct (decide (id_ (stored job) ≠ id_ job ∧ url (stored job) ≠ url job))
    as [[Hne _]|_]; [by destruct Hne|].
  rewrite filter_nil, app_nil_r.
  induction rows as [|r rows IH]; [done|].
  rewrite filter_cons.
  destruct (decide (id_ r ≠ id_ job ∧ url r ≠ url job)) as [Hk|Hk]; [|done].
  rewrite filter_cons. destruct (decide (id_ r ≠ id_ job ∧ url r ≠ url job)); [|done].
  by rewrite IH.
Qed.

(** Saving the same job twice leaves the table as saving it once does. *)
Lemma save_job_twice_is_once E (job : Job) (w : World) :
  storable job = true →
  db_fault E (n_db w) = false → db_fault E (S (n_db w)) = false →
  jobs_table (snd (save_job E job (snd (save_job E job w))))
  = jobs_table (snd (save_job E job w)).
Proof.
  intros Hs H1 H2. rewrite (save_job_run E job w), H1, Hs. cbn [snd orb negb].
  rewrite save_job_run. cbn [n_db set_jobs_table set_n_db]. rewrite H2, Hs. cbn.
  apply insert_or_replace_twice.
Qed.

Lemma replaced_url_is_gone (job : Job) (rows : list Job) :
  filter (fun r => url r = url job)
         (filter (fun r => id_ r ≠ id_ job ∧ url r ≠ url job) rows) = [].
Proof.
  induction rows as [|r rows IH]; [done|].
  rewrite filter_cons.
  destruct (decide (id_ r ≠ id_ job ∧ url r ≠ url job)) as [[_ Hne]|_]; [|exact IH].
  rewrite filter_cons. destruct (decide (url r = url job)); [done|exact IH].
Qed.

(** X18.  When every job of a batch has the same url (a page without job links
    gives each of its jobs the url of the career page), no transaction
    fails and every amount can be bound, saving the batch counts every job
    as saved but leaves one row for that url, the last. *)
Theorem saves_with_one_url_leave_one_row E (jobs : list Job) (last : Job)
        (u : string) (acc : Z) (w : World) :
  (∀ k, db_fault E k = false) →
  (∀ j, j ∈ jobs ++ [last] → storable j = true) →
  (∀ j, j ∈ jobs ++ [last] → url j = u) →
  let run := for_each (jobs ++ [last]) acc (fun saved_count job =>
               (saved <~ save_job E job ;
                ret (if saved : bool then saved_count + 1 else saved_count))%M) w in
  fst run = Ok (acc + Z.of_nat (length (jobs ++ [last])))
  ∧ filter (fun r => url r = u) (jobs_table (snd run)) = [stored last].
Proof.
  intros Hok. revert acc w.
  induction jobs as [|j jobs IH]; intros acc w Hst Hurl run.
  - subst run. cbn [app for_each].
    assert (Hsl : storable last = true)
      by (apply Hst, list_elem_of_singleton; done).
    assert (Hrun : ∀ A (k : Z → M A),
      bind (bind (save_job E last)
                 (fun saved : bool => ret (if saved then acc + 1 else acc))) k w
      = k (acc + 1)
          (set_jobs_table (insert_or_replace last (jobs_table w))
                          (set_n_db (S (n_db w)) w))).
    { intros A k. unfold bind. by rewrite save_job_run, Hok, Hsl. }
    rewrite Hrun. unfold ret. cbn [fst snd jobs_table set_jobs_table].
    split; [f_equal; cbn; lia|].
    unfold insert_or_replace. rewrite filter_app.
    assert (Hu : url last = u) by (apply Hurl, list_elem_of_singleton; done).
    rewrite filter_cons, filter_nil. cbn [url stored].
    destruct (decide (url last = u)); [|done].
    subst u. by rewrite replaced_url_is_gone.
  - subst run. rewrite <- app_comm_cons. cbn [for_each].
    assert (Hsj : storable j = true).
    { apply Hst. rewrite <- app_comm_cons. apply elem_of_cons. by left. }
    assert (Hrun : ∀ A (k : Z → M A),
      bind (bind (save_job E j)
                 (fun saved : bool => ret (if saved then acc + 1 else acc))) k w
      = k (acc + 1)
          (set_jobs_table (insert_or_replace j (jobs_table w))
                          (set_n_db (S (n_db w)) w))).
    { intros A k. unfold bind. by rewrite save_job_run, Hok, Hsj. }
    rewrite Hrun.
    set (w1 := set_jobs_table _ _).
    destruct (IH (acc + 1) w1) as [Hr Ht].
    { intros j' Hj'. apply Hst. rewrite <- app_comm_cons. apply elem_of_cons. by right. }
    { intros j' Hj'. apply Hurl. rewrite <- app_comm_cons. apply elem_of_cons. by right. }
    split; [|exact Ht]. rewrite Hr. f_equal. cbn [length]. lia.
Qed.

Lemma saves_with_one_url_leave_one_row_witness :
  let E := test_env page_ok no_fault parses 0 in
  let run := for_each ([engineer] ++ [engineer_reposted]) 0 (fun saved_count job =>
               (saved <~ save_job E job ;
                ret (if saved : bool then saved_count + 1 else saved_count))%M)
               empty_world in
  fst run = Ok 2
  ∧ filter (fun r => url r = "http://acme/jobs/1"%string) (jobs_table (snd run))
    = [stored engineer_reposted].
Proof.
  intros E.
  apply (saves_with_one_url_leave_one_row E [engineer] engineer_reposted
           "http://acme/jobs/1" 0 empty_world).
  - intros k. reflexivity.
  - intros j Hj. apply elem_of_cons in Hj as [->|Hj]; [reflexivity|].
    apply list_elem_of_singleton in Hj as ->. reflexivity.
  - intros j Hj. apply elem_of_cons in Hj as [->|Hj]; [reflexivity|].
    apply list_elem_of_singleton in Hj as ->. reflexivity.
Defined.


(* ===================================================================== *)
(** ** Scrape sessions *)
(* ===================================================================== *)

Lemma log_scrape_session_run E a b c d e f g h w :
  log_scrape_session E a b c d e f g h w
  = (Ok tt,
     if db_fault E (n_db w) then set_n_db (S (n_db w)) w
     else set_scrape_logs (scrape_logs w ++ [mkLog a b c d e f g h])
                          (set_n_db (S (n_db w)) w)).
Proof.
  unfold log_scrape_session, sqlite_exec. unfold_m. cbn.
  by destruct (db_fault E (n_db w)).
Qed.

Lemma datetime_now_run E w :
  datetime_now E w
  = (Ok (isoformat E (clock w + 0 + Z.of_N (lag E (n_clock w)))),
     set_time (clock w + 0 + Z.of_N (lag E (n_clock w))) (S (n_clock w)) w).
Proof. reflexivity. Qed.

Lemma save_loop_preserves E jobs acc :
  preserves same_logs
    (for_each jobs acc (fun saved_count job =>
       (saved <~ save_job E job ;
        ret (if saved : bool then saved_count + 1 else saved_count))%M))
  ∧ preserves clock_le
    (for_each jobs acc (fun saved_count job =>
       (saved <~ save_job E job ;
        ret (if saved : bool then saved_count + 1 else saved_count))%M)).
Proof.
  split; apply preserves_for_each; try typeclasses eauto; intros a j;
    destruct (save_job_preserves E j); frame.
Qed.

Lemma scrape_company_session E c w :
  ∃ jobs w' row,
    scrape_company E c w = (Ok jobs, w') ∧
    (scrape_logs w' = scrape_logs w ++ [row] ∨ scrape_logs w' = scrape_logs w) ∧
    ((∀ k, db_fault E k = false) → scrape_logs w' = scrape_logs w ++ [row]) ∧
    session_row_ok E c w jobs row.
Proof.
  unfold scrape_company. unfold bind at 1. rewrite time_time_run.
  set (w1 := set_time _ _ w). set (start_time := clock w + 0 + Z.of_N (lag E (n_clock w))).
  assert (Hstart : clock w <= start_time) by (subst start_time; lia).
  assert (Hw1 : scrape_logs w1 = scrape_logs w ∧ clock w1 = start_time) by done.
  destruct Hw1 as [Hl1 Hc1].
  unfold bind at 1. unfold try_ at 1.
  match goal with |- context [?blk w1] =>
    match blk with bind (fetch_page _ _ _) _ =>
      assert (Hblk : preserves same_logs blk ∧ preserves clock_le blk);
      [|destruct (blk w1) as [r w2] eqn:Hrun] end end.
  { destruct (fetch_page_preserves E (career_url c) (name c)) as (? & _ & ?).
    split; apply preserves_bind; try typeclasses eauto; try assumption;
      intros html; destruct (PyStr.truthy html);
      solve [apply extract_jobs_generic_preserves
            | apply preserves_raise; typeclasses eauto]. }
  destruct Hblk as [Hbl Hbc]. specialize (Hbl w1). specialize (Hbc w1).
  rewrite Hrun in Hbl, Hbc. cbn [snd] in Hbl, Hbc.
  unfold same_logs in Hbl. unfold clock_le in Hbc.
  destruct r as [jobs|e].
  - unfold bind at 1. unfold try_ at 1. unfold bind at 1.
    destruct (save_all_returns E jobs 0 w2) as (n & w3 & Hsave).
    destruct (save_loop_preserves E jobs 0) as [Hsl Hsc].
    specialize (Hsl w2). specialize (Hsc w2). rewrite Hsave in Hsl, Hsc |- *.
    cbn [snd] in Hsl, Hsc. unfold same_logs in Hsl. unfold clock_le in Hsc.
    rewrite bind_eq, time_time_run, bind_eq, datetime_now_run.
    rewrite log_scrape_session_run. unfold ret.
    cbn [n_db clock n_clock set_time scrape_logs].
    eexists jobs, _, _. split; [reflexivity|].
    assert (Hlogs : scrape_logs w3 = scrape_logs w) by congruence.
    split; [|split].
    + destruct (db_fault E (n_db w3)); cbn; rewrite ?Hlogs; [by right|by left].
    + intros Hok. rewrite Hok. cbn. by rewrite Hlogs.
    + unfold session_row_ok. cbn. split; [done|]. split; [done|].
      split; [|by left]. eexists _, _. split; [reflexivity|].
      split; [reflexivity|]. lia.
  - unfold scrape_failed. rewrite bind_eq, time_time_run, bind_eq, datetime_now_run.
    rewrite bind_eq, log_scrape_session_run. unfold ret.
    cbn [n_db clock n_clock set_time scrape_logs].
    eexists [], _, _. split; [reflexivity|].
    split; [|split].
    + destruct (db_fault E (n_db w2)); cbn; rewrite ?Hbl, ?Hl1; [by right|by left].
    + intros Hok. rewrite Hok. cbn. by rewrite Hbl, Hl1.
    + unfold session_row_ok. cbn. split; [done|]. split; [done|].
      split; [|right; eauto]. eexists _, _. split; [reflexivity|].
      split; [reflexivity|]. lia.
Qed.

(** X19.  [scrape_company] never raises and logs at most one session, exactly
    one when the database takes the write: a row for this target, which
    reports either success with the number of jobs extracted or failure
    with a message and no jobs.  Its two time stamps are the local-time
    renderings of two readings of the clock, the first taken when the scrape
    started and the second no earlier than the first plus the reported
    duration; nothing is said about the order of the rendered strings. *)
Theorem scrape_company_writes_one_session E (c : Company) (w : World) :
  ∃ jobs w' row,
    scrape_company E c w = (Ok jobs, w') ∧
    (scrape_logs w' = scrape_logs w ++ [row] ∨ scrape_logs w' = scrape_logs w) ∧
    ((∀ k, db_fault E k = false) → scrape_logs w' = scrape_logs w ++ [row]) ∧
    session_row_ok E c w jobs row.
Proof. apply scrape_company_session. Qed.

Lemma scrape_company_writes_one_session_witness :
  let E := test_env page_ok no_fault parses 0 in
  ∃ jobs w' row,
    scrape_company E acme empty_world = (Ok jobs, w') ∧
    scrape_logs w' = scrape_logs empty_world ++ [row] ∧
    log_company row = "Acme Corp"%string.
Proof.
  intros E.
  destruct (scrape_company_writes_one_session E acme empty_world)
    as (jobs & w' & row & Hrun & _ & Hlog & Hrow & _).
  exists jobs, w', row. split; [exact Hrun|]. split; [|exact Hrow].
  apply Hlog. intros k. reflexivity.
Defined.

(** *** Tasks under any schedule *)

Lemma all_steps_bind R {A B} (c : Co A) (f : A → Co B) :
  all_steps R c → (∀ a, all_steps R (f a)) → all_steps R (co_bind c f).
Proof.
  intros Hc Hf. induction c as [[a|e]|step k IH|why k IH]; cbn in *; auto.
  intros w. destruct (Hc w). auto.
Qed.

Lemma all_steps_try R {A} (c : Co A) : all_steps R c → all_steps R (co_try c).
Proof.
  intros Hc. induction c as [r|step k IH|why k IH]; cbn in *; auto.
  intros w. destruct (Hc w). auto.
Qed.

Lemma all_steps_atomic R {A} (c : M A) : preserves R c → all_steps R (atomic c).
Proof. intros Hc w. split; [apply Hc|done]. Qed.

Ltac quiet_step :=
  first
    [ assumption
    | exact I
    | solve [auto 2]
    | apply all_steps_bind; [|intros ?]
    | apply all_steps_try
    | apply all_steps_atomic
    | match goal with
      | |- all_steps _ (match ?x with _ => _ end) => destruct x
      | |- all_steps _ (if ?x then _ else _) => destruct x
      end ].

Lemma task_sleep_quiet E who d : all_steps same_logs (Task.sleep E who d).
Proof. unfold Task.sleep, suspend. repeat quiet_step; frame. Qed.

Lemma task_fetch_page_quiet E url company :
  all_steps same_logs (Task.fetch_page E url company).
Proof.
  pose proof (task_sleep_quiet E) as Hsleep.
  assert (Hattempt : ∀ a p, all_steps same_logs (Task.fetch_attempt E url a p)).
  { intros a p.
    unfold Task.fetch_attempt, Task.wait_if_needed, Task.request, Task.session_get,
      suspend.
    repeat quiet_step;
      unfold resolve_proxy, get_next_proxy, get_headers, on_exception,
        mark_proxy_failed, time_time, random_choice, getitem, lift_result,
        the_pool, put_pool;
      frame. }
  unfold Task.fetch_page. generalize (seqZ 0 max_retries) (@None (option string)).
  intros attempts.
  induction attempts as [|a rest IH]; intros proxy; cbn [Task.fetch_loop];
    repeat quiet_step.
Qed.

Lemma owes_atomic n {A} (c : M A) :
  (∀ w, logs_row n w (snd (c w))) → owes n (atomic c).
Proof. intros Hc w. right. split; [apply Hc|done]. Qed.

Lemma owes_after_try n {A B} (c : Co A) (g : result A → Co B) :
  all_steps same_logs c → (∀ r, owes n (g r)) → owes n (co_bind (co_try c) g).
Proof.
  intros Hc Hg. induction c as [r|step k IH|why k IH]; cbn in *; auto.
  intros w. destruct (Hc w). left. auto.
Qed.

Lemma scrape_failed_logs E c start_time jobs e w :
  db_fault E (n_db w) = false →
  logs_row (name c) w (snd (scrape_failed E c start_time jobs e w)).
Proof.
  intros Hok. unfold scrape_failed.
  rewrite bind_eq, time_time_run, bind_eq, datetime_now_run.
  rewrite bind_eq, log_scrape_session_run. unfold ret.
  cbn [n_db set_time]. rewrite Hok. eexists. cbn. done.
Qed.

Lemma after_fetch_logs E c start_time html w :
  (∀ k, db_fault E k = false) →
  logs_row (name c) w (snd (Task.after_fetch E c start_time html w)).
Proof.
  intros Hok. unfold Task.after_fetch. rewrite bind_eq, try_eq.
  match goal with |- context [fst (?blk w)] =>
    assert (Hblk : preserves same_logs blk);
    [|specialize (Hblk w); destruct (blk w) as [r w1]] end.
  { apply preserves_bind; [typeclasses eauto|destruct html; frame|].
    intros h. destruct (PyStr.truthy h);
      [apply extract_jobs_generic_preserves|frame]. }
  cbn [fst snd] in *. unfold same_logs in Hblk.
  destruct r as [jobs|e].
  - rewrite bind_eq, try_eq, bind_eq.
    destruct (save_all_returns E jobs 0 w1) as (n & w3 & Hsave).
    destruct (save_loop_preserves E jobs 0) as [Hsl _].
    specialize (Hsl w1). rewrite Hsave in Hsl |- *. cbn [snd] in Hsl.
    unfold same_logs in Hsl.
    rewrite bind_eq, time_time_run, bind_eq, datetime_now_run.
    rewrite log_scrape_session_run. cbn [fst snd n_db set_time]. rewrite Hok.
    unfold ret. cbn. eexists. split; [by rewrite Hsl, Hblk|done].
  - destruct (scrape_failed_logs E c start_time [] e w1 (Hok _)) as (row & Hrow & Hn).
    exists row. split; [by rewrite Hrow, Hblk|done].
Qed.

Lemma task_scrape_company_owes E c :
  (∀ k, db_fault E k = false) → owes (name c) (Task.scrape_company E c).
Proof.
  intros Hok. unfold Task.scrape_company. intros w. left.
  split; [done|]. cbn [fst time_time]. 
  apply owes_after_try; [apply task_fetch_page_quiet|].
  intros r. apply owes_atomic. intros w1. by apply after_fetch_logs.
Qed.

Lemma resume_quiet {A} (c : Co A) w :
  all_steps same_logs c →
  all_steps same_logs (fst (resume c w)) ∧ same_logs w (snd (resume c w)).
Proof.
  revert w. induction c as [r|step k IH|why k IH]; intros w Hc; cbn in *.
  - done.
  - destruct (Hc w) as [Hs Hk]. destruct (IH w (step w) Hk) as [H1 H2].
    split; [done|]. unfold same_logs in *. congruence.
  - done.
Qed.

Lemma resume_owes n {A} (c : Co A) w :
  owes n c →
  (owes n (fst (resume c w)) ∧ same_logs w (snd (resume c w)))
  ∨ (all_steps same_logs (fst (resume c w)) ∧ logs_row n w (snd (resume c w))).
Proof.
  revert w. induction c as [r|step k IH|why k IH]; intros w Hc; cbn in *.
  - done.
  - destruct (Hc w) as [[Hs Hk]|[(row & Hrow & Hn) Hk]].
    + destruct (IH w (step w) Hk) as [[H1 H2]|[H1 (row & Hrow & Hn)]].
      * left. split; [done|]. unfold same_logs in *. congruence.
      * right. split; [done|]. exists row. unfold same_logs in *.
        split; [congruence|done].
    + destruct (resume_quiet (k w) (step w) Hk) as [H1 H2].
      right. split; [done|]. exists row. unfold same_logs in *.
      split; [congruence|done].
  - left. done.
Qed.

Lemma run_alone_quiet {A} (c : Co A) w :
  all_steps same_logs c → same_logs w (snd (run_alone c w)).
Proof.
  unfold run_alone. revert w.
  induction c as [r|step k IH|why k IH]; intros w Hc; cbn in *.
  - done.
  - destruct (Hc w) as [Hs Hk]. specialize (IH w (step w) Hk).
    unfold same_logs in *. congruence.
  - by apply IH.
Qed.

Lemma run_alone_owes n {A} (c : Co A) w :
  owes n c → logs_row n w (snd (run_alone c w)).
Proof.
  unfold run_alone. revert w.
  induction c as [r|step k IH|why k IH]; intros w Hc; cbn in *.
  - done.
  - destruct (Hc w) as [[Hs Hk]|[(row & Hrow & Hn) Hk]].
    + destruct (IH w (step w) Hk) as (row & Hrow & Hn).
      exists row. unfold same_logs in *. split; [congruence|done].
    + pose proof (run_alone_quiet (k w) (step w) Hk) as Hq.
      exists row. unfold run_alone, same_logs in *. split; [congruence|done].
  - by apply IH.
Qed.

Lemma paid_permutation (sts : list (option string)) (i : nat) (n : string) :
  sts !! i = Some (Some n) →
  n :: omap id (<[i := None]> sts) ≡ₚ omap id sts.
Proof.
  revert i. induction sts as [|st sts IH]; intros [|i] Hi; cbn in *; try done.
  - by injection Hi as ->.
  - destruct st as [m|]; cbn.
    + rewrite Permutation_swap. by rewrite (IH i Hi).
    + by apply IH.
Qed.

Lemma interleave_states {A} (sched : list nat) : ∀ (tasks : list (Co A)) sts w,
  Forall2 task_state tasks sts →
  ∃ sts' rows,
    Forall2 task_state (fst (interleave sched tasks w)) sts' ∧
    scrape_logs (snd (interleave sched tasks w)) = scrape_logs w ++ rows ∧
    map log_company rows ++ omap id sts' ≡ₚ omap id sts.
Proof.
  induction sched as [|i sched IH]; intros tasks sts w Hst; cbn [interleave].
  - exists sts, []. cbn. by rewrite app_nil_r.
  - destruct (tasks !! i) as [c|] eqn:Hc; [|by apply IH].
    destruct (Forall2_lookup_l _ _ _ _ _ Hst Hc) as (st & Hsti & Hci).
    cbn zeta. destruct st as [n|]; cbn [task_state] in Hci.
    + destruct (resume_owes n c w Hci) as [[Ho Hl]|[Hq (row & Hrow & Hn)]].
      * destruct (IH (<[i := fst (resume c w)]> tasks) sts (snd (resume c w)))
          as (sts' & rows & Hst' & Hlogs & Hperm).
        { rewrite <- (list_insert_id sts i (Some n)) by done.
          by apply Forall2_insert. }
        exists sts', rows. split; [done|]. split; [|done].
        unfold same_logs in Hl. by rewrite Hlogs, Hl.
      * destruct (IH (<[i := fst (resume c w)]> tasks) (<[i := None]> sts)
                    (snd (resume c w)))
          as (sts' & rows & Hst' & Hlogs & Hperm).
        { by apply Forall2_insert. }
        exists sts', (row :: rows). split; [done|]. split.
        { by rewrite Hlogs, Hrow, <- app_assoc. }
        cbn [map app]. rewrite Hn, Hperm. by apply paid_permutation.
    + destruct (resume_quiet c w Hci) as [Hq Hl].
      destruct (IH (<[i := fst (resume c w)]> tasks) sts (snd (resume c w)))
        as (sts' & rows & Hst' & Hlogs & Hperm).
      { rewrite <- (list_insert_id sts i None) by done.
        by apply Forall2_insert. }
      exists sts', rows. split; [done|]. split; [|done].
      unfold same_logs in Hl. by rewrite Hlogs, Hl.
Qed.

Lemma finish_all_states {A} (tasks : list (Co A)) sts : ∀ w,
  Forall2 task_state tasks sts →
  ∃ rows,
    scrape_logs (snd (finish_all tasks w)) = scrape_logs w ++ rows ∧
    map log_company rows = omap id sts.
Proof.
  intros w Hst. revert w.
  induction Hst as [|c st tasks sts Hc _ IH]; intros w; cbn [finish_all].
  - exists []. cbn. by rewrite app_nil_r.
  - rewrite bind_eq, try_eq.
    destruct (IH (snd (run_alone c w))) as (rows & Hrows & Hnames).
    assert (Hsnd : ∀ r, snd (bind (finish_all tasks)
                               (λ rs, ret (r :: rs)) (snd (run_alone c w)))
                        = snd (finish_all tasks (snd (run_alone c w)))).
    { intros r. rewrite bind_eq.
      by destruct (finish_all tasks (snd (run_alone c w))) as [[rs|e] w2]. }
    rewrite Hsnd, Hrows.
    destruct st as [n|]; cbn [task_state] in Hc.
    + destruct (run_alone_owes n c w Hc) as (row & Hrow & Hn).
      exists (row :: rows). split; [by rewrite Hrow, <- app_assoc|].
      cbn. by rewrite Hn, Hnames.
    + pose proof (run_alone_quiet c w Hc) as Hq. unfold same_logs in Hq.
      exists rows. split; [by rewrite Hq|]. by cbn.
Qed.

Lemma scrape_tasks_owe E (cs : list Company) :
  (∀ k, db_fault E k = false) →
  Forall2 task_state (map (Task.scrape_company E) cs) (map (Some ∘ name) cs).
Proof.
  intros Hok. induction cs as [|c cs IH]; cbn; constructor; [|done].
  by apply task_scrape_company_owes.
Qed.

Lemma omap_some_names (cs : list Company) :
  omap id (map (Some ∘ name) cs) = map name cs.
Proof. induction cs as [|c cs IH]; cbn; [done|]. by rewrite IH. Qed.

(** X20.  With a working database, [scrape_all_companies] appends one
    session row per configured target, whatever the order in which the
    event loop runs the tasks; when every task runs to its end before the
    next one starts, the rows are in the order of the configuration. *)
Theorem scrape_all_logs_every_target E (cs : list Company) (w : World) :
  (∀ k, db_fault E k = false) →
  ∃ rows,
    scrape_logs (snd (Task.scrape_all_companies E cs w)) = scrape_logs w ++ rows
    ∧ map log_company rows ≡ₚ map name cs
    ∧ (schedule E = [] → map log_company rows = map name cs).
Proof.
  intros Hok. unfold Task.scrape_all_companies, Task.gather.
  pose proof (scrape_tasks_owe E cs Hok) as Hst.
  destruct (interleave_states (schedule E) _ _ w Hst)
    as (sts' & rows1 & Hst' & Hlogs1 & Hperm).
  destruct (finish_all_states _ _ (snd (interleave (schedule E)
              (map (Task.scrape_company E) cs) w)) Hst')
    as (rows2 & Hlogs2 & Hnames2).
  assert (Hsnd : ∀ {A B} (c : M A) (f : A → B) w0,
            scrape_logs (snd (bind c (λ a, ret (f a)) w0)) = scrape_logs (snd (c w0))).
  { intros A B c f w0. rewrite bind_eq. by destruct (c w0) as [[a|e] w1]. }
  exists (rows1 ++ rows2). split; [|split].
  - rewrite Hsnd. cbn zeta. by rewrite Hlogs2, Hlogs1, <- app_assoc.
  - rewrite map_app, Hnames2, Hperm. by rewrite omap_some_names.
  - intros Hs. rewrite Hs in *. cbn [interleave fst snd] in *.
    assert (rows1 = []) as ->.
    { apply (f_equal length) in Hlogs1. rewrite length_app in Hlogs1.
      destruct rows1; [done|]. cbn in Hlogs1. lia. }
    cbn [app]. rewrite Hnames2.
    assert (Hlen : length sts' = length cs).
    { apply Forall2_length in Hst'. by rewrite length_map in Hst'. }
    cbn in Hperm. 
    destruct (finish_all_states _ _ w Hst) as (rows & Hrows & Hnames).
    rewrite Hrows in Hlogs2. apply app_inv_head in Hlogs2. subst rows2.
    rewrite <- Hnames2, Hnames. apply omap_some_names.
Qed.

Lemma scrape_all_logs_every_target_witness :
  let E := with_schedule [0; 1; 1; 0; 1]%nat (test_env page_ok no_fault parses 0) in
  ∃ rows, scrape_logs (snd (Task.scrape_all_companies E [acme; google] empty_world))
          = scrape_logs empty_world ++ rows
          ∧ map log_company rows ≡ₚ ["Acme Corp"; "Google"]%string.
Proof.
  intros E.
  destruct (scrape_all_logs_every_target E [acme; google] empty_world)
    as (rows & Hrows & Hperm & _).
  - intros k. reflexivity.
  - exists rows. split; [exact Hrows|exact Hperm].
Defined.

(* ===================================================================== *)
(** ** Extraction *)
(* ===================================================================== *)

Lemma take_length (n : nat) (s : string) : (String.length (PyStr.take n s) <= n)%nat.
Proof.
  revert s. induction n as [|n IH]; intros s; [done|].
  destruct s as [|c s]; cbn; [lia|]. specialize (IH s). lia.
Qed.

Lemma extract_one_post E container c w :
  match extract_one E container c w with
  | (Ok job, _) => job_ok E c job
  | (Raise _, _) => True
  end.
Proof.
  unfold extract_one.
  pose proof (take_length 1000) as Hcut.
  set (cut := PyStr.take 1000) in *. clearbody cut.
  unfold text_or, lift_result, datetime_now, time_time, advance,
    modify, get_world, bind, ret, raise.
  repeat (match goal with
          | |- context [bs_select_one E ?a ?b] =>
              destruct (bs_select_one E a b) as [[?|]|?]
          end; lazy beta iota zeta; try done);
    (match goal with
     | |- context [Salary.extract_salary ?x] =>
         destruct (extract_salary_total x) as [Hs|(lo & hi & Hs & Hlo & Hhi)];
         rewrite Hs
     end; lazy beta iota zeta; unfold job_ok;
     lazy beta iota delta
       [company id_ title location description employment_type requirements
        benefits posted_date scraped_at salary_min salary_max fst snd
        clock set_time];
     (split; [done|]); (split; [done|]); (split; [apply Hcut|]);
     (split; [done|]); (split; [done|]); (split; [done|]);
     (split; [eexists _, _; split; [reflexivity|]; split; [reflexivity|];
              cbn [clock n_clock set_time]; lia|]);
     [by left | right; by exists lo, hi]).
Qed.

Lemma extract_one_fields E container c w job w' :
  extract_one E container c w = (Ok job, w') → job_ok E c job.
Proof.
  intros H. pose proof (extract_one_post E container c w) as Hp.
  by rewrite H in Hp.
Qed.

Lemma for_each_invariant {A B} (P : B → Prop) (body : B → A → M B) (xs : list A) :
  (∀ acc x w acc' w', P acc → body acc x w = (Ok acc', w') → P acc') →
  ∀ acc w r w', P acc → for_each xs acc body w = (Ok r, w') → P r.
Proof.
  intros Hstep. induction xs as [|x xs IH]; intros acc w r w' Hacc; cbn [for_each].
  - by intros [= <- <-].
  - unfold bind at 1. destruct (body acc x w) as [[acc1|e] w1] eqn:Hb; [|done].
    apply IH. eapply Hstep; eauto.
Qed.

Lemma extract_step_run E c jobs container w :
  extract_step E c jobs container w
  = match extract_one E container c w with
    | (Ok job, w') => (Ok (jobs ++ [job]), w')
    | (Raise _, w') => (Ok jobs, w')
    end.
Proof.
  unfold extract_step, bind, try_, ret.
  by destruct (extract_one E container c w) as [[job|e] w'].
Qed.

Lemma extract_loop_total E c (cs : list element) (acc : list Job) (w : World) :
  ∃ new w', for_each cs acc (extract_step E c) w = (Ok (acc ++ new), w')
            ∧ (length new <= length cs)%nat
            ∧ ∀ job, job ∈ new → job_ok E c job.
Proof.
  revert acc w. induction cs as [|x cs IH]; intros acc w; cbn [for_each].
  - exists [], w. rewrite app_nil_r. unfold ret. split; [done|]. split; [done|].
    intros job Hin. by apply elem_of_nil in Hin.
  - unfold bind. rewrite extract_step_run.
    pose proof (extract_one_post E x c w) as Hpost.
    destruct (extract_one E x c w) as [[job|e] w1].
    + destruct (IH (acc ++ [job]) w1) as (new & w' & -> & Hlen & Hok).
      exists (job :: new), w'. rewrite <- app_assoc. split; [done|].
      split; [cbn; lia|]. intros j Hj. apply elem_of_cons in Hj as [->|Hj]; auto.
    + destruct (IH acc w1) as (new & w' & -> & Hlen & Hok).
      exists new, w'. split; [done|]. split; [cbn [length]; lia|done].
Qed.

Lemma extract_jobs_generic_run E html c w :
  extract_jobs_generic E html c w
  = match bs_parse E html with
    | Raise e => (Raise e, w)
    | Ok soup =>
        match bs_select E soup
                (selector c "job_container" ".job, .position, .opening") with
        | Raise _ => (Ok [], w)
        | Ok containers => for_each containers [] (extract_step E c) w
        end
    end.
Proof.
  unfold extract_jobs_generic. unfold bind at 1.
  destruct (bs_parse E html) as [soup|e]; [|done]. cbn [lift_result].
  unfold ret at 1. unfold bind at 1. unfold try_ at 1. unfold bind at 1.
  destruct (bs_select E soup _) as [cs|e]; cbn [lift_result]; [|done].
  unfold ret at 1. change (for_each cs [] _ w) with (for_each cs [] (extract_step E c) w).
  by destruct (extract_loop_total E c cs [] w) as (new & w' & -> & _).
Qed.

(** X21.  Every job that [extract_jobs_generic] returns belongs to the target,
    carries the id made from its own title and location, a description of at
    most 1000 characters, no employment type, requirements or benefits, a
    posting time and a scrape time that render two readings of the clock,
    the first not after the second, and a salary that is either absent or
    complete and non-negative. *)
Theorem extracted_jobs_are_well_formed E (html : string) (c : Company)
        (w w' : World) (jobs : list Job) :
  extract_jobs_generic E html c w = (Ok jobs, w') →
  ∀ job, job ∈ jobs → job_ok E c job.
Proof.
  rewrite extract_jobs_generic_run.
  destruct (bs_parse E html) as [soup|e]; [|done].
  destruct (bs_select E soup _) as [cs|e].
  - destruct (extract_loop_total E c cs [] w) as (new & w1 & -> & _ & Hok).
    by intros [= <- <-].
  - intros [= <- <-] job Hin. by apply elem_of_nil in Hin.
Qed.

Lemma extracted_jobs_are_well_formed_witness :
  let E := test_env page_ok no_fault parses 0 in
  ∃ job, fst (extract_jobs_generic E "<html>" google empty_world) = Ok [job]
         ∧ job_ok E google job.
Proof.
  intros E. eexists. split; [vm_compute; reflexivity|].
  match goal with |- job_ok _ _ ?j =>
    apply (extracted_jobs_are_well_formed E "<html>" google empty_world
             (snd (extract_jobs_generic E "<html>" google empty_world)) [j])
  end.
  - vm_compute. reflexivity.
  - apply list_elem_of_singleton. reflexivity.
Defined.

(** X22.  [extract_jobs_generic] raises exactly when the parse of the page
    raises.  A failing query for the containers gives the empty list and
    changes nothing; otherwise there are at most as many jobs as containers. *)
Theorem extraction_fails_only_on_parse E (html : string) (c : Company) (w : World) :
  (∀ e, fst (extract_jobs_generic E html c w) = Raise e ↔ bs_parse E html = Raise e)
  ∧ (∀ soup e, bs_parse E html = Ok soup →
       bs_select E soup (selector c "job_container" ".job, .position, .opening")
       = Raise e →
       extract_jobs_generic E html c w = (Ok [], w))
  ∧ (∀ soup containers,
       bs_parse E html = Ok soup →
       bs_select E soup (selector c "job_container" ".job, .position, .opening")
       = Ok containers →
       ∃ jobs w', extract_jobs_generic E html c w = (Ok jobs, w')
                  ∧ (length jobs <= length containers)%nat).
Proof.
  rewrite extract_jobs_generic_run.
  destruct (bs_parse E html) as [soup|e0].
  2:{ split; [|split]; [|done|done]. intros e. cbn. split; congruence. }
  destruct (bs_select E soup _) as [cs|e1] eqn:Hsel.
  - destruct (extract_loop_total E c cs [] w) as (new & w1 & -> & Hlen & _).
    split; [intros e; cbn; split; congruence|].
    split; [intros ?? [= <-]; congruence|].
    intros soup' cs' [= <-] Hcs. rewrite Hsel in Hcs. injection Hcs as <-.
    by exists new, w1.
  - split; [intros e; cbn; split; congruence|]. split; [done|].
    intros ?? [= <-]; congruence.
Qed.

Lemma extraction_fails_only_on_parse_witness :
  fst (extract_jobs_generic (test_env page_ok no_fault parse_error 0) "<html>" acme
                            empty_world) = Raise (OtherError "parser error")
  ∧ extract_jobs_generic markup_env "<garbled>" acme empty_world = (Ok [], empty_world)
  ∧ ∃ jobs w', extract_jobs_generic markup_env "<html>" acme empty_world = (Ok jobs, w')
               ∧ (length jobs <= 3)%nat.
Proof.
  split; [|split].
  - apply (proj1 (extraction_fails_only_on_parse
                    (test_env page_ok no_fault parse_error 0) "<html>" acme empty_world)).
    reflexivity.
  - apply (proj1 (proj2 (extraction_fails_only_on_parse markup_env "<garbled>" acme
                           empty_world))
             "<garbled>"%string (OtherError "Invalid selector")); reflexivity.
  - apply (proj2 (proj2 (extraction_fails_only_on_parse markup_env "<html>" acme
                           empty_world))
             "<html>"%string ["<div class=job>"; "<broken>"; "<div class=job>"]%string);
      reflexivity.
Defined.

Lemma extract_one_raise E container c w e :
  fst (extract_one E container c w) = Raise e →
  ∀ w0, extract_one E container c w0 = (Raise e, w0).
Proof.
  unfold extract_one, text_or, lift_result, datetime_now, time_time, advance,
    modify, get_world, bind, ret, raise.
  repeat (match goal with
          | |- context [bs_select_one E ?a ?b] =>
              destruct (bs_select_one E a b) as [[?|]|?]
          end; lazy beta iota zeta; try done);
    try (by intros [= <-]);
    (match goal with
     | |- context [Salary.extract_salary ?x] =>
         destruct (Salary.extract_salary x) as [?|?]
     end; lazy beta iota zeta; [done|by intros [= <-]]).
Qed.

(** X23.  A container whose extraction raises is skipped without a trace: the
    loop over the containers behaves as if it were not there. *)
Theorem failing_container_is_skipped E (c : Company) (bad : element) (e : exn)
        (w0 : World) :
  fst (extract_one E bad c w0) = Raise e →
  ∀ before after acc w,
    for_each (before ++ bad :: after) acc (extract_step E c) w
    = for_each (before ++ after) acc (extract_step E c) w.
Proof.
  intros Hbad before after. induction before as [|x xs IH]; intros acc w.
  - cbn [app for_each]. unfold bind at 1. rewrite extract_step_run.
    by rewrite (extract_one_raise E bad c w0 e Hbad w).
  - cbn [app for_each]. unfold bind.
    destruct (extract_step E c acc x w) as [[acc1|e1] w1]; [apply IH|done].
Qed.

Lemma failing_container_is_skipped_witness :
  for_each (["<div class=job>"%string] ++ "<broken>"%string :: ["<div class=job>"%string])
           [] (extract_step markup_env acme) empty_world
  = for_each (["<div class=job>"%string] ++ ["<div class=job>"%string])
             [] (extract_step markup_env acme) empty_world.
Proof.
  apply (failing_container_is_skipped markup_env acme "<broken>"
           (OtherError "Invalid selector") empty_world).
  reflexivity.
Defined.

(** X24.  A container in which no selector finds anything still gives a job:
    titled and located Unknown, with an empty description, the career page as
    its url and no salary, hence with the same id as every other such job of
    the target. *)
Theorem bare_container_gets_defaults E (container : element) (c : Company)
        (w : World) :
  (∀ sel, bs_select_one E container sel = Ok None) →
  ∃ job w', extract_one E container c w = (Ok job, w')
    ∧ title job = "Unknown"%string ∧ location job = "Unknown"%string
    ∧ description job = ""%string ∧ url job = career_url c
    ∧ salary_min job = None ∧ salary_max job = None
    ∧ id_ job = job_id (hash_secret E) (name c) "Unknown" "Unknown".
Proof.
  intros Hnone.
  unfold extract_one, text_or, lift_result, datetime_now, time_time, advance,
    modify, get_world, bind, ret, raise.
  rewrite !Hnone. lazy beta iota zeta.
  change (Salary.extract_salary "") with (@Ok (option Z * option Z) (None, None)).
  lazy beta iota zeta. eexists _, _. split; [reflexivity|]. by repeat split.
Qed.

Lemma bare_container_gets_defaults_witness :
  let E := test_env page_ok no_fault parses 0 in
  ∃ job w', extract_one E "<div class=job>" acme empty_world = (Ok job, w')
    ∧ title job = "Unknown"%string ∧ url job = "http://acme/careers"%string.
Proof.
  intros E.
  destruct (bare_container_gets_defaults E "<div class=job>" acme empty_world)
    as (job & w' & Hrun & Ht & _ & _ & Hu & _).
  - intros sel. reflexivity.
  - by exists job, w'.
Defined.


(* ===================================================================== *)
(** ** Construction, proxy addresses and empty pages *)
(* ===================================================================== *)

(** X25.  A new scraper has no pool when [proxies] is [None] or empty; otherwise
    a pool over the given list with every proxy active, proxy 0 current and the
    rotation stamped with the time of construction.  Either way the pool
    invariant holds, no request time is recorded and the rows of the database
    are kept. *)
Theorem JobScraper_init_spec E (ps : option (list ProxyConfig)) (w : World) :
  ∃ w', JobScraper_init E ps w = (Ok tt, w') ∧
        pool_ok w' ∧ request_times w' = ∅ ∧ timers_behind w' ∧
        jobs_table w' = jobs_table w ∧ scrape_logs w' = scrape_logs w ∧
        match ps with
        | Some (p :: ps') =>
            ∃ pm, proxy_manager w' = Some pm ∧ proxies pm = p :: ps' ∧
                  failed_proxies pm = ∅ ∧ current_proxy pm ∈ active_proxies pm ∧
                  last_rotation pm = clock w' ∧ clock w <= clock w'
        | _ => proxy_manager w' = None ∧ clock w' = clock w
        end.
Proof.
  assert (Hbehind : ∀ w0, request_times w0 = ∅ → timers_behind w0).
  { intros w0 H0 d t Hd. rewrite H0 in Hd. by rewrite lookup_empty in Hd. }
  destruct ps as [[|p ps']|].
  - eexists. split; [reflexivity|]. cbn. split; [done|]. split; [done|].
    split; [by apply Hbehind|]. done.
  - destruct (new_pool_inv E (p :: ps') w) as (pm & Hpm & Hps & Hinv).
    unfold JobScraper_init. unfold new_pool in Hpm.
    unfold bind at 1.
    destruct (bind (ProxyManager_init E (p :: ps')) put_pool w) as [[[]|e] w1] eqn:Hrun;
      cbn [snd] in Hpm.
    2:{ revert Hrun. unfold ProxyManager_init. unfold_m. done. }
    eexists. split; [reflexivity|]. cbn [modify snd fst].
    assert (Hw1 : jobs_table w1 = jobs_table w ∧ scrape_logs w1 = scrape_logs w
                  ∧ last_rotation pm = clock w1 ∧ clock w <= clock w1
                  ∧ failed_proxies pm = ∅
                  ∧ active_proxies pm
                    = list_to_set (seqZ 0 (Z.of_nat (length (p :: ps'))))
                  ∧ current_proxy pm = 0).
    { revert Hrun Hpm. unfold ProxyManager_init. unfold_m. cbn.
      intros [= <-]. cbn. intros [= <-]. cbn. repeat split; try done. lia. }
    destruct Hw1 as (Hj & Hl & Hrot & Hclk & Hf & Ha & Hcur).
    split; [unfold pool_ok; cbn; by rewrite Hpm|]. split; [done|].
    split; [by apply Hbehind|]. split; [done|]. split; [done|].
    exists pm. split; [done|]. split; [done|]. split; [done|].
    split; [|done]. rewrite Ha, Hcur. apply elem_of_list_to_set, elem_of_seqZ.
    cbn [length]. lia.
  - eexists. split; [reflexivity|]. cbn. split; [done|]. split; [done|].
    split; [by apply Hbehind|]. done.
Qed.

(** X26.  A proxy with only one of user name and password, or with an empty
    one, is addressed without credentials: the half that was given is dropped. *)
Theorem proxy_url_drops_partial_credentials (p : ProxyConfig) :
  PyStr.truthy (username p) = false ∨ PyStr.truthy (password p) = false →
  proxy_url p = proxy_url (mkProxy (host p) (port p) None None (protocol p)).
Proof.
  intros H. unfold proxy_url. cbn [username password host port protocol PyStr.truthy andb].
  destruct H as [-> | ->]; [done|]. by rewrite andb_false_r.
Qed.

Lemma proxy_url_drops_partial_credentials_witness :
  proxy_url (mkProxy "10.0.0.1" 8080 (Some "alice"%string) None "http")
  = proxy_url one_proxy.
Proof.
  apply (proxy_url_drops_partial_credentials
           (mkProxy "10.0.0.1" 8080 (Some "alice"%string) None "http")).
  right. reflexivity.
Defined.

#[global] Instance same_n_db_preorder : PreOrder same_n_db.
Proof. split; [done|]. intros x y z. unfold same_n_db. congruence. Qed.

Lemma fetch_page_keeps_n_db E url company : preserves same_n_db (fetch_page E url company).
Proof.
  assert (Hatt : ∀ a p, preserves same_n_db (fetch_attempt E url a p)).
  { intros a p.
    unfold fetch_attempt, wait_if_needed, resolve_proxy, get_next_proxy, request,
      get_headers, session_get, on_exception, mark_proxy_failed, time_time, sleep,
      advance, random_choice, getitem, lift_result, the_pool, put_pool.
    frame. }
  unfold fetch_page. generalize (seqZ 0 max_retries) (@None (option string)).
  intros attempts.
  induction attempts as [|a rest IH]; intros proxy; cbn [fetch_loop];
    unfold sleep, advance; frame.
Qed.

Lemma fetch_page_first_ok E url company w body d :
  netloc E url = Ok d →
  pool_ok w → http E (n_http w) = Ok (mkResponse 200 body) →
  ∃ w', fetch_page E url company w = (Ok (Some body), w') ∧
        n_http w' = S (n_http w).
Proof.
  intros Hnet Hok Hbody. unfold fetch_page.
  change (seqZ 0 max_retries) with [0; 1; 2].
  rewrite fetch_loop_cons.
  destruct (fetch_attempt_spec E url 0 None w d Hok Hnet)
    as (w1 & rl0 & t0 & p0 & Hrun0 & Hok1 & Hn1 & Hrl0 & Htr1).
  rewrite Hrun0. rewrite Hbody. cbn [attempt_result status text].
  cbn [Z.eqb Pos.eqb]. exists w1. split; [done|]. rewrite Hn1. lia.
Qed.

(** X27.  A career page, at a url that [urlparse] accepts, that answers 200
    with an empty body is treated as a failed fetch: one request is made, no
    job is returned or stored, and the session is logged as failed with the
    message of a fetch failure. *)
Theorem empty_page_is_a_failed_scrape E (c : Company) (w : World) (d : string) :
  netloc E (career_url c) = Ok d →
  pool_ok w →
  http E (n_http w) = Ok (mkResponse 200 "") →
  ∃ w' row,
    scrape_company E c w = (Ok [], w') ∧
    n_http w' = S (n_http w) ∧
    jobs_table w' = jobs_table w ∧
    log_status row = "failed"%string ∧
    log_error_message row = Some "Failed to fetch career page"%string ∧
    log_jobs_found row = 0 ∧
    (db_fault E (n_db w) = false → scrape_logs w' = scrape_logs w ++ [row]).
Proof.
  intros Hnet Hok Hbody. unfold scrape_company. unfold bind at 1.
  rewrite time_time_run. set (w1 := set_time _ _ w).
  assert (Hok1 : pool_ok w1) by exact Hok.
  assert (Hbody1 : http E (n_http w1) = Ok (mkResponse 200 "")) by exact Hbody.
  destruct (fetch_page_first_ok E (career_url c) (name c) w1 "" d Hnet Hok1 Hbody1)
    as (w2 & Hrun & Hn).
  destruct (fetch_page_preserves E (career_url c) (name c)) as (Hl & Hj & _).
  specialize (Hl w1). specialize (Hj w1). rewrite Hrun in Hl, Hj.
  cbn [snd] in Hl, Hj. unfold same_logs in Hl. unfold same_jobs in Hj.
  assert (Hdb : n_db w2 = n_db w).
  { pose proof (fetch_page_keeps_n_db E (career_url c) (name c) w1) as H.
    by rewrite Hrun in H. }
  unfold bind at 1. unfold try_ at 1. unfold bind at 1. rewrite Hrun.
  cbn [PyStr.truthy]. unfold raise at 1.
  unfold scrape_failed. rewrite bind_eq, time_time_run, bind_eq, datetime_now_run.
  rewrite bind_eq, log_scrape_session_run. unfold ret.
  cbn [n_db clock n_clock set_time scrape_logs exn_str].
  eexists _, (mkLog _ _ _ _ _ _ _ _). split; [reflexivity|].
  rewrite Hdb. split.
  { destruct (db_fault E (n_db w)); cbn; exact Hn. }
  split.
  { destruct (db_fault E (n_db w)); cbn; exact Hj. }
  split; [reflexivity|]. split; [reflexivity|]. split; [reflexivity|].
  intros ->. cbn. by rewrite Hl.
Qed.

Lemma empty_page_is_a_failed_scrape_witness :
  let E := test_env (fun _ => Ok (mkResponse 200 "")) no_fault parses 0 in
  ∃ w' row,
    scrape_company E acme empty_world = (Ok [], w') ∧
    log_status row = "failed"%string ∧
    scrape_logs w' = scrape_logs empty_world ++ [row].
Proof.
  intros E.
  destruct (empty_page_is_a_failed_scrape E acme empty_world "http://acme/careers")
    as (w' & row & Hrun & _ & _ & Hst & _ & _ & Hlog).
  - reflexivity.
  - exact I.
  - reflexivity.
  - exists w', row. split; [exact Hrun|]. split; [exact Hst|].
    apply Hlog. reflexivity.
Defined.


(* ===================================================================== *)
(** ** The batch under any schedule *)
(* ===================================================================== *)

Lemma interleave_length {A} (sched : list nat) : ∀ (tasks : list (Co A)) w,
  length (fst (interleave sched tasks w)) = length tasks.
Proof.
  induction sched as [|i sched IH]; intros tasks w; cbn [interleave]; [done|].
  destruct (tasks !! i) as [c|]; cbn zeta; [|apply IH].
  by rewrite IH, length_insert.
Qed.

Section Steps.

Context (R : World → World → Prop) `{!PreOrder R}.

Lemma resume_all_steps {A} (c : Co A) w :
  all_steps R c → all_steps R (fst (resume c w)) ∧ R w (snd (resume c w)).
Proof.
  revert w. induction c as [r|step k IH|why k IH]; intros w Hc; cbn in *.
  - done.
  - destruct (Hc w) as [Hs Hk]. destruct (IH w (step w) Hk) as [H1 H2].
    split; [done|]. by etrans.
  - done.
Qed.

Lemma run_alone_all_steps {A} (c : Co A) w :
  all_steps R c → R w (snd (run_alone c w)).
Proof.
  unfold run_alone. revert w.
  induction c as [r|step k IH|why k IH]; intros w Hc; cbn in *.
  - done.
  - destruct (Hc w) as [Hs Hk]. etrans; [exact Hs|]. by apply IH.
  - by apply IH.
Qed.

Lemma interleave_all_steps {A} (sched : list nat) : ∀ (tasks : list (Co A)) w,
  Forall (all_steps R) tasks →
  Forall (all_steps R) (fst (interleave sched tasks w))
  ∧ R w (snd (interleave sched tasks w)).
Proof.
  induction sched as [|i sched IH]; intros tasks w Hall; cbn [interleave].
  - done.
  - destruct (tasks !! i) as [c|] eqn:Hc; [|by apply IH]. cbn zeta.
    destruct (resume_all_steps c w) as [H1 H2].
    { eapply Forall_lookup_1; eauto. }
    destruct (IH (<[i := fst (resume c w)]> tasks) (snd (resume c w))) as [H3 H4].
    { by apply Forall_insert. }
    split; [done|]. by etrans.
Qed.

Lemma finish_all_all_steps {A} (tasks : list (Co A)) : ∀ w,
  Forall (all_steps R) tasks →
  ∃ rs, fst (finish_all tasks w) = Ok rs ∧ length rs = length tasks
        ∧ R w (snd (finish_all tasks w)).
Proof.
  induction tasks as [|c tasks IH]; intros w Hall; cbn [finish_all].
  - by exists [].
  - apply Forall_cons in Hall as [Hc Hall].
    rewrite bind_eq, try_eq, bind_eq.
    pose proof (run_alone_all_steps c w Hc) as H1.
    destruct (IH (snd (run_alone c w)) Hall) as (rs & Hrs & Hlen & H2).
    destruct (finish_all tasks (snd (run_alone c w))) as [r w2].
    cbn [fst snd] in *. subst r. eexists. split; [reflexivity|].
    split; [cbn; by rewrite Hlen|]. by etrans.
Qed.

Lemma gather_all_steps E {A} (tasks : list (Co A)) w :
  Forall (all_steps R) tasks →
  ∃ rs, fst (Task.gather E tasks w) = Ok rs ∧ length rs = length tasks
        ∧ R w (snd (Task.gather E tasks w)).
Proof.
  intros Hall. unfold Task.gather. cbn zeta.
  destruct (interleave_all_steps (schedule E) tasks w Hall) as [H1 H2].
  destruct (finish_all_all_steps _ (snd (interleave (schedule E) tasks w)) H1)
    as (rs & Hrs & Hlen & H3).
  exists rs. split; [done|]. split; [|by etrans].
  by rewrite Hlen, interleave_length.
Qed.

End Steps.

Lemma finish_all_total {A} (tasks : list (Co A)) : ∀ w,
  ∃ rs, fst (finish_all tasks w) = Ok rs ∧ length rs = length tasks.
Proof.
  induction tasks as [|c tasks IH]; intros w; cbn [finish_all].
  - by exists [].
  - rewrite bind_eq, try_eq, bind_eq.
    destruct (IH (snd (run_alone c w))) as (rs & Hrs & Hlen).
    destruct (finish_all tasks (snd (run_alone c w))) as [r w2].
    cbn [fst] in Hrs. subst r. eexists. split; [reflexivity|].
    cbn. by rewrite Hlen.
Qed.

(** Whatever the order in which the event loop runs the tasks,
    [scrape_all_companies] returns a mapping and never an exception, and
    the keys of the mapping are the configured names. *)
Lemma scrape_all_total_under_any_schedule E (cs : list Company) (w : World) :
  ∃ results w',
    Task.scrape_all_companies E cs w = (Ok results, w') ∧
    ∀ n, is_Some (results !! n) ↔ n ∈ map name cs.
Proof.
  unfold Task.scrape_all_companies, Task.gather. rewrite bind_eq. cbn zeta.
  set (tw := interleave (schedule E) (map (Task.scrape_company E) cs) w).
  destruct (finish_all_total (fst tw) (snd tw)) as (rs & Hrs & Hlen).
  destruct (finish_all (fst tw) (snd tw)) as [r w']. cbn [fst] in Hrs. subst r.
  eexists _, w'. split; [reflexivity|]. intros n.
  rewrite record_results_keys, lookup_empty.
  assert (Hfst : (zip cs rs).*1 = cs).
  { apply fst_zip. subst tw. rewrite Hlen, interleave_length, length_map. lia. }
  rewrite <- Hfst at 2. rewrite <- list_fmap_compose.
  split; [intros [[? [=]]|?]; done|by right].
Qed.

Lemma task_scrape_company_decays E c :
  all_steps pool_decays (Task.scrape_company E c).
Proof.
  pose proof (get_next_proxy_decays E) as Hnext.
  pose proof mark_proxy_failed_decays as Hmark.
  assert (Hsleep : ∀ who d, all_steps pool_decays (Task.sleep E who d)).
  { intros who d. unfold Task.sleep, suspend. repeat quiet_step; pool_frame. }
  assert (Hattempt : ∀ url a p,
            all_steps pool_decays (Task.fetch_attempt E url a p)).
  { intros url a p.
    unfold Task.fetch_attempt, Task.wait_if_needed, Task.request, Task.session_get,
      suspend.
    repeat quiet_step;
      unfold resolve_proxy, get_headers, on_exception, time_time, advance,
        random_choice, lift_result;
      pool_frame. }
  assert (Hfetch : ∀ url company,
            all_steps pool_decays (Task.fetch_page E url company)).
  { intros url company. unfold Task.fetch_page.
    generalize (seqZ 0 max_retries) (@None (option string)). intros attempts.
    induction attempts as [|a rest IH]; intros proxy; cbn [Task.fetch_loop];
      repeat quiet_step. }
  unfold Task.scrape_company. repeat quiet_step.
  - unfold time_time, advance. pool_frame.
  - unfold Task.after_fetch, scrape_failed, extract_jobs_generic, extract_one,
      text_or, save_job, log_scrape_session, sqlite_exec, time_time, datetime_now,
      advance, lift_result.
    pool_frame.
Qed.

(** Whatever the order in which the event loop runs the tasks, the pool
    keeps its invariant and its list of proxies through a scrape of all
    targets, and a proxy that has failed never becomes active again. *)
Lemma failed_proxies_stay_failed_under_any_schedule E (cs : list Company)
      (w : World) (pm : ProxyManager) :
  proxy_manager w = Some pm → pool_inv pm →
  ∃ pm', proxy_manager (snd (Task.scrape_all_companies E cs w)) = Some pm' ∧
         pool_inv pm' ∧ proxies pm' = proxies pm ∧
         failed_proxies pm ⊆ failed_proxies pm' ∧
         active_proxies pm' ⊆ active_proxies pm.
Proof.
  intros Hpm Hinv.
  destruct (gather_all_steps pool_decays E (map (Task.scrape_company E) cs) w)
    as (rs & Hrs & _ & Hrel).
  { apply Forall_forall. intros t Hin.
    apply list_elem_of_fmap in Hin as (c & -> & _).
    apply task_scrape_company_decays. }
  assert (Hsnd : snd (Task.scrape_all_companies E cs w)
                 = snd (Task.gather E (map (Task.scrape_company E) cs) w)).
  { unfold Task.scrape_all_companies. rewrite bind_eq.
    by destruct (Task.gather E (map (Task.scrape_company E) cs) w) as [[r|e] w']. }
  rewrite Hsnd.
  destruct Hrel as [Hok' Hrel]; [unfold pool_ok; by rewrite Hpm|].
  rewrite Hpm in Hrel. unfold pool_ok in Hok'.
  destruct (proxy_manager (snd (Task.gather E _ w))) as [pm'|]; [|done].
  exists pm'. by destruct Hrel as (? & ? & ?).
Qed.

(* ===================================================================== *)
(** ** Skills of a job (src/scraper/integration.py) *)
(* ===================================================================== *)

Lemma startswith_spec p s : startswith p s = true ↔ ∃ q, s = p +:+ q.
Proof.
  revert s. induction p as [|a p IH]; intros s; cbn [startswith].
  - split; [intros _; by exists s|done].
  - destruct s as [|b s]; [split; [done|by intros (q & [=])]|].
    rewrite andb_true_iff, Ascii.eqb_eq, IH. split.
    + intros (-> & q & ->). by exists q.
    + intros (q & [= -> ->]). split; [done|by exists q].
Qed.

Lemma str_in_spec needle hay :
  str_in needle hay = true ↔ ∃ pre post, hay = pre +:+ needle +:+ post.
Proof.
  induction hay as [|b hay IH]; cbn [str_in]; rewrite orb_true_iff, startswith_spec.
  - split.
    + intros [(q & Hq)|[=]]. by exists EmptyString, q.
    + intros (pre & post & H). left. destruct pre as [|c pre]; [by exists post|done].
  - rewrite IH. split.
    + intros [(q & Hq)|(pre & post & ->)]; [by exists EmptyString, q|].
      by exists (String b pre), post.
    + intros (pre & post & H). destruct pre as [|c pre].
      * left. by exists post.
      * right. injection H as -> ->. by exists pre, post.
Qed.

Lemma lower_append a b : PyStr.lower (a +:+ b) = PyStr.lower a +:+ PyStr.lower b.
Proof.
  induction a as [|c a IH]; [done|].
  change (PyStr.lower (String c (a +:+ b))
          = String (PyStr.lower_char c) (PyStr.lower a +:+ PyStr.lower b)).
  cbn [PyStr.lower]. by rewrite IH.
Qed.

Lemma str_in_trans a b t : str_in a b = true → str_in b t = true → str_in a t = true.
Proof.
  rewrite !str_in_spec. intros (p1 & q1 & ->) (p2 & q2 & ->).
  exists (p2 +:+ p1), (q1 +:+ q2). by rewrite !append_assoc.
Qed.

Lemma common_skills_NoDup : NoDup common_skills.
Proof. apply (bool_decide_unpack _). vm_compute. exact I. Qed.

Lemma found_skills_sublist text : found_skills text `sublist_of` common_skills.
Proof. apply sublist_filter. Qed.

(** A skill among the first [n] of the catalogue that occurs in the text is
    among the first [n] that were found. *)
Lemma found_early text i s :
  common_skills !! i = Some s → str_in (PyStr.lower s) text = true →
  ∃ j, (j <= i)%nat ∧ found_skills text !! j = Some s.
Proof.
  unfold found_skills. generalize common_skills. intros l. revert i.
  induction l as [|x l IH]; intros i Hi Hin; [done|].
  rewrite filter_cons. destruct i as [|i]; cbn in Hi.
  - injection Hi as ->. rewrite decide_True by done. exists 0%nat. done.
  - destruct (IH i Hi Hin) as (j & Hj & Hl).
    case_decide; [exists (S j); split; [lia|done]|exists j; split; [lia|done]].
Qed.

Lemma extract_skills_cases description requirements :
  let text := skills_text description requirements in
  (found_skills text = [] ∧ extract_skills description requirements = ["General"%string])
  ∨ (found_skills text ≠ [] ∧
     extract_skills description requirements = take 10 (found_skills text)).
Proof.
  cbv zeta. unfold extract_skills.
  destruct (found_skills (skills_text description requirements)); [by left|by right].
Qed.

Lemma early_skill_reported description requirements i s :
  (i < 10)%nat → common_skills !! i = Some s →
  (s ∈ extract_skills description requirements
   ↔ str_in (PyStr.lower s) (skills_text description requirements) = true).
Proof.
  intros Hi Hs.
  destruct (extract_skills_cases description requirements) as [[Hnil ->]|[Hne ->]].
  - split.
    + intros Hin. apply list_elem_of_singleton in Hin as ->.
      apply list_elem_of_lookup_2 in Hs.
      apply (bool_decide_pack _) in Hs. vm_compute in Hs. destruct Hs.
    + intros Hin. destruct (found_early _ i s Hs Hin) as (j & _ & Hj).
      rewrite Hnil in Hj. done.
  - split.
    + intros Hin. apply elem_of_take in Hin as (j & Hj & _).
      apply list_elem_of_lookup_2 in Hj. unfold found_skills in Hj.
      by apply list_elem_of_filter in Hj as [? _].
    + intros Hin. destruct (found_early _ i s Hs Hin) as (j & Hle & Hj).
      apply elem_of_take. exists j. split; [done|lia].
Qed.

Lemma reported_skill_occurs description requirements s :
  s ∈ extract_skills description requirements → s ≠ "General"%string →
  str_in (PyStr.lower s) (skills_text description requirements) = true.
Proof.
  destruct (extract_skills_cases description requirements) as [[Hnil ->]|[Hne ->]].
  - intros Hin Hs. by apply list_elem_of_singleton in Hin.
  - intros Hin _. apply elem_of_take in Hin as (j & Hj & _).
    apply list_elem_of_lookup_2 in Hj. unfold found_skills in Hj.
    by apply list_elem_of_filter in Hj as [? _].
Qed.

(** X28.  [extract_skills] returns between one and ten distinct entries: the
    single entry General exactly when no skill of the catalogue occurs in the
    text, otherwise skills of the catalogue in the order of the catalogue, each
    occurring in the lower-cased text. *)
Theorem extract_skills_shape (description requirements : string) :
  let skills := extract_skills description requirements in
  skills ≠ [] ∧ (length skills <= 10)%nat ∧ NoDup skills ∧
  ("General"%string ∈ skills ↔ found_skills (skills_text description requirements) = []) ∧
  (skills = ["General"%string]
   ∨ (skills `sublist_of` common_skills ∧
      ∀ s, s ∈ skills →
           str_in (PyStr.lower s) (skills_text description requirements) = true)).
Proof.
  cbv zeta.
  destruct (extract_skills_cases description requirements) as [[Hnil Hrun]|[Hne Hrun]].
  - rewrite Hrun. split; [done|]. split; [cbn; lia|]. split; [apply NoDup_singleton|].
    split; [|by left]. split; [done|]. intros _. apply list_elem_of_singleton. reflexivity.
  - assert (Hsub : take 10 (found_skills (skills_text description requirements))
                   `sublist_of` common_skills).
    { etrans; [apply sublist_take|apply found_skills_sublist]. }
    rewrite Hrun. split.
    { destruct (found_skills _); [done|]. done. }
    split; [rewrite length_take; lia|].
    split; [apply (sublist_NoDup _ _ common_skills_NoDup Hsub)|].
    split.
    { split; [|done]. intros Hin. exfalso.
      apply (sublist_subseteq _ _ Hsub) in Hin.
      apply (bool_decide_pack _) in Hin. vm_compute in Hin. destruct Hin. }
    right. split; [exact Hsub|]. intros s Hin.
    apply reported_skill_occurs; [by rewrite Hrun|].
    intros ->. apply (sublist_subseteq _ _ Hsub) in Hin.
    apply (bool_decide_pack _) in Hin. vm_compute in Hin. destruct Hin.
Qed.

(** X29.  A skill among the first ten of the catalogue is reported exactly when
    its lower-cased name occurs in the lower-cased text, and then no later in
    the answer than in the catalogue: the cut to ten entries can only drop
    later skills. *)
Theorem extract_skills_first_ten_exact (description requirements : string)
        (i : nat) (s : string) :
  (i < 10)%nat → common_skills !! i = Some s →
  (s ∈ extract_skills description requirements
   ↔ str_in (PyStr.lower s) (skills_text description requirements) = true)
  ∧ (str_in (PyStr.lower s) (skills_text description requirements) = true →
     ∃ j, (j <= i)%nat ∧ extract_skills description requirements !! j = Some s).
Proof.
  intros Hi Hs. split; [by apply (early_skill_reported _ _ i)|].
  intros Hin. destruct (found_early _ i s Hs Hin) as (j & Hle & Hj).
  exists j. split; [done|].
  destruct (extract_skills_cases description requirements) as [[Hnil ->]|[Hne ->]].
  - by rewrite Hnil in Hj.
  - rewrite lookup_take_lt by lia. done.
Qed.

Lemma extract_skills_first_ten_exact_witness :
  "SQL"%string ∈ extract_skills "Maintain PostgreSQL clusters" "".
Proof.
  apply (proj1 (extract_skills_first_ten_exact "Maintain PostgreSQL clusters" ""
                  9 "SQL" ltac:(lia) eq_refl)).
  vm_compute. reflexivity.
Defined.

(** X30.  Matching is by substring, not by word: a word that merely contains the
    name of one of the first ten skills makes that skill reported, wherever
    the word stands in the description. *)
Theorem extract_skills_matches_substrings (description requirements : string)
        (i : nat) (s word pre post : string) :
  (i < 10)%nat → common_skills !! i = Some s →
  str_in (PyStr.lower s) (PyStr.lower word) = true →
  description = pre +:+ word +:+ post →
  s ∈ extract_skills description requirements.
Proof.
  intros Hi Hs Hword ->. apply (early_skill_reported _ _ i s Hi Hs).
  apply (str_in_trans _ _ _ Hword). apply str_in_spec.
  exists (PyStr.lower pre), (PyStr.lower (post +:+ " " +:+ requirements)).
  unfold skills_text. rewrite !lower_append. by rewrite !append_assoc.
Qed.

Lemma extract_skills_matches_substrings_witness :
  "AWS"%string ∈ extract_skills "Knowledge of employment laws is a plus" "".
Proof.
  apply (extract_skills_matches_substrings
           "Knowledge of employment laws is a plus" "" 6 "AWS" "laws"
           "Knowledge of employment " " is a plus").
  - lia.
  - reflexivity.
  - vm_compute. reflexivity.
  - reflexivity.
Defined.

(** Whenever JavaScript is reported so is Java, and whenever PostgreSQL is
    reported so is SQL: the one name contains the other. *)
Lemma extract_skills_implied_skills (description requirements : string) :
  ("JavaScript"%string ∈ extract_skills description requirements →
   "Java"%string ∈ extract_skills description requirements)
  ∧ ("PostgreSQL"%string ∈ extract_skills description requirements →
     "SQL"%string ∈ extract_skills description requirements).
Proof.
  split; intros Hin; apply reported_skill_occurs in Hin; try discriminate.
  - apply (early_skill_reported _ _ 3 "Java"); [lia|reflexivity|].
    eapply str_in_trans; [|exact Hin]. vm_compute. reflexivity.
  - apply (early_skill_reported _ _ 9 "SQL"); [lia|reflexivity|].
    eapply str_in_trans; [|exact Hin]. vm_compute. reflexivity.
Qed.
